(** * The juju cluster profile of sos-collector: node discovery

    A shallow embedding of [sos/collector/clusters/juju.py] and the
    properties of its status indexer, filter resolver, output normaliser
    and option parser.

    Conventions of the embedding.
    - A Python [str] is a [string]; its characters are read as the code
      points below 256.
    - A Python exception is a value of [exn]; a function that can raise
      returns a [result].
    - A mapping parsed from JSON is a [dict]: an association list in the
      order of the document, with pairwise distinct keys ([dict_wf]).
    - The index ([collections.defaultdict(dict)]) is a finite map from the
      category name to a finite map from the entity name to its nodes.
    - A Python [set] of nodes is a [gset string].
    - The collaborators that are not part of the profile (the regular
      expression matcher used on user terms, the command runner of the
      cluster base class and [json.loads]) are parameters of the section
      [Collector]. *)

From Stdlib Require Import Ascii String ZArith Lia.
From stdpp Require Import base gmap strings list fin_maps.

Local Open Scope Z_scope.

(** ** Exceptions and results *)

Inductive exn : Type :=
| KeyError (key : string)
| Exception (msg : string)
| ReError (pattern : string)
| JSONDecodeError (text : string).

Inductive result (A : Type) : Type :=
| Ok (a : A)
| Raise (e : exn).

Arguments Ok {A} a.
Arguments Raise {A} e.

#[global] Instance result_ret : MRet result := fun _ a => Ok a.
#[global] Instance result_bind : MBind result := fun _ _ f m =>
  match m with
  | Ok a => f a
  | Raise e => Raise e
  end.
#[global] Instance result_fmap : FMap result := fun _ _ f m =>
  match m with
  | Ok a => Ok (f a)
  | Raise e => Raise e
  end.

Definition is_ok {A} (m : result A) : bool :=
  match m with Ok _ => true | Raise _ => false end.

(** [for x in l: acc = f acc x], where [f] can raise. *)
Fixpoint foldM {A B} (f : B → A → result B) (acc : B) (l : list A) : result B :=
  match l with
  | [] => Ok acc
  | x :: l' => acc' ← f acc x; foldM f acc' l'
  end.

(** ** The Python built-ins the profile calls *)

Module Py.

(** [str.isspace] on the code points below 256. *)
Definition is_space (c : ascii) : bool :=
  let n := N_of_ascii c in
  ((9 <=? n) && (n <=? 13) || (28 <=? n) && (n <=? 32)
   || (n =? 133) || (n =? 160))%N.

Fixpoint lstrip (s : string) : string :=
  match s with
  | "" => ""
  | String c s' => if is_space c then lstrip s' else s
  end.

Fixpoint rstrip (s : string) : string :=
  match s with
  | "" => ""
  | String c s' =>
      match rstrip s' with
      | "" => if is_space c then "" else String c ""
      | r => String c r
      end
  end.

(** [s.strip()] *)
Definition strip (s : string) : string := rstrip (lstrip s).

(** No whitespace at the start, no whitespace at the end. *)
Definition starts_with_space (s : string) : bool :=
  match s with
  | String c _ => is_space c
  | "" => false
  end.

Fixpoint ends_with_space (s : string) : bool :=
  match s with
  | "" => false
  | String c "" => is_space c
  | String _ s' => ends_with_space s'
  end.

Definition trimmed (s : string) : Prop :=
  starts_with_space s = false ∧ ends_with_space s = false.

(** [s.split(sep)] for a separator of one character. *)
Fixpoint split (sep : ascii) (s : string) : list string :=
  match s with
  | "" => [""]
  | String c s' =>
      if decide (c = sep) then "" :: split sep s'
      else match split sep s' with
           | [] => [String c ""]
           | w :: ws => String c w :: ws
           end
  end.

(** [s.startswith(p)] *)
Definition startswith (s p : string) : bool := String.prefix p s.

(** Truth value of a list, as in [if l:] and [l or d]. *)
Definition truthy {A} (l : list A) : bool :=
  match l with [] => false | _ => true end.

Definition or_else {A} (l d : list A) : list A := if truthy l then l else d.

End Py.

(** ** [_parse_option_string] *)

Definition _parse_option_string (strings : option string) : list string :=
  match strings with
  | None => []
  | Some "" => []
  | Some s => Py.strip <$> Py.split "," s
  end.

(** ** The fragment of Python's [re] module that the profile relies on

    Patterns: literal characters, [.], [^], [$], [|], groups [( )], the
    greedy quantifiers [*], [+] and [?], bracket classes of characters and
    ranges, and a backslash before a metacharacter.  [compile] answers
    [None] on every other pattern (also on valid Python patterns outside
    this fragment, and on a quantifier over a body that can match the
    empty string).  The matcher is a backtracking matcher in
    continuation-passing style: alternatives are tried from left to
    right and [*] takes the longest repetition first, as [sre] does. *)

Module Re.

Inductive citem : Type :=
| CChar (c : ascii)
| CRange (lo hi : ascii).

Inductive regex : Type :=
| Eps
| Chr (c : ascii)
| Dot
| Cls (neg : bool) (items : list citem)
| Bol
| Eol
| Seq (r1 r2 : regex)
| Alt (r1 r2 : regex)
| Star (r : regex)
| Grp (n : nat) (r : regex).

Definition newline : ascii := "010"%char.

Definition in_citem (c : ascii) (i : citem) : bool :=
  match i with
  | CChar c' => bool_decide (c = c')
  | CRange lo hi =>
      ((N_of_ascii lo <=? N_of_ascii c) && (N_of_ascii c <=? N_of_ascii hi))%N
  end.

Definition in_class (neg : bool) (items : list citem) (c : ascii) : bool :=
  xorb neg (existsb (in_citem c) items).

(** [^]: at the start of the text, and with MULTILINE after a newline. *)
Definition at_bol (multiline : bool) (prev : option ascii) : bool :=
  match prev with
  | None => true
  | Some c => multiline && bool_decide (c = newline)
  end.

(** [$]: at the end of the text or before its final newline, and with
    MULTILINE before every newline. *)
Definition at_eol (multiline : bool) (s : string) : bool :=
  match s with
  | "" => true
  | String c s' =>
      bool_decide (c = newline) && (multiline || bool_decide (s' = ""))
  end.

(** [s[:n]] *)
Fixpoint take (n : nat) (s : string) : string :=
  match n, s with
  | S n', String c s' => String c (take n' s')
  | _, _ => ""
  end.

Definition consumed (s s' : string) : nat :=
  (String.length s - String.length s')%nat.

Abbreviation captures := (gmap nat string).

Section Matcher.
Context {R : Type} (multiline : bool).

Definition cont : Type := option ascii → string → captures → option R.

Definition step_char (p : ascii → bool) (s : string) (caps : captures)
    (k : cont) : option R :=
  match s with
  | String c s' => if p c then k (Some c) s' caps else None
  | "" => None
  end.

(** The loop of a greedy [*]: one more repetition of the body that
    reads at least one character, else the rest of the pattern.  [n]
    bounds the repetitions by the length of the text. *)
Definition star_loop (body : option ascii → string → captures → cont → option R)
    (k : cont) : nat → option ascii → string → captures → option R :=
  fix star (n : nat) (prev : option ascii) (s : string) (caps : captures)
      {struct n} : option R :=
    match n with
    | O => k prev s caps
    | S n' =>
        match
          body prev s caps (fun prev' s' caps' =>
            if decide (String.length s' < String.length s)%nat
            then star n' prev' s' caps' else None)
        with
        | Some x => Some x
        | None => k prev s caps
        end
    end.

Fixpoint m (r : regex) (prev : option ascii) (s : string)
    (caps : captures) (k : cont) {struct r} : option R :=
  match r with
  | Eps => k prev s caps
  | Chr c => step_char (fun c' => bool_decide (c' = c)) s caps k
  | Dot => step_char (fun c' => negb (bool_decide (c' = newline))) s caps k
  | Cls neg items => step_char (in_class neg items) s caps k
  | Bol => if at_bol multiline prev then k prev s caps else None
  | Eol => if at_eol multiline s then k prev s caps else None
  | Seq r1 r2 =>
      m r1 prev s caps (fun prev' s' caps' => m r2 prev' s' caps' k)
  | Alt r1 r2 =>
      match m r1 prev s caps k with
      | Some x => Some x
      | None => m r2 prev s caps k
      end
  | Star r' => star_loop (m r') k (String.length s) prev s caps
  | Grp n r' =>
      m r' prev s caps (fun prev' s' caps' =>
        k prev' s' (<[n := take (consumed s s') s]> caps'))
  end.
End Matcher.

Inductive titem : Type :=
| TLit (c : ascii)
| TGroup (n : nat).

(** *** Patterns as text *)

Definition metachars : list ascii :=
  [ "."; "^"; "$"; "*"; "+"; "?"; "{"; "}"; "["; "]"; "\"; "|"; "("; ")" ]%char.

Fixpoint nullable (r : regex) : bool :=
  match r with
  | Eps | Bol | Eol | Star _ => true
  | Chr _ | Dot | Cls _ _ => false
  | Seq r1 r2 => nullable r1 && nullable r2
  | Alt r1 r2 => nullable r1 || nullable r2
  | Grp _ r' => nullable r'
  end.

(** The alternatives already closed and the items of the current one,
    both latest first. *)
Record frame : Type := Frame { f_alts : list regex; f_items : list regex }.

Definition mk_seq (items : list regex) : regex :=
  fold_left (fun acc r => Seq r acc) items Eps.

Definition mk_alt (alts : list regex) (last : regex) : regex :=
  fold_left (fun acc a => Alt a acc) alts last.

Definition close (f : frame) : regex := mk_alt (f_alts f) (mk_seq (f_items f)).

Definition push (r : regex) (f : frame) : frame :=
  Frame (f_alts f) (r :: f_items f).

Definition quantify (q : regex → regex) (f : frame) : option frame :=
  match f_items f with
  | r :: rest =>
      if nullable r then None else Some (Frame (f_alts f) (q r :: rest))
  | [] => None
  end.

Inductive mode : Type :=
| MNorm (quantifiable : bool)
| MEsc
| MCls (neg : bool) (items : list citem) (dash : bool).

Fixpoint parse (s : string) (md : mode) (stack : list (nat * frame))
    (cur : frame) (next : nat) {struct s} : option regex :=
  match s with
  | "" =>
      match md, stack with
      | MNorm _, [] => Some (close cur)
      | _, _ => None
      end
  | String c s' =>
      match md with
      | MEsc =>
          if bool_decide (c ∈ metachars)
          then parse s' (MNorm true) stack (push (Chr c) cur) next
          else None
      | MCls neg items dash =>
          match c with
          | "]"%char =>
              match items, dash with
              | [], _ => None
              | _, true =>
                  parse s' (MNorm true) stack
                    (push (Cls neg (rev (CChar "-" :: items))) cur) next
              | _, false =>
                  parse s' (MNorm true) stack
                    (push (Cls neg (rev items)) cur) next
              end
          | "\"%char | "["%char => None
          | "-"%char =>
              match items, dash with
              | [], false => parse s' (MCls neg [CChar c] false) stack cur next
              | CChar _ :: _, false => parse s' (MCls neg items true) stack cur next
              | _, _ => None
              end
          | _ =>
              if dash then
                match items with
                | CChar lo :: rest =>
                    if (N_of_ascii lo <=? N_of_ascii c)%N
                    then parse s' (MCls neg (CRange lo c :: rest) false) stack cur next
                    else None
                | _ => None
                end
              else parse s' (MCls neg (CChar c :: items) false) stack cur next
          end
      | MNorm q =>
          match c with
          | "("%char =>
              match s' with
              | String "?"%char _ => None
              | _ => parse s' (MNorm false) ((next, cur) :: stack) (Frame [] []) (S next)
              end
          | ")"%char =>
              match stack with
              | (n, f) :: stack' =>
                  parse s' (MNorm true) stack' (push (Grp n (close cur)) f) next
              | [] => None
              end
          | "|"%char =>
              parse s' (MNorm false) stack
                (Frame (mk_seq (f_items cur) :: f_alts cur) []) next
          | "*"%char =>
              if q then f ← quantify Star cur; parse s' (MNorm false) stack f next
              else None
          | "+"%char =>
              if q then
                f ← quantify (fun r => Seq r (Star r)) cur;
                parse s' (MNorm false) stack f next
              else None
          | "?"%char =>
              if q then
                f ← quantify (fun r => Alt r Eps) cur;
                parse s' (MNorm false) stack f next
              else None
          | "."%char => parse s' (MNorm true) stack (push Dot cur) next
          | "^"%char => parse s' (MNorm false) stack (push Bol cur) next
          | "$"%char => parse s' (MNorm false) stack (push Eol cur) next
          | "["%char =>
              match s' with
              | String "^"%char s'' => parse s'' (MCls true [] false) stack cur next
              | _ => parse s' (MCls false [] false) stack cur next
              end
          | "\"%char => parse s' MEsc stack cur next
          | "{"%char | "}"%char | "]"%char => None
          | _ => parse s' (MNorm true) stack (push (Chr c) cur) next
          end
      end
  end.

(** [re.compile(pattern)] on the fragment. *)
Definition compile (pattern : string) : option regex :=
  parse pattern (MNorm false) [] (Frame [] []) 1.

(** A replacement template: [\N] for one digit [N], literal text
    without backslash otherwise. *)
Fixpoint template (s : string) : option (list titem) :=
  match s with
  | "" => Some []
  | String "\"%char (String d s') =>
      match Ascii.is_nat d with
      | Some (S n) => t ← template s'; Some (TGroup (S n) :: t)
      | _ => None
      end
  | String "\"%char "" => None
  | String c s' => t ← template s'; Some (TLit c :: t)
  end.

(** One attempt of the pattern at a position: the captures and the
    number of characters matched.  [must_advance] refuses the empty
    match (the attempt that follows an empty match at the same place). *)
Definition match_at (multiline : bool) (r : regex) (prev : option ascii)
    (s : string) (must_advance : bool) : option (captures * nat) :=
  m multiline r prev s ∅ (fun _ s' caps =>
    if must_advance && bool_decide (consumed s s' = 0%nat) then None
    else Some (caps, consumed s s')).

(** [re.match(r, s)] as a truth value. *)
Definition matches (multiline : bool) (r : regex) (s : string) : bool :=
  bool_decide (is_Some (match_at multiline r None s false)).

(** *** What a pattern matches

    [Matches multiline r prev w rest]: the pattern [r] matches the text
    [w], read after the character [prev] and followed by [rest]. *)

Fixpoint last_char (prev : option ascii) (w : string) : option ascii :=
  match w with
  | "" => prev
  | String c w' => last_char (Some c) w'
  end.

Inductive Matches (multiline : bool) :
    regex → option ascii → string → string → Prop :=
| M_Eps prev rest : Matches multiline Eps prev "" rest
| M_Chr c prev rest : Matches multiline (Chr c) prev (String c "") rest
| M_Dot c prev rest :
    c ≠ newline → Matches multiline Dot prev (String c "") rest
| M_Cls neg items c prev rest :
    in_class neg items c = true →
    Matches multiline (Cls neg items) prev (String c "") rest
| M_Bol prev rest :
    at_bol multiline prev = true → Matches multiline Bol prev "" rest
| M_Eol prev rest :
    at_eol multiline rest = true → Matches multiline Eol prev "" rest
| M_Seq r1 r2 prev w1 w2 rest :
    Matches multiline r1 prev w1 (w2 +:+ rest) →
    Matches multiline r2 (last_char prev w1) w2 rest →
    Matches multiline (Seq r1 r2) prev (w1 +:+ w2) rest
| M_AltL r1 r2 prev w rest :
    Matches multiline r1 prev w rest → Matches multiline (Alt r1 r2) prev w rest
| M_AltR r1 r2 prev w rest :
    Matches multiline r2 prev w rest → Matches multiline (Alt r1 r2) prev w rest
| M_StarNil r prev rest : Matches multiline (Star r) prev "" rest
| M_StarCons r prev w1 w2 rest :
    Matches multiline r prev w1 (w2 +:+ rest) →
    Matches multiline (Star r) (last_char prev w1) w2 rest →
    Matches multiline (Star r) prev (w1 +:+ w2) rest
| M_Grp n r prev w rest :
    Matches multiline r prev w rest → Matches multiline (Grp n r) prev w rest.

(** What a run of the matcher that returned [x] has found: a text that
    [r] matches, after which the continuation returned [x]. *)
Definition found {R} (multiline : bool) (r : regex) (prev : option ascii)
    (s : string) (k : cont (R := R)) (x : R) : Prop :=
  ∃ w rest caps', s = w +:+ rest ∧ Matches multiline r prev w rest ∧
                  k (last_char prev w) rest caps' = Some x.

(** A continuation that accepts at a position, whatever the captures. *)
Definition accepts {R} (k : cont (R := R)) (prev : option ascii) (s : string) : Prop :=
  ∀ caps, is_Some (k prev s caps).

(** *** Substitution *)

Fixpoint expand (tpl : list titem) (caps : captures) : string :=
  match tpl with
  | [] => ""
  | TLit c :: tpl' => String c (expand tpl' caps)
  | TGroup n :: tpl' => default "" (caps !! n) +:+ expand tpl' caps
  end.

(** What [sub] does at one position: the text it emits and the number
    of characters of the subject it replaces.  After an empty match the
    same position is tried once more for a non-empty match. *)
Definition sub_here (multiline : bool) (r : regex) (tpl : list titem)
    (prev : option ascii) (s : string) : string * nat :=
  match match_at multiline r prev s false with
  | None => ("", 0%nat)
  | Some (caps, S n) => (expand tpl caps, S n)
  | Some (caps, O) =>
      match match_at multiline r prev s true with
      | Some (caps', n') => (expand tpl caps +:+ expand tpl caps', n')
      | None => (expand tpl caps, 0%nat)
      end
  end.

(** The scan of [re.sub] with [count=0]: [skip] characters still belong
    to the last match; elsewhere the pattern is tried, and a character
    where no match starts is copied. *)
Fixpoint sub_loop (multiline : bool) (r : regex) (tpl : list titem)
    (prev : option ascii) (s : string) (skip : nat) {struct s} : string :=
  match skip with
  | S k =>
      match s with
      | String c s' => sub_loop multiline r tpl (Some c) s' k
      | "" => ""
      end
  | O =>
      let '(out, n) := sub_here multiline r tpl prev s in
      out +:+
      match s with
      | "" => ""
      | String c s' =>
          match n with
          | O => String c (sub_loop multiline r tpl (Some c) s' 0)
          | S k => sub_loop multiline r tpl (Some c) s' k
          end
      end
  end.

Definition sub (multiline : bool) (r : regex) (tpl : list titem)
    (s : string) : string :=
  sub_loop multiline r tpl None s 0.

End Re.


(** [re.match(pattern, s)] with no flags.  On a pattern of the fragment
    the answer is the one of the matcher above.  On every other pattern,
    the ones that Python rejects and the valid ones that the fragment
    does not read, it is the answer [other] of Python's matcher, which
    is left open. *)
Definition re_match (other : string → string → result bool)
    (pattern s : string) : result bool :=
  match Re.compile pattern with
  | Some r => Ok (Re.matches false r s)
  | None => other pattern s
  end.

(** ** Status documents *)

(** A JSON value the profile never looks into. *)
#[warnings="-register-all"]
Inductive json : Type :=
| JNull
| JBool (b : bool)
| JNum (n : Z)
| JStr (s : string)
| JArr (l : list json)
| JObj (l : list (string * json)).

(** A mapping of a parsed document, in document order. *)
Abbreviation dict A := (list (string * A)).

Fixpoint dict_get {A} (k : string) (d : dict A) : option A :=
  match d with
  | [] => None
  | (k', v) :: d' => if decide (k' = k) then Some v else dict_get k d'
  end.

Definition dict_keys {A} (d : dict A) : list string := d.*1.

(** The keys of a Python mapping are pairwise distinct. *)
Definition dict_wf {A} (d : dict A) : Prop := NoDup (dict_keys d).

(** A unit: [{"machine": ..., "subordinates": {...}}], both keys optional
    in the text of the document. *)
Record UnitInfo : Type := {
  machine : option string;
  subordinates : option (dict json)
}.

(** An application: [{"units": {...}, "subordinate-to": [...]}]. *)
Record AppInfo : Type := {
  units : option (dict UnitInfo);
  subordinate_to : option (list string)
}.

Record StatusDocument : Type := {
  applications : dict AppInfo;
  machines : dict json
}.

(** [d[key]] on a mapping whose key may be missing. *)
Definition item {A} (key : string) (v : option A) : result A :=
  match v with
  | Some a => Ok a
  | None => Raise (KeyError key)
  end.

(** ** The index *)

Abbreviation Index := (gmap string (gmap string (list string))).

(** [index[key]] of a [defaultdict(dict)]. *)
Definition idx_get (key : string) (index : Index) : gmap string (list string) :=
  default ∅ (index !! key).

(** [index[key][name] = nodes] *)
Definition idx_set (key name : string) (nodes : list string) (index : Index) : Index :=
  <[key := <[name := nodes]> (idx_get key index)]> index.

(** [f"{model_name}:{machine}"] *)
Definition node_of (model_name machine : string) : string :=
  model_name +:+ ":" +:+ machine.

(** The body of the loop over the units of one application. *)
Definition add_principal_unit (model_name : string)
    (acc : Index * list string) (u : string * UnitInfo) : result (Index * list string) :=
  let '(index, nodes) := acc in
  let '(unit, unit_info) := u in
  machine ← item "machine" (machine unit_info);
  let node := node_of model_name machine in
  Ok (idx_set "machines" machine [node] (idx_set "units" unit [node] index),
      nodes ++ [node]).

Definition add_principal_app (model_name : string) (index : Index)
    (a : string * AppInfo) : result Index :=
  let '(app, app_info) := a in
  let units := default [] (units app_info) in
  '(index, nodes) ← foldM (add_principal_unit model_name) (index, []) units;
  Ok (idx_set "apps" app nodes index).

Definition _add_principals_to_index (index : Index) (juju_status : StatusDocument)
    (model_name : string) : result Index :=
  foldM (add_principal_app model_name) index (applications juju_status).

(** The body of the loop over the subordinates of one unit of a parent. *)
Definition add_subordinate_key (app node : string) (index : Index)
    (sub : string * json) : Index :=
  let '(sub_key, sub_value) := sub in
  if Py.startswith sub_key (app +:+ "/") then idx_set "units" sub_key [node] index
  else index.

Definition add_subordinate_unit (model_name app : string) (index : Index)
    (u : string * UnitInfo) : result Index :=
  let '(unit, unit_info) := u in
  machine ← item "machine" (machine unit_info);
  let node := node_of model_name machine in
  Ok (foldl (add_subordinate_key app node) index
        (default [] (subordinates unit_info))).

Definition add_subordinate_parent (juju_status : StatusDocument)
    (model_name app : string) (index : Index) (parent : string) : result Index :=
  app_nodes ← item app (idx_get "apps" index !! app);
  parent_nodes ← item parent (idx_get "apps" index !! parent);
  let index := idx_set "apps" app (app_nodes ++ parent_nodes) index in
  parent_info ← item parent (dict_get parent (applications juju_status));
  units ← item "units" (units parent_info);
  foldM (add_subordinate_unit model_name app) index units.

Definition add_subordinate_app (juju_status : StatusDocument)
    (model_name : string) (index : Index) (a : string * AppInfo) : result Index :=
  let '(app, app_info) := a in
  let subordinate_to := default [] (subordinate_to app_info) in
  foldM (add_subordinate_parent juju_status model_name app) index subordinate_to.

Definition _add_subordinates_to_index (index : Index) (juju_status : StatusDocument)
    (model_name : string) : result Index :=
  foldM (add_subordinate_app juju_status model_name) index (applications juju_status).

Definition _add_machines_to_index (index : Index) (juju_status : StatusDocument)
    (model_name : string) : Index :=
  foldl (fun index machine =>
           idx_set "machines" machine [node_of model_name machine] index)
    index (dict_keys (machines juju_status)).

(** The three passes of [_get_model_info], on a status already fetched. *)
Definition index_status (juju_status : StatusDocument) (model_name : string) : result Index :=
  index ← _add_principals_to_index ∅ juju_status model_name;
  index ← _add_subordinates_to_index index juju_status model_name;
  Ok (_add_machines_to_index index juju_status model_name).

(** ** The output normaliser *)

(** The pattern and the replacement of the substitution, as [Re.compile]
    and [Re.template] read the two texts of the source (lemma
    [cleanup_pattern_compiles]). *)
Definition cleanup_pattern : Re.regex :=
  Re.Seq
    (Re.Grp 1 (Re.Seq Re.Bol (Re.Seq (Re.Star (Re.Cls true [Re.CChar "{"])) Re.Eps)))
    (Re.Seq (Re.Grp 2 (Re.Seq (Re.Star Re.Dot) Re.Eps)) Re.Eps).

Definition cleanup_repl : list Re.titem := [Re.TGroup 2].

Definition _cleanup_juju_output (output : string) : string :=
  Re.sub true cleanup_pattern cleanup_repl output.

(** ** Fetching, filtering and assembling *)

(** What the command runner of the cluster answers. *)
Record CmdResult : Type := { status : Z; output : string }.

(** The values of the four cluster options. *)
Record Options : Type := {
  opt_apps : option string;
  opt_units : option string;
  opt_models : option string;
  opt_machines : option string
}.

Definition cmd : string := "juju".

Definition set_transport_type : string := "juju".

Section Collector.

Variable re_match : string → string → result bool.
Variable exec_primary_cmd : string → CmdResult.
Variable json_loads : string → result StatusDocument.

Definition status_cmd (model_name : string) : string :=
  let model_option := if bool_decide (model_name = "") then "" else "-m " +:+ model_name in
  let format_option := "--format json" in
  cmd +:+ " status " +:+ model_option +:+ " " +:+ format_option.

Definition _execute_juju_status (model_name : string) : result StatusDocument :=
  let res := exec_primary_cmd (status_cmd model_name) in
  if bool_decide (status res = 0) then json_loads (_cleanup_juju_output (output res))
  else Raise (Exception (status_cmd model_name +:+ " did not return usable output")).

Definition _get_model_info (model_name : string) : result Index :=
  juju_status ← _execute_juju_status model_name;
  index_status juju_status model_name.

Definition _filter_by_pattern (key : string) (patterns : list string)
    (model_info : Index) : result (gset string) :=
  foldM (fun nodes pattern =>
    foldM (fun (nodes : gset string) (e : string * list string) =>
             let '(param, value) := e in
             matched ← re_match pattern param;
             Ok (if matched : bool then nodes ∪ list_to_set (Py.or_else value []) else nodes))
      nodes (map_to_list (idx_get key model_info)))
    ∅ patterns.

Definition _filter_by_fixed (key : string) (patterns : list string)
    (model_info : Index) : gset string :=
  foldl (fun nodes pattern =>
    foldl (fun (nodes : gset string) (e : string * list string) =>
             let '(param, value) := e in
             if bool_decide (pattern = param)
             then nodes ∪ list_to_set (Py.or_else value []) else nodes)
      nodes (map_to_list (idx_get key model_info)))
    ∅ patterns.

(** The filter of one category, by the policy of the category. *)
Definition filter_category (model_info : Index) (nodes : gset string)
    (f : string * list string) : result (gset string) :=
  let '(key, resource) := f in
  _nodes ← (if bool_decide (key ∈ ["apps"])
            then _filter_by_pattern key resource model_info
            else Ok (_filter_by_fixed key resource model_info));
  Ok (nodes ∪ _nodes).

(** The body of the loop over the models. *)
Definition get_nodes_model (filters : dict (list string)) (nodes : gset string)
    (model : string) : result (gset string) :=
  model_info ← _get_model_info model;
  if negb (existsb Py.truthy filters.*2) then Ok nodes
  else foldM (filter_category model_info) nodes filters.

(** [list(nodes)] enumerates the set in an order Python leaves open;
    [elements] is one such order. *)
Definition get_nodes (opts : Options) : result (list string) :=
  let models := _parse_option_string (opt_models opts) in
  let apps := _parse_option_string (opt_apps opts) in
  let units := _parse_option_string (opt_units opts) in
  let machines := _parse_option_string (opt_machines opts) in
  let filters := [("apps", apps); ("units", units); ("machines", machines)] in
  let models := if Py.truthy models then models else [""] in
  nodes ← foldM (get_nodes_model filters) ∅ models;
  Ok (elements nodes).

End Collector.

(** ** Examples *)

Module Examples.

(** Application [A] with unit [a/0] on machine 1, and its subordinate [B]. *)
Definition doc_ab : StatusDocument := {|
  applications :=
    [ ("A", {| units := Some [("a/0", {| machine := Some "1";
                                          subordinates := Some [("B/0", JObj [])] |})];
               subordinate_to := None |});
      ("B", {| units := None; subordinate_to := Some ["A"] |}) ];
  machines := [("1", JObj [])]
|}.

Definition doc_5 : StatusDocument := {|
  applications := [];
  machines := [("5", JObj [])]
|}.

(** Parent [P] with unit [p/0] on machine 3 hosting [S/0], and its
    subordinate [S]. *)
Definition unit_p0 : UnitInfo :=
  {| machine := Some "3"; subordinates := Some [("S/0", JObj [])] |}.

Definition app_P : AppInfo :=
  {| units := Some [("p/0", unit_p0)]; subordinate_to := None |}.

Definition app_S : AppInfo :=
  {| units := None; subordinate_to := Some ["P"] |}.

Definition doc_ps : StatusDocument := {|
  applications := [("P", app_P); ("S", app_S)];
  machines := [("3", JObj [])]
|}.

(** The same, with a second unit [p/1] on machine 4 that lists [S/0]
    among its subordinates as well. *)
Definition doc_two_hosts : StatusDocument := {|
  applications :=
    [ ("P", {| units := Some [("p/0", unit_p0);
                              ("p/1", {| machine := Some "4";
                                         subordinates := Some [("S/0", JObj [])] |})];
               subordinate_to := None |});
      ("S", app_S) ];
  machines := [("3", JObj []); ("4", JObj [])]
|}.

(** An application with no [units] and no [subordinate-to]. *)
Definition app_lonely : AppInfo := {| units := None; subordinate_to := None |}.

Definition doc_lonely : StatusDocument := {|
  applications := [("A", app_lonely)];
  machines := []
|}.

(** [C] is subordinate to [B], which is itself a subordinate and has
    no [units] key. *)
Definition doc_chain : StatusDocument := {|
  applications :=
    [ ("A", {| units := Some [("a/0", {| machine := Some "1";
                                          subordinates := Some [("B/0", JObj [])] |})];
               subordinate_to := None |});
      ("B", {| units := None; subordinate_to := Some ["A"] |});
      ("C", {| units := None; subordinate_to := Some ["B"] |}) ];
  machines := [("1", JObj [])]
|}.

(** The answer of Python's matcher on a pattern that it rejects: the
    error of its compiler, whatever the text.  The examples use no
    pattern outside the fragment but "(", which Python rejects. *)
Definition rejects (pattern s : string) : result bool := Raise (ReError pattern).

Definition run (doc : StatusDocument) (opts : Options) : result (list string) :=
  get_nodes (re_match rejects) (fun _ => {| status := 0; output := "{}" |})
    (fun _ => Ok doc) opts.

(** Indexes for the examples of filtering. *)
Definition idx_web : Index :=
  idx_set "apps" "web-1" ["m:1"]
    (idx_set "apps" "webapp" ["m:2"] (idx_set "apps" "database" ["m:3"] ∅)).


(** A status printed on two lines, the [applications] section on the
    first and the [machines] section on the second. *)
Definition dq : string := String "034"%char "".

Definition nl : string := String Re.newline "".

Definition payload_two_lines : string :=
  "{" +:+ dq +:+ "applications" +:+ dq +:+ ": {}," +:+ nl
  +:+ " " +:+ dq +:+ "machines" +:+ dq +:+ ": {}}".

(** The same text without the start of its second line. *)
Definition payload_cut : string :=
  "{" +:+ dq +:+ "applications" +:+ dq +:+ ": {}," +:+ nl +:+ "{}}".

End Examples.


(** ** Conditions on a status document *)

(** A name of a [subordinate-to] list is an application of the document
    that has a [units] key. *)
Definition parent_ok (juju_status : StatusDocument) (parent : string) : bool :=
  match dict_get parent (applications juju_status) with
  | Some parent_info => bool_decide (is_Some (units parent_info))
  | None => false
  end.

Definition parents_ok (juju_status : StatusDocument) : bool :=
  forallb (λ a : string * AppInfo,
             forallb (parent_ok juju_status) (default [] (subordinate_to a.2)))
    (applications juju_status).

(** The units of all applications, in document order. *)
Definition all_units (juju_status : StatusDocument) : dict UnitInfo :=
  a ← applications juju_status; default [] (units a.2).

Definition sub_keys (unit_info : UnitInfo) : list string :=
  dict_keys (default [] (subordinates unit_info)).

(** Every unit has a machine. *)
Definition units_have_machines (juju_status : StatusDocument) : bool :=
  forallb (λ u : string * UnitInfo, bool_decide (is_Some (machine u.2)))
    (all_units juju_status).

(** The unit name [x] occurs in the unit [u] of the document: it is the
    name of [u] or one of its subordinates. *)
Definition occurs_in (x : string) (u : string * UnitInfo) : bool :=
  bool_decide (u.1 = x) || bool_decide (x ∈ sub_keys u.2).

(** Every occurrence of the unit name [x] is on machine [m]. *)
Definition placed_on (juju_status : StatusDocument) (m x : string) : bool :=
  forallb (λ u : string * UnitInfo,
             negb (occurs_in x u) || bool_decide (machine u.2 = Some m))
    (all_units juju_status).

(** The [apps] entry of [x] contains [node]. *)
Definition has_node (x node : string) (index : Index) : Prop :=
  ∃ nodes, idx_get "apps" index !! x = Some nodes ∧ node ∈ nodes.

(** The [units] entry of [k] is the node of machine [m]. *)
Definition unit_at (g m k : string) (index : Index) : Prop :=
  idx_get "units" index !! k = Some [node_of g m].

(** The models that [get_nodes] visits: the [models] option, or the
    current model (the empty name) when the option names none. *)
Definition requested_models (opts : Options) : list string :=
  let models := _parse_option_string (opt_models opts) in
  if Py.truthy models then models else [""].

(** The filter criteria that [get_nodes] builds from the options. *)
Definition filters_of (opts : Options) : dict (list string) :=
  [ ("apps", _parse_option_string (opt_apps opts));
    ("units", _parse_option_string (opt_units opts));
    ("machines", _parse_option_string (opt_machines opts)) ].

(** ** The normaliser as a scan

    What the substitution does to the output, written as the automaton
    that the pattern describes: at the start of a line the characters
    before the next "{" are dropped, line ends included; from that "{" on
    the characters are kept, up to and including the end of the line. *)

Inductive scan_state : Type := Dropping | Keeping.

Fixpoint scan (st : scan_state) (s : string) : string :=
  match s with
  | "" => ""
  | String c s' =>
      match st with
      | Dropping =>
          if bool_decide (c = "{"%char) then String c (scan Keeping s')
          else scan Dropping s'
      | Keeping =>
          String c (scan (if bool_decide (c = Re.newline) then Dropping else Keeping) s')
      end
  end.

(** The longest prefix of characters that satisfy [p], and what follows it. *)
Fixpoint take_while (p : ascii → bool) (s : string) : string :=
  match s with
  | String c s' => if p c then String c (take_while p s') else ""
  | "" => ""
  end.

Fixpoint drop_while (p : ascii → bool) (s : string) : string :=
  match s with
  | String c s' => if p c then drop_while p s' else s
  | "" => ""
  end.

Definition not_brace (c : ascii) : bool := Re.in_class true [Re.CChar "{"] c.

Definition not_newline (c : ascii) : bool := negb (bool_decide (c = Re.newline)).

(** No character of [s] is [c]. *)
Fixpoint free_of (c : ascii) (s : string) : bool :=
  match s with
  | "" => true
  | String c' s' => negb (bool_decide (c' = c)) && free_of c s'
  end.

(** Every application of the document has an [apps] entry. *)
Definition apps_recorded (juju_status : StatusDocument) (index : Index) : Prop :=
  ∀ app app_info, (app, app_info) ∈ applications juju_status →
                  is_Some (idx_get "apps" index !! app).

(** A text in which every line starts with "{", read from the state [st]
    of the scan: the texts that the normaliser leaves as they are. *)
Fixpoint clean_from (st : scan_state) (s : string) : bool :=
  match s with
  | "" => true
  | String c s' =>
      match st with
      | Dropping => bool_decide (c = "{"%char) && clean_from Keeping s'
      | Keeping =>
          clean_from (if bool_decide (c = Re.newline) then Dropping else Keeping) s'
      end
  end.

Definition clean (s : string) : bool := clean_from Dropping s.

(** Only lookup errors can leave the computation [m]. *)
Definition raises_key_error {A} (m : result A) : Prop :=
  ∀ e, m = Raise e → ∃ k, e = KeyError k.

(** ** What an index may hold *)

(** The nodes of the units of one application, in order. *)
Definition unit_nodes (g : string) (us : dict UnitInfo) : list string :=
  omap (λ u : string * UnitInfo, node_of g <$> machine u.2) us.

(** The machines that the units of the document are on. *)
Definition unit_machines (juju_status : StatusDocument) : list string :=
  omap (λ u : string * UnitInfo, machine u.2) (all_units juju_status).

(** The machines that an index of the document can name. *)
Definition indexed_machines (juju_status : StatusDocument) : list string :=
  unit_machines juju_status ++ dict_keys (machines juju_status).

(** The units of an application named [parent], none when the name is
    not an application or has no [units] key. *)
Definition units_of (juju_status : StatusDocument) (parent : string) : dict UnitInfo :=
  default [] (dict_get parent (applications juju_status) ≫= units).

(** The subordinate units that the subordinate pass records, each with
    the unit that hosts it: the keys of the [subordinates] of the units
    of a parent of [app] that start with the name of [app] and a slash. *)
Definition hosted_units (juju_status : StatusDocument) : dict UnitInfo :=
  a ← applications juju_status;
  parent ← default [] (subordinate_to a.2);
  u ← units_of juju_status parent;
  sk ← List.filter (λ sk, Py.startswith sk (a.1 +:+ "/")) (sub_keys u.2);
  [(sk, u.2)].

(** An entry that the indexer may write under a category. *)
Definition entry_ok (juju_status : StatusDocument) (g key name : string)
    (nodes : list string) : Prop :=
  if decide (key = "apps") then
    name ∈ dict_keys (applications juju_status) ∧
    ∀ n, n ∈ nodes → ∃ m, n = node_of g m ∧ m ∈ unit_machines juju_status
  else if decide (key = "units") then
    ∃ unit_info m,
      (name, unit_info) ∈ all_units juju_status ++ hosted_units juju_status ∧
      machine unit_info = Some m ∧ nodes = [node_of g m]
  else if decide (key = "machines") then
    name ∈ indexed_machines juju_status ∧ nodes = [node_of g name]
  else False.

(** Every entry of the index is one the indexer may write. *)
Definition sound_index (juju_status : StatusDocument) (g : string) (index : Index) : Prop :=
  ∀ key name nodes,
    idx_get key index !! name = Some nodes → entry_ok juju_status g key name nodes.

(** The second index has every entry key of the first. *)
Definition grows (index index' : Index) : Prop :=
  ∀ key name, is_Some (idx_get key index !! name) → is_Some (idx_get key index' !! name).

(** The nodes gathered for an application, with a sound index. *)
Definition sound_acc (juju_status : StatusDocument) (g : string)
    (acc : Index * list string) : Prop :=
  sound_index juju_status g acc.1 ∧
  ∀ n, n ∈ acc.2 → ∃ m, n = node_of g m ∧ m ∈ unit_machines juju_status.

(** The nodes of the units of the applications [parents], in order. *)
Definition parents_nodes (juju_status : StatusDocument) (g : string)
    (parents : list string) : list string :=
  parent ← parents; unit_nodes g (units_of juju_status parent).

(** Every name of [parents] is an application that is not itself a
    subordinate: it has no [subordinate-to] key. *)
Definition principal_parents (juju_status : StatusDocument)
    (parents : list string) : bool :=
  forallb (λ parent,
             match dict_get parent (applications juju_status) with
             | Some parent_info => bool_decide (subordinate_to parent_info = None)
             | None => false
             end) parents.

(** ** What the filters select *)

(** The node [n] is selected in the index of one model: a term of [apps],
    read as a pattern, matches the name of an [apps] entry that holds
    [n], or a term of [units] or [machines] is the name of an entry of
    that category that holds [n]. *)
Definition selects (re_match : string → string → result bool) (opts : Options)
    (index : Index) (n : string) : Prop :=
  (∃ pattern param value,
     pattern ∈ _parse_option_string (opt_apps opts) ∧
     idx_get "apps" index !! param = Some value ∧
     re_match pattern param = Ok true ∧ n ∈ value) ∨
  (∃ name value,
     name ∈ _parse_option_string (opt_units opts) ∧
     idx_get "units" index !! name = Some value ∧ n ∈ value) ∨
  (∃ name value,
     name ∈ _parse_option_string (opt_machines opts) ∧
     idx_get "machines" index !! name = Some value ∧ n ∈ value).

(** ** Counting and joining, for the option parser *)

(** The number of occurrences of [c] in [s]: [s.count(c)]. *)
Fixpoint count_char (c : ascii) (s : string) : nat :=
  match s with
  | "" => 0%nat
  | String c' s' => ((if bool_decide (c' = c) then 1 else 0) + count_char c s')%nat
  end.

(** [sep.join(l)] *)
Definition join (sep : string) (l : list string) : string := String.concat sep l.

(** The categories of an index are among [apps], [units] and [machines]. *)
Definition categories_ok (index : Index) : Prop :=
  ∀ key, is_Some (index !! key) → key ∈ ["apps"; "units"; "machines"].

(** * Properties *)

(** ** The option parser *)

Section ParseOption.

Lemma lstrip_starts s : Py.starts_with_space (Py.lstrip s) = false.
Proof.
  induction s as [|c s IH]; simpl; [done|].
  destruct (Py.is_space c) eqn:Hc; [done|]. simpl. by rewrite Hc.
Qed.

Lemma rstrip_ends s : Py.ends_with_space (Py.rstrip s) = false.
Proof.
  induction s as [|c s IH]; simpl; [done|].
  destruct (Py.rstrip s) as [|c' r] eqn:Hr.
  - destruct (Py.is_space c) eqn:Hc; simpl; [done|]. by rewrite Hc.
  - simpl in *. done.
Qed.

Lemma rstrip_starts s :
  Py.starts_with_space s = false → Py.starts_with_space (Py.rstrip s) = false.
Proof.
  destruct s as [|c s]; simpl; [done|]. intros Hc.
  destruct (Py.rstrip s); [by rewrite Hc|done].
Qed.

Lemma strip_trimmed s : Py.trimmed (Py.strip s).
Proof.
  split; [apply rstrip_starts, lstrip_starts | apply rstrip_ends].
Qed.

End ParseOption.

(** C7 (as amended).  An absent or empty option string yields the empty
    list; a non-empty one is split at every comma and every piece is
    stripped, so no element of the result has leading or trailing
    whitespace.  The pieces are not filtered: the result of a non-empty
    string is exactly the list of its stripped pieces, empty ones
    included. *)
Theorem parse_option_string_trimmed :
  _parse_option_string None = [] ∧
  _parse_option_string (Some "") = [] ∧
  (∀ strings, Forall Py.trimmed (_parse_option_string strings)) ∧
  (∀ c s, _parse_option_string (Some (String c s))
          = Py.strip <$> Py.split "," (String c s)).
Proof.
  split_and!; try done.
  intros [[|c s]|]; simpl; try by constructor.
  apply Forall_fmap, Forall_forall. intros x _. apply strip_trimmed.
Qed.

(** C7 (as stated) fails: the piece between two adjacent commas is kept
    as an empty element. *)
Lemma parse_option_string_keeps_empty :
  _parse_option_string (Some "a,,b") = ["a"; ""; "b"] ∧
  ¬ Forall (λ e, e ≠ "") (_parse_option_string (Some "a,,b")).
Proof.
  split; [reflexivity|].
  intros H. apply Forall_forall with (x := "") in H; [done|].
  vm_compute. set_solver.
Qed.

(** ** Loops that can raise *)

Section FoldM.
Context {A B : Type} (f : B → A → result B).

Lemma foldM_cons_ok b x l b' :
  foldM f b (x :: l) = Ok b' → ∃ b1, f b x = Ok b1 ∧ foldM f b1 l = Ok b'.
Proof. simpl. destruct (f b x); simpl; [eauto|done]. Qed.

(** A property that every step keeps holds at the end. *)
Lemma foldM_invariant (I : B → Prop) l b b' :
  (∀ a x a', x ∈ l → I a → f a x = Ok a' → I a') →
  I b → foldM f b l = Ok b' → I b'.
Proof.
  revert b. induction l as [|x l IH]; intros b Hstep Hb H.
  - by simplify_eq/=.
  - apply foldM_cons_ok in H as (b1 & H1 & H).
    apply (IH b1); [|apply (Hstep b x b1); [apply list_elem_of_here|done..]|done].
    intros a y a' Hy. apply Hstep. by apply list_elem_of_further.
Qed.

(** A property that one step establishes, under an invariant, and that
    every step keeps, holds at the end. *)
Lemma foldM_establish (I Q : B → Prop) x l b b' :
  x ∈ l →
  (∀ a y a', y ∈ l → I a → f a y = Ok a' → I a') →
  (∀ a y a', y ∈ l → I a → Q a → f a y = Ok a' → Q a') →
  (∀ a a', I a → f a x = Ok a' → Q a') →
  I b → foldM f b l = Ok b' → Q b'.
Proof.
  intros Hx HI HQ Hest. revert b.
  induction l as [|y l IH]; intros b Hb H.
  { by apply elem_of_nil in Hx. }
  apply foldM_cons_ok in H as (b1 & H1 & H).
  assert (I b1) as Hb1.
  { apply (HI b y b1); [apply list_elem_of_here|done..]. }
  assert (∀ a z a', z ∈ l → I a → f a z = Ok a' → I a') as HI'.
  { intros a z a' Hz. apply HI. by apply list_elem_of_further. }
  assert (∀ a z a', z ∈ l → I a → Q a → f a z = Ok a' → Q a') as HQ'.
  { intros a z a' Hz. apply HQ. by apply list_elem_of_further. }
  apply elem_of_cons in Hx as [->|Hx].
  - assert (Q b1) as HQ1 by (by apply (Hest b b1)).
    apply (foldM_invariant (λ a, I a ∧ Q a) l b1 b'); [|done|done].
    intros a z a' Hz [Ha Hq] Hf. split.
    + by apply (HI' a z a').
    + by apply (HQ' a z a').
  - by apply (IH Hx HI' HQ' b1).
Qed.

(** Every step of a loop that returns has returned. *)
Lemma foldM_ok_step (P : A → Prop) l b b' :
  (∀ a x a', x ∈ l → f a x = Ok a' → P x) →
  foldM f b l = Ok b' → Forall P l.
Proof.
  revert b. induction l as [|x l IH]; intros b Hstep H; [constructor|].
  apply foldM_cons_ok in H as (b1 & H1 & H). constructor.
  - eapply Hstep; [apply list_elem_of_here|exact H1].
  - eapply IH; [|exact H]. intros a y a' Hy Hf.
    eapply Hstep; [apply list_elem_of_further, Hy|exact Hf].
Qed.

(** The exception of a loop is the exception of one of its steps. *)
Lemma foldM_raise l b e :
  foldM f b l = Raise e → ∃ a x, x ∈ l ∧ f a x = Raise e.
Proof.
  revert b. induction l as [|x l IH]; intros b H; [done|]. simpl in H.
  destruct (f b x) as [b1|e1] eqn:Hf; simpl in H.
  - destruct (IH _ H) as (a & y & ? & ?). exists a, y. eauto using list_elem_of_further.
  - simplify_eq. exists b, x. eauto using list_elem_of_here.
Qed.

(** A loop whose steps all return returns. *)
Lemma foldM_total l b :
  (∀ a x, x ∈ l → is_ok (f a x) = true) → is_ok (foldM f b l) = true.
Proof.
  revert b. induction l as [|x l IH]; intros b H; [done|]. simpl.
  pose proof (H b x (list_elem_of_here _ _)) as Hx.
  destruct (f b x); [|done]. simpl. apply IH.
  intros ???. apply H. by apply list_elem_of_further.
Qed.

End FoldM.

(** A loop whose steps return under an invariant returns. *)
Lemma foldM_returns {A B} (f : B → A → result B) (I : B → Prop) l b :
  I b →
  (∀ a x, x ∈ l → I a → ∃ a', f a x = Ok a' ∧ I a') →
  ∃ b', foldM f b l = Ok b' ∧ I b'.
Proof.
  revert b. induction l as [|x l IH]; intros b Hb Hstep; [by exists b|].
  destruct (Hstep b x (list_elem_of_here _ _) Hb) as (b1 & Hf & Hb1).
  simpl. rewrite Hf. simpl. apply IH; [done|].
  intros a y Hy. apply Hstep. by apply list_elem_of_further.
Qed.

(** A loop does not return once one of its steps cannot. *)
Lemma foldM_raises_at {A B} (f : B → A → result B) x l b :
  x ∈ l → (∀ a, is_ok (f a x) = false) → is_ok (foldM f b l) = false.
Proof.
  intros Hx Hf. revert b. induction l as [|y l IH]; intros b.
  { by apply elem_of_nil in Hx. }
  simpl. apply elem_of_cons in Hx as [->|Hx].
  - specialize (Hf b). by destruct (f b y).
  - destruct (f b y); [by apply IH|done].
Qed.

(** ** The index as a store *)

Lemma idx_get_set key name nodes (index : Index) :
  idx_get key (idx_set key name nodes index) = <[name := nodes]> (idx_get key index).
Proof. unfold idx_set, idx_get at 1. by rewrite lookup_insert_eq. Qed.

Lemma idx_get_set_ne key key' name nodes (index : Index) :
  key ≠ key' → idx_get key' (idx_set key name nodes index) = idx_get key' index.
Proof. intros. unfold idx_set, idx_get at 1 3. by rewrite lookup_insert_ne. Qed.

Lemma item_ok {A} key (v : option A) a : item key v = Ok a ↔ v = Some a.
Proof. destruct v; simpl; split; congruence. Qed.

Lemma item_raise {A} key (v : option A) e : item key v = Raise e → e = KeyError key.
Proof. destruct v; simpl; congruence. Qed.

(** Inversion of a bind that returned, and of one that raised. *)
Lemma bind_ok {A B} (m : result A) (f : A → result B) b :
  m ≫= f = Ok b → ∃ a, m = Ok a ∧ f a = Ok b.
Proof. destruct m; simpl; [eauto|done]. Qed.

Lemma bind_raise {A B} (m : result A) (f : A → result B) e :
  m ≫= f = Raise e → m = Raise e ∨ ∃ a, m = Ok a ∧ f a = Raise e.
Proof. destruct m; simpl; [eauto|]. intros [= ->]. by left. Qed.

(** ** The three passes *)

Lemma index_status_inv juju_status model_name index :
  index_status juju_status model_name = Ok index →
  ∃ i1 i2,
    _add_principals_to_index ∅ juju_status model_name = Ok i1 ∧
    _add_subordinates_to_index i1 juju_status model_name = Ok i2 ∧
    index = _add_machines_to_index i2 juju_status model_name.
Proof.
  unfold index_status. intros H.
  apply bind_ok in H as (i1 & H1 & H).
  apply bind_ok in H as (i2 & H2 & H). simplify_eq. eauto.
Qed.

Lemma index_status_no_applications juju_status g :
  applications juju_status = [] →
  index_status juju_status g = Ok (_add_machines_to_index ∅ juju_status g).
Proof.
  intros Hnone. unfold index_status, _add_principals_to_index, _add_subordinates_to_index.
  by rewrite Hnone.
Qed.

(** ** The machine pass *)

Lemma add_machines_other key index juju_status model_name :
  key ≠ "machines" →
  idx_get key (_add_machines_to_index index juju_status model_name) = idx_get key index.
Proof.
  intros Hkey. unfold _add_machines_to_index.
  induction (dict_keys (machines juju_status)) as [|m l IH] using rev_ind; [done|].
  rewrite foldl_app. simpl. rewrite idx_get_set_ne; [apply IH|done].
Qed.

Lemma add_machines_lookup index juju_status model_name m :
  m ∈ dict_keys (machines juju_status) →
  idx_get "machines" (_add_machines_to_index index juju_status model_name) !! m
  = Some [node_of model_name m].
Proof.
  unfold _add_machines_to_index.
  induction (dict_keys (machines juju_status)) as [|m' l IH] using rev_ind.
  { by intros ?%elem_of_nil. }
  intros Hm. rewrite foldl_app. simpl. rewrite idx_get_set.
  destruct (decide (m' = m)) as [->|Hne].
  - by rewrite lookup_insert_eq.
  - rewrite lookup_insert_ne by done. apply IH.
    apply elem_of_app in Hm as [Hm|Hm%list_elem_of_singleton]; [done|congruence].
Qed.

(** ** The filters *)

Lemma or_else_nil {A} (l : list A) : Py.or_else l [] = l.
Proof. by destruct l. Qed.

Section Filters.
Context {E : Type} (s : E → gset string).

Lemma foldl_select (c : E → bool) step (acc : gset string) (l : list E) n :
  (∀ nodes e, step nodes e = if c e then nodes ∪ s e else nodes) →
  n ∈ foldl step acc l ↔ n ∈ acc ∨ ∃ e, e ∈ l ∧ c e = true ∧ n ∈ s e.
Proof.
  intros Hstep. revert acc. induction l as [|e l IH]; intros acc; simpl.
  - split; [by left|]. intros [?|(e & []%elem_of_nil & _)]. done.
  - rewrite IH, Hstep. split.
    + intros [Hn|(e' & ? & ? & ?)].
      * destruct (c e) eqn:Hc; [|by left].
        apply elem_of_union in Hn as [?|?]; [by left|].
        right. exists e. split_and!; [apply list_elem_of_here|done..].
      * right. exists e'. split_and!; [by apply list_elem_of_further|done..].
    + intros [Hn|(e' & [->|?]%elem_of_cons & Hc & ?)].
      * left. destruct (c e); [apply elem_of_union; by left|done].
      * left. rewrite Hc. apply elem_of_union; by right.
      * right. by exists e'.
Qed.

Lemma foldM_select (c : E → result bool) step (acc ns : gset string) (l : list E) n :
  (∀ nodes e, step nodes e
              = matched ← c e; Ok (if matched : bool then nodes ∪ s e else nodes)) →
  foldM step acc l = Ok ns →
  n ∈ ns ↔ n ∈ acc ∨ ∃ e, e ∈ l ∧ c e = Ok true ∧ n ∈ s e.
Proof.
  intros Hstep. revert acc. induction l as [|e l IH]; intros acc H.
  - simpl in H. simplify_eq. split; [by left|].
    intros [?|(e & []%elem_of_nil & _)]. done.
  - apply foldM_cons_ok in H as (acc1 & H1 & H). rewrite Hstep in H1.
    apply bind_ok in H1 as (matched & Hc & H1). simplify_eq.
    rewrite (IH _ H). split.
    + intros [Hn|(e' & ? & ? & ?)].
      * destruct matched; [|by left].
        apply elem_of_union in Hn as [?|?]; [by left|].
        right. exists e. split_and!; [apply list_elem_of_here|done..].
      * right. exists e'. split_and!; [by apply list_elem_of_further|done..].
    + intros [Hn|(e' & [->|?]%elem_of_cons & Hc' & ?)].
      * left. destruct matched; [apply elem_of_union; by left|done].
      * left. rewrite Hc in Hc'. simplify_eq. apply elem_of_union; by right.
      * right. by exists e'.
Qed.
End Filters.

(** The nodes that the exact filter selects. *)
Lemma filter_by_fixed_spec key patterns (model_info : Index) n :
  n ∈ _filter_by_fixed key patterns model_info
  ↔ ∃ pattern value, pattern ∈ patterns ∧
      idx_get key model_info !! pattern = Some value ∧ n ∈ value.
Proof.
  unfold _filter_by_fixed.
  set (entries := map_to_list (idx_get key model_info)).
  assert (∀ acc,
    n ∈ foldl (λ nodes pattern,
         foldl (λ (nodes : gset string) (e : string * list string),
           let '(param, value) := e in
           if bool_decide (pattern = param)
           then nodes ∪ list_to_set (Py.or_else value []) else nodes) nodes entries)
         acc patterns
    ↔ n ∈ acc ∨ ∃ pattern value, pattern ∈ patterns ∧
        idx_get key model_info !! pattern = Some value ∧ n ∈ value) as Hgen.
  { induction patterns as [|p ps IH]; intros acc; simpl.
    - split; [by left|]. intros [?|(p & v & []%elem_of_nil & _)]. done.
    - rewrite IH.
      rewrite (foldl_select (λ e : string * list string, list_to_set (Py.or_else e.2 []))
                 (λ e : string * list string, bool_decide (p = e.1)))
        by (by intros ? [??]).
      split.
      + intros [[?|((param & value) & He & Hc & Hn)]|(p' & v & ? & ? & ?)].
        * by left.
        * right. simpl in *. apply bool_decide_eq_true in Hc as <-.
          exists p, value. rewrite or_else_nil in Hn.
          split_and!; [apply list_elem_of_here| |by apply elem_of_list_to_set in Hn].
          by apply elem_of_map_to_list in He.
        * right. exists p', v. split_and!; [by apply list_elem_of_further|done..].
      + intros [?|(p' & v & [->|?]%elem_of_cons & Hv & ?)].
        * left. by left.
        * left. right. exists (p, v). simpl. rewrite or_else_nil.
          split_and!; [by apply elem_of_map_to_list|by apply bool_decide_eq_true|].
          by apply elem_of_list_to_set.
        * right. by exists p', v. }
  rewrite Hgen. split; [|by right]. intros [[]%not_elem_of_empty|?]. done.
Qed.

Section FilterByPattern.
Variable re_match : string → string → result bool.

(** The nodes that the pattern filter selects, when it returns. *)
Lemma filter_by_pattern_spec key patterns (model_info : Index) ns n :
  _filter_by_pattern re_match key patterns model_info = Ok ns →
  n ∈ ns
  ↔ ∃ pattern param value, pattern ∈ patterns ∧
      idx_get key model_info !! param = Some value ∧
      re_match pattern param = Ok true ∧ n ∈ value.
Proof.
  unfold _filter_by_pattern.
  set (entries := map_to_list (idx_get key model_info)).
  assert (∀ acc,
    foldM (λ nodes pattern,
       foldM (λ (nodes : gset string) (e : string * list string),
         let '(param, value) := e in
         matched ← re_match pattern param;
         Ok (if matched : bool then nodes ∪ list_to_set (Py.or_else value [])
             else nodes)) nodes entries) acc patterns = Ok ns →
    n ∈ ns ↔ n ∈ acc ∨ ∃ pattern param value, pattern ∈ patterns ∧
        idx_get key model_info !! param = Some value ∧
        re_match pattern param = Ok true ∧ n ∈ value) as Hgen.
  { induction patterns as [|p ps IH]; intros acc H.
    - simpl in H. simplify_eq. split; [by left|].
      intros [?|(p & ? & ? & []%elem_of_nil & _)]. done.
    - apply foldM_cons_ok in H as (acc1 & H1 & H). rewrite (IH _ H).
      assert (n ∈ acc1 ↔ n ∈ acc ∨ ∃ e : string * list string, e ∈ entries ∧
                re_match p e.1 = Ok true ∧
                n ∈ (list_to_set (Py.or_else e.2 []) : gset string)) as ->.
      { apply (foldM_select (λ e : string * list string, list_to_set (Py.or_else e.2 []))
                 (λ e : string * list string, re_match p e.1)) with (2 := H1).
        by intros ? [??]. }
      split.
      + intros [[?|((param & value) & He & Hc & Hn)]|(p' & param & v & ? & ? & ? & ?)].
        * by left.
        * right. simpl in *. exists p, param, value. rewrite or_else_nil in Hn.
          split_and!; [apply list_elem_of_here| |done|by apply elem_of_list_to_set in Hn].
          by apply elem_of_map_to_list in He.
        * right. exists p', param, v. split_and!; [by apply list_elem_of_further|done..].
      + intros [?|(p' & param & v & [->|?]%elem_of_cons & Hv & Hc & ?)].
        * left. by left.
        * left. right. exists (param, v). simpl. rewrite or_else_nil.
          split_and!; [by apply elem_of_map_to_list|done|].
          by apply elem_of_list_to_set.
        * right. by exists p', param, v. }
  intros H. rewrite (Hgen _ H). split; [|by right].
  intros [[]%not_elem_of_empty|?]. done.
Qed.
End FilterByPattern.

Lemma filter_by_fixed_singleton key name nodes (model_info : Index) :
  idx_get key model_info !! name = Some nodes →
  _filter_by_fixed key [name] model_info = list_to_set nodes.
Proof.
  intros Hname. apply set_eq. intros n. rewrite filter_by_fixed_spec. split.
  - intros (p & v & ->%list_elem_of_singleton & Hv & Hn).
    rewrite Hname in Hv. simplify_eq. by apply elem_of_list_to_set.
  - intros Hn%elem_of_list_to_set. exists name, nodes.
    split_and!; [apply list_elem_of_here|done..].
Qed.

Section MachinePass.
Variable re_match : string → string → result bool.
Variable exec_primary_cmd : string → CmdResult.
Variable json_loads : string → result StatusDocument.

Lemma get_nodes_unfold opts :
  get_nodes re_match exec_primary_cmd json_loads opts
  = nodes ← foldM (get_nodes_model re_match exec_primary_cmd json_loads (filters_of opts))
              ∅ (requested_models opts);
    Ok (elements nodes).
Proof. done. Qed.

Lemma get_nodes_machine_only opts g m juju_status index :
  requested_models opts = [g] →
  _parse_option_string (opt_apps opts) = [] →
  _parse_option_string (opt_units opts) = [] →
  _parse_option_string (opt_machines opts) = [m] →
  _execute_juju_status exec_primary_cmd json_loads g = Ok juju_status →
  index_status juju_status g = Ok index →
  get_nodes re_match exec_primary_cmd json_loads opts
  = Ok (elements (_filter_by_fixed "machines" [m] index)).
Proof.
  intros Hmodels Happs Hunits Hmachines Hexec Hindex.
  rewrite get_nodes_unfold, Hmodels. unfold filters_of.
  rewrite Happs, Hunits, Hmachines. simpl.
  unfold get_nodes_model, _get_model_info. rewrite Hexec. simpl.
  rewrite Hindex. simpl.
  replace (_filter_by_fixed "units" [] index) with (∅ : gset string) by done.
  by rewrite !(left_id_L ∅ (∪)).
Qed.

End MachinePass.

(** C9.  After the three passes every machine [m] of the [machines]
    section is a key of the [machines] category, mapped to the one node
    [g:m], whatever the applications are; consequently, when [g] is the
    one requested grouping, the filter that names only the machine [m]
    yields exactly that node. *)
Theorem machines_section_is_indexed
    (re_match : string → string → result bool)
    (exec_primary_cmd : string → CmdResult)
    (json_loads : string → result StatusDocument)
    (opts : Options) (juju_status : StatusDocument) (g m : string) (index : Index) :
  index_status juju_status g = Ok index →
  m ∈ dict_keys (machines juju_status) →
  idx_get "machines" index !! m = Some [node_of g m] ∧
  (requested_models opts = [g] →
   _parse_option_string (opt_apps opts) = [] →
   _parse_option_string (opt_units opts) = [] →
   _parse_option_string (opt_machines opts) = [m] →
   _execute_juju_status exec_primary_cmd json_loads g = Ok juju_status →
   get_nodes re_match exec_primary_cmd json_loads opts = Ok [node_of g m]).
Proof.
  intros Hindex Hm.
  assert (idx_get "machines" index !! m = Some [node_of g m]) as Hlookup.
  { apply index_status_inv in Hindex as (i1 & i2 & _ & _ & ->).
    by apply add_machines_lookup. }
  split; [done|]. intros Hmodels Happs Hunits Hmachines Hexec.
  rewrite (get_nodes_machine_only _ _ _ opts g m juju_status index) by done.
  rewrite (filter_by_fixed_singleton _ _ _ _ Hlookup). simpl.
  by rewrite (right_id_L ∅ (∪)), elements_singleton.
Qed.

Lemma machines_section_is_indexed_witness :
  ∃ index, index_status Examples.doc_5 "g" = Ok index ∧
           idx_get "machines" index !! "5" = Some ["g:5"] ∧
           Examples.run Examples.doc_5
             {| opt_apps := None; opt_units := None;
                opt_models := Some "g"; opt_machines := Some "5" |}
           = Ok ["g:5"].
Proof.
  eexists. split; [reflexivity|].
  split.
  - refine (proj1 (machines_section_is_indexed (re_match Examples.rejects)
                     (λ _, {| status := 0; output := "{}" |})
                     (λ _, Ok Examples.doc_5)
                     {| opt_apps := None; opt_units := None;
                        opt_models := Some "g"; opt_machines := Some "5" |}
                     Examples.doc_5 "g" "5" _ _ _)).
    all: first [reflexivity | apply list_elem_of_here].
  - refine (proj2 (machines_section_is_indexed (re_match Examples.rejects)
                     (λ _, {| status := 0; output := "{}" |})
                     (λ _, Ok Examples.doc_5)
                     {| opt_apps := None; opt_units := None;
                        opt_models := Some "g"; opt_machines := Some "5" |}
                     Examples.doc_5 "g" "5" _ _ _) _ _ _ _ _).
    all: first [reflexivity | apply list_elem_of_here].
Defined.

(** The scenarios of the machine-only document and of the subordinate
    [B] of [A], run end to end. *)
Lemma machine_only_document
    (re_match : string → string → result bool)
    (exec_primary_cmd : string → CmdResult)
    (json_loads : string → result StatusDocument)
    (opts : Options) (g : string) (info : json) :
  requested_models opts = [g] →
  _parse_option_string (opt_apps opts) = [] →
  _parse_option_string (opt_units opts) = [] →
  _parse_option_string (opt_machines opts) = ["5"] →
  _execute_juju_status exec_primary_cmd json_loads g
  = Ok {| applications := []; machines := [("5", info)] |} →
  get_nodes re_match exec_primary_cmd json_loads opts = Ok [node_of g "5"].
Proof.
  intros Hmodels Happs Hunits Hmachines Hexec.
  rewrite (get_nodes_machine_only _ _ _ opts g "5" _ _ Hmodels Happs Hunits Hmachines
             Hexec
             (index_status_no_applications
                {| applications := []; machines := [("5", info)] |} g eq_refl)).
  rewrite (filter_by_fixed_singleton _ "5" [node_of g "5"]).
  - simpl. by rewrite (right_id_L ∅ (∪)), elements_singleton.
  - apply add_machines_lookup. apply list_elem_of_here.
Qed.

Example scenario_apps_B :
  Examples.run Examples.doc_ab
    {| opt_apps := Some "B"; opt_units := None; opt_models := Some "model1";
       opt_machines := None |} = Ok ["model1:1"].
Proof. by vm_compute. Qed.

Example scenario_machines_1 :
  Examples.run Examples.doc_ab
    {| opt_apps := None; opt_units := None; opt_models := Some "model1";
       opt_machines := Some "1" |} = Ok ["model1:1"].
Proof. by vm_compute. Qed.

(** ** Documents as mappings *)

Lemma dict_get_elem_of {A} k (d : dict A) v : dict_get k d = Some v → (k, v) ∈ d.
Proof.
  induction d as [|[k' v'] d IH]; simpl; [done|].
  case_decide; [intros [= ->]; subst; apply list_elem_of_here|].
  intros. by apply list_elem_of_further, IH.
Qed.

Lemma dict_wf_unique {A} (d : dict A) k v v' :
  dict_wf d → (k, v) ∈ d → (k, v') ∈ d → v = v'.
Proof.
  unfold dict_wf, dict_keys. induction d as [|[k0 v0] d IH]; simpl.
  { by intros _ ?%elem_of_nil. }
  intros [Hk0 Hd]%NoDup_cons [?|H1]%elem_of_cons [?|H2]%elem_of_cons; simplify_eq.
  - done.
  - destruct Hk0. by apply (list_elem_of_fmap_2 fst _ (k0, v')).
  - destruct Hk0. by apply (list_elem_of_fmap_2 fst _ (k0, v)).
  - by apply IH.
Qed.

Lemma elem_of_all_units juju_status u unit_info :
  (u, unit_info) ∈ all_units juju_status
  ↔ ∃ app app_info us, (app, app_info) ∈ applications juju_status ∧
      units app_info = Some us ∧ (u, unit_info) ∈ us.
Proof.
  unfold all_units. rewrite list_elem_of_bind. split.
  - intros ([app app_info] & Hu & Ha). simpl in Hu.
    destruct (units app_info) as [us|] eqn:Hus; simpl in Hu; [|by apply elem_of_nil in Hu].
    by exists app, app_info, us.
  - intros (app & app_info & us & Ha & Hus & Hu). exists (app, app_info).
    simpl. by rewrite Hus.
Qed.

Lemma placed_on_spec juju_status m x u unit_info :
  placed_on juju_status m x = true →
  (u, unit_info) ∈ all_units juju_status →
  u = x ∨ x ∈ sub_keys unit_info →
  machine unit_info = Some m.
Proof.
  unfold placed_on. rewrite forallb_forall. intros H Hu%list_elem_of_In Hocc.
  specialize (H _ Hu). simpl in H. unfold occurs_in in H. simpl in H.
  apply orb_true_iff in H as [H|H]; [|by apply bool_decide_eq_true in H].
  apply negb_true_iff, orb_false_iff in H as [H1%bool_decide_eq_false H2%bool_decide_eq_false].
  by destruct Hocc.
Qed.

Lemma dict_wf_get {A} (d : dict A) k v : dict_wf d → (k, v) ∈ d → dict_get k d = Some v.
Proof.
  intros Hwf Hin. destruct (dict_get k d) as [v'|] eqn:Hget.
  - f_equal. apply dict_get_elem_of in Hget. by apply (dict_wf_unique d k).
  - exfalso. clear Hwf. induction d as [|[k' w] d IH]; [by apply elem_of_nil in Hin|].
    simpl in Hget. case_decide; [done|].
    apply elem_of_cons in Hin as [?|?]; [congruence|by apply IH].
Qed.

(** ** What the principal pass writes *)

Lemma add_principal_unit_inv g index nodes u unit_info index' nodes' :
  add_principal_unit g (index, nodes) (u, unit_info) = Ok (index', nodes') →
  ∃ m, machine unit_info = Some m ∧
       nodes' = nodes ++ [node_of g m] ∧
       index' = idx_set "machines" m [node_of g m] (idx_set "units" u [node_of g m] index).
Proof.
  unfold add_principal_unit. intros H.
  apply bind_ok in H as (m & ->%item_ok & H). simplify_eq. eauto.
Qed.

Lemma principal_units_apps g us acc acc' :
  foldM (add_principal_unit g) acc us = Ok acc' →
  idx_get "apps" acc'.1 = idx_get "apps" acc.1.
Proof.
  apply (foldM_invariant _ (λ a, idx_get "apps" a.1 = idx_get "apps" acc.1)); [|done].
  intros [i ns] [u ui] [i' ns'] _ Hi (m & _ & _ & ->)%add_principal_unit_inv. simpl in *.
  by rewrite !idx_get_set_ne.
Qed.

Lemma principal_units_nodes g us acc acc' u unit_info m :
  (u, unit_info) ∈ us → machine unit_info = Some m →
  foldM (add_principal_unit g) acc us = Ok acc' →
  node_of g m ∈ acc'.2.
Proof.
  intros Hu Hm.
  apply (foldM_establish _ (λ _, True) (λ a, node_of g m ∈ a.2) (u, unit_info)); try done.
  - intros [i ns] [u' ui'] [i' ns'] _ _ Hn (m' & _ & -> & _)%add_principal_unit_inv.
    simpl in *. apply elem_of_app. by left.
  - intros [i ns] [i' ns'] _ (m' & Hm' & -> & _)%add_principal_unit_inv.
    simpl. rewrite Hm in Hm'. simplify_eq. apply elem_of_app. right. apply list_elem_of_here.
Qed.

Lemma add_principal_app_inv g index app app_info index' :
  add_principal_app g index (app, app_info) = Ok index' →
  ∃ index1 nodes,
    foldM (add_principal_unit g) (index, []) (default [] (units app_info))
    = Ok (index1, nodes) ∧
    index' = idx_set "apps" app nodes index1.
Proof.
  unfold add_principal_app. intros H.
  apply bind_ok in H as ([index1 nodes] & H1 & H). simplify_eq. eauto.
Qed.

Lemma add_principal_app_apps g index app app_info index' :
  add_principal_app g index (app, app_info) = Ok index' →
  ∃ nodes,
    idx_get "apps" index' = <[app := nodes]> (idx_get "apps" index) ∧
    (units app_info = None → nodes = []) ∧
    (∀ us u unit_info m, units app_info = Some us → (u, unit_info) ∈ us →
       machine unit_info = Some m → node_of g m ∈ nodes).
Proof.
  intros (index1 & nodes & H1 & ->)%add_principal_app_inv. exists nodes. split_and!.
  - rewrite idx_get_set. f_equal. by apply principal_units_apps in H1.
  - intros Hnone. rewrite Hnone in H1. simpl in H1. by simplify_eq.
  - intros us u ui m Hus Hu Hm. rewrite Hus in H1. simpl in H1.
    by apply (principal_units_nodes _ _ _ _ _ _ _ Hu Hm) in H1.
Qed.

Lemma add_principal_unit_unit_at juju_status g m k index nodes u unit_info index' nodes' :
  placed_on juju_status m k = true →
  (u, unit_info) ∈ all_units juju_status →
  add_principal_unit g (index, nodes) (u, unit_info) = Ok (index', nodes') →
  (u = k ∨ unit_at g m k index) → unit_at g m k index'.
Proof.
  intros Hplaced Hu (m' & Hm' & _ & ->)%add_principal_unit_inv Hk.
  unfold unit_at in *. rewrite idx_get_set_ne by done. rewrite idx_get_set.
  destruct (decide (u = k)) as [->|Hne].
  - rewrite lookup_insert_eq.
    rewrite (placed_on_spec _ _ _ _ _ Hplaced Hu) in Hm' by (by left). by simplify_eq.
  - rewrite lookup_insert_ne by done. by destruct Hk.
Qed.

Lemma add_principal_app_unit_at juju_status g m k index app app_info index' :
  placed_on juju_status m k = true →
  (app, app_info) ∈ applications juju_status →
  add_principal_app g index (app, app_info) = Ok index' →
  ((∃ us unit_info, units app_info = Some us ∧ (k, unit_info) ∈ us)
   ∨ unit_at g m k index) →
  unit_at g m k index'.
Proof.
  intros Hplaced Happ (index1 & nodes & H1 & ->)%add_principal_app_inv Hk.
  unfold unit_at. rewrite idx_get_set_ne by done.
  assert (∀ u ui, (u, ui) ∈ default [] (units app_info) → (u, ui) ∈ all_units juju_status)
    as Hall.
  { intros u ui Hu. apply elem_of_all_units.
    destruct (units app_info) as [us|] eqn:Hus; [|by apply elem_of_nil in Hu].
    by exists app, app_info, us. }
  destruct Hk as [(us & ui & Hus & Hu)|Hk].
  - rewrite Hus in H1, Hall. simpl in *.
    apply (foldM_establish (add_principal_unit g) (λ _, True)
             (λ a, unit_at g m k a.1) (k, ui) us (index, []) (index1, nodes)); try done.
    + intros [i ns] [u' ui'] [i' ns'] Hu' _ Hq Hstep. simpl in *.
      apply (add_principal_unit_unit_at juju_status g m k i ns u' ui' i' ns'); auto.
    + intros [i ns] [i' ns'] _ Hstep. simpl.
      apply (add_principal_unit_unit_at juju_status g m k i ns k ui i' ns'); auto.
  - apply (foldM_invariant (add_principal_unit g) (λ a, unit_at g m k a.1)
             (default [] (units app_info)) (index, []) (index1, nodes)); [|done..].
    intros [i ns] [u' ui'] [i' ns'] Hu' Hq Hstep. simpl in *.
    apply (add_principal_unit_unit_at juju_status g m k i ns u' ui' i' ns'); auto.
Qed.

(** ** What the subordinate pass writes *)

Lemma add_subordinate_keys_other key app node index subs :
  key ≠ "units" →
  idx_get key (foldl (add_subordinate_key app node) index subs) = idx_get key index.
Proof.
  intros Hkey. induction subs as [|[sk sv] subs IH] using rev_ind; [done|].
  rewrite foldl_app. simpl. destruct (Py.startswith sk (app +:+ "/")); [|done].
  by rewrite idx_get_set_ne.
Qed.

Lemma add_subordinate_keys_units app node index (subs : dict json) k :
  idx_get "units" (foldl (add_subordinate_key app node) index subs) !! k
  = if bool_decide (k ∈ dict_keys subs) && Py.startswith k (app +:+ "/")
    then Some [node] else idx_get "units" index !! k.
Proof.
  unfold dict_keys. induction subs as [|[sk sv] subs IH] using rev_ind; [done|].
  rewrite foldl_app, fmap_app. simpl.
  destruct (decide (sk = k)) as [->|Hne].
  - rewrite (bool_decide_eq_true_2 (k ∈ _)) by (apply elem_of_app; right; apply list_elem_of_here).
    simpl. destruct (Py.startswith k (app +:+ "/")) eqn:Hpre.
    + by rewrite idx_get_set, lookup_insert_eq.
    + rewrite IH. by rewrite andb_false_r.
  - assert (bool_decide (k ∈ subs.*1 ++ [sk]) = bool_decide (k ∈ subs.*1)) as ->.
    { apply bool_decide_ext. rewrite elem_of_app, list_elem_of_singleton.
      split; [intros [?|?]; [done|congruence]|by left]. }
    destruct (Py.startswith sk (app +:+ "/")); [|done].
    by rewrite idx_get_set, lookup_insert_ne.
Qed.

Lemma add_subordinate_unit_inv g app index u unit_info index' :
  add_subordinate_unit g app index (u, unit_info) = Ok index' →
  ∃ m, machine unit_info = Some m ∧
       index' = foldl (add_subordinate_key app (node_of g m)) index
                  (default [] (subordinates unit_info)).
Proof.
  unfold add_subordinate_unit. intros H.
  apply bind_ok in H as (m & ->%item_ok & H). simplify_eq. eauto.
Qed.

Lemma add_subordinate_unit_other key g app index u index' :
  key ≠ "units" → add_subordinate_unit g app index u = Ok index' →
  idx_get key index' = idx_get key index.
Proof.
  destruct u as [u ui]. intros Hkey (m & _ & ->)%add_subordinate_unit_inv.
  by apply add_subordinate_keys_other.
Qed.

Lemma add_subordinate_unit_unit_at juju_status g m k app index u unit_info index' :
  placed_on juju_status m k = true →
  (u, unit_info) ∈ all_units juju_status →
  add_subordinate_unit g app index (u, unit_info) = Ok index' →
  ((k ∈ sub_keys unit_info ∧ Py.startswith k (app +:+ "/") = true)
   ∨ unit_at g m k index) →
  unit_at g m k index'.
Proof.
  intros Hplaced Hu (m' & Hm' & ->)%add_subordinate_unit_inv Hk.
  unfold unit_at in *. rewrite add_subordinate_keys_units.
  destruct (bool_decide _ && _) eqn:Hw.
  - apply andb_true_iff in Hw as [Hin%bool_decide_eq_true _].
    rewrite (placed_on_spec _ _ _ _ _ Hplaced Hu) in Hm' by (by right). by simplify_eq.
  - destruct Hk as [[Hin Hpre]|Hk]; [|done].
    unfold sub_keys in Hin. by rewrite (bool_decide_eq_true_2 _ Hin), Hpre in Hw.
Qed.

Lemma add_subordinate_parent_inv juju_status g app index parent index' :
  add_subordinate_parent juju_status g app index parent = Ok index' →
  ∃ app_nodes parent_nodes parent_info us,
    idx_get "apps" index !! app = Some app_nodes ∧
    idx_get "apps" index !! parent = Some parent_nodes ∧
    dict_get parent (applications juju_status) = Some parent_info ∧
    units parent_info = Some us ∧
    foldM (add_subordinate_unit g app)
      (idx_set "apps" app (app_nodes ++ parent_nodes) index) us = Ok index'.
Proof.
  unfold add_subordinate_parent. intros H.
  apply bind_ok in H as (app_nodes & ?%item_ok & H).
  apply bind_ok in H as (parent_nodes & ?%item_ok & H).
  apply bind_ok in H as (parent_info & ?%item_ok & H).
  apply bind_ok in H as (us & ?%item_ok & H).
  by exists app_nodes, parent_nodes, parent_info, us.
Qed.

Lemma subordinate_units_other key g app us index index' :
  key ≠ "units" → foldM (add_subordinate_unit g app) index us = Ok index' →
  idx_get key index' = idx_get key index.
Proof.
  intros Hkey.
  apply (foldM_invariant _ (λ a, idx_get key a = idx_get key index)); [|done].
  intros i u i' _ Hi Hstep. by rewrite (add_subordinate_unit_other _ _ _ _ _ _ Hkey Hstep).
Qed.

Lemma add_subordinate_parent_apps juju_status g app index parent index' :
  add_subordinate_parent juju_status g app index parent = Ok index' →
  ∃ app_nodes parent_nodes,
    idx_get "apps" index !! app = Some app_nodes ∧
    idx_get "apps" index !! parent = Some parent_nodes ∧
    idx_get "apps" index' = <[app := app_nodes ++ parent_nodes]> (idx_get "apps" index).
Proof.
  intros (app_nodes & parent_nodes & parent_info & us & Ha & Hp & _ & _ & H)
    %add_subordinate_parent_inv.
  exists app_nodes, parent_nodes. split_and!; [done..|].
  apply (subordinate_units_other "apps") in H; [|done]. by rewrite H, idx_get_set.
Qed.

Lemma add_subordinate_parent_unit_at juju_status g m k app index parent index' :
  placed_on juju_status m k = true →
  add_subordinate_parent juju_status g app index parent = Ok index' →
  ((∃ parent_info us u unit_info,
      dict_get parent (applications juju_status) = Some parent_info ∧
      units parent_info = Some us ∧ (u, unit_info) ∈ us ∧
      k ∈ sub_keys unit_info ∧ Py.startswith k (app +:+ "/") = true)
   ∨ unit_at g m k index) →
  unit_at g m k index'.
Proof.
  intros Hplaced (app_nodes & parent_nodes & parent_info & us & _ & _ & Hget & Hus & H)
    %add_subordinate_parent_inv Hk.
  assert (∀ u ui, (u, ui) ∈ us → (u, ui) ∈ all_units juju_status) as Hall.
  { intros u ui Hu. apply elem_of_all_units. exists parent, parent_info, us.
    split_and!; [by apply dict_get_elem_of|done..]. }
  set (index0 := idx_set "apps" app (app_nodes ++ parent_nodes) index) in *.
  assert (unit_at g m k index → unit_at g m k index0) as Hsame.
  { unfold unit_at, index0. by rewrite idx_get_set_ne. }
  destruct Hk as [(parent_info' & us' & u & ui & Hget' & Hus' & Hu & Hin & Hpre)|Hk].
  - rewrite Hget in Hget'. simplify_eq.
    apply (foldM_establish (add_subordinate_unit g app) (λ _, True)
             (unit_at g m k) (u, ui) us index0 index'); try done.
    + intros i [u' ui'] i' Hu' _ Hq Hstep.
      apply (add_subordinate_unit_unit_at juju_status g m k app i u' ui' i'); auto.
    + intros i i' _ Hstep.
      apply (add_subordinate_unit_unit_at juju_status g m k app i u ui i'); auto.
  - apply (foldM_invariant (add_subordinate_unit g app) (unit_at g m k) us index0 index');
      [|by apply Hsame|done].
    intros i [u' ui'] i' Hu' Hq Hstep.
    apply (add_subordinate_unit_unit_at juju_status g m k app i u' ui' i'); auto.
Qed.

(** ** The passes as a whole *)

Section Passes.
Variable juju_status : StatusDocument.
Variable g : string.

Lemma principals_unit_at m k i0 i1 app app_info us unit_info :
  placed_on juju_status m k = true →
  (app, app_info) ∈ applications juju_status →
  units app_info = Some us → (k, unit_info) ∈ us →
  _add_principals_to_index i0 juju_status g = Ok i1 →
  unit_at g m k i1.
Proof.
  intros Hplaced Happ Hus Hk.
  apply (foldM_establish (add_principal_app g) (λ _, True) (unit_at g m k)
           (app, app_info)); try done.
  - intros i [app' info'] i' Hy _ Hq Hstep.
    apply (add_principal_app_unit_at juju_status g m k i app' info' i'); auto.
  - intros i i' _ Hstep.
    apply (add_principal_app_unit_at juju_status g m k i app app_info i'); eauto.
Qed.

Lemma principals_apps_entry i0 i1 app app_info :
  dict_wf (applications juju_status) →
  (app, app_info) ∈ applications juju_status →
  _add_principals_to_index i0 juju_status g = Ok i1 →
  ∃ nodes,
    idx_get "apps" i1 !! app = Some nodes ∧
    (units app_info = None → nodes = []) ∧
    (∀ us u unit_info m, units app_info = Some us → (u, unit_info) ∈ us →
       machine unit_info = Some m → node_of g m ∈ nodes).
Proof.
  intros Hwf Happ.
  set (Q := λ i : Index, ∃ nodes,
    idx_get "apps" i !! app = Some nodes ∧
    (units app_info = None → nodes = []) ∧
    (∀ us u unit_info m, units app_info = Some us → (u, unit_info) ∈ us →
       machine unit_info = Some m → node_of g m ∈ nodes)).
  assert (∀ i i', add_principal_app g i (app, app_info) = Ok i' → Q i') as Hest.
  { intros i i' (nodes & Hi' & Hnone & Hsome)%add_principal_app_apps.
    exists nodes. split_and!; [|done..]. by rewrite Hi', lookup_insert_eq. }
  apply (foldM_establish (add_principal_app g) (λ _, True) Q (app, app_info));
    try done; [|by eauto].
  intros i [app' info'] i' Hy _ Hq Hstep.
  destruct (decide (app' = app)) as [->|Hne].
  - rewrite (dict_wf_unique _ _ _ _ Hwf Hy Happ) in Hstep. by eapply Hest.
  - apply add_principal_app_apps in Hstep as (nodes' & Hi' & _).
    destruct Hq as (nodes & Hi & Hq). exists nodes. split; [|done].
    by rewrite Hi', lookup_insert_ne.
Qed.

Lemma add_subordinate_app_unit_at m k i app app_info i' :
  placed_on juju_status m k = true →
  add_subordinate_app juju_status g i (app, app_info) = Ok i' →
  unit_at g m k i → unit_at g m k i'.
Proof.
  intros Hplaced H Hk. unfold add_subordinate_app in H.
  apply (foldM_invariant (add_subordinate_parent juju_status g app) (unit_at g m k)
           (default [] (subordinate_to app_info)) i i'); [|done..].
  intros a parent a' _ Ha Hstep.
  apply (add_subordinate_parent_unit_at juju_status g m k app a parent a'); auto.
Qed.

Lemma subordinates_keep_unit_at m k i1 i2 :
  placed_on juju_status m k = true →
  _add_subordinates_to_index i1 juju_status g = Ok i2 →
  unit_at g m k i1 → unit_at g m k i2.
Proof.
  intros Hplaced H Hk.
  apply (foldM_invariant (add_subordinate_app juju_status g) (unit_at g m k)
           (applications juju_status) i1 i2); [|done..].
  intros a [app info] a' _ Ha Hstep.
  by apply (add_subordinate_app_unit_at m k a app info a').
Qed.

Lemma subordinates_set_unit_at m k i1 i2 app app_info parents parent parent_info
    us u unit_info :
  placed_on juju_status m k = true →
  (app, app_info) ∈ applications juju_status →
  subordinate_to app_info = Some parents → parent ∈ parents →
  dict_get parent (applications juju_status) = Some parent_info →
  units parent_info = Some us → (u, unit_info) ∈ us →
  k ∈ sub_keys unit_info → Py.startswith k (app +:+ "/") = true →
  _add_subordinates_to_index i1 juju_status g = Ok i2 →
  unit_at g m k i2.
Proof.
  intros Hplaced Happ Hparents Hparent Hget Hus Hu Hk Hpre.
  apply (foldM_establish (add_subordinate_app juju_status g) (λ _, True)
           (unit_at g m k) (app, app_info)); try done.
  - intros a [app' info'] a' _ _ Ha Hstep.
    by apply (add_subordinate_app_unit_at m k a app' info' a').
  - intros a a' _ Hstep. unfold add_subordinate_app in Hstep.
    rewrite Hparents in Hstep. simpl in Hstep.
    apply (foldM_establish (add_subordinate_parent juju_status g app) (λ _, True)
             (unit_at g m k) parent parents a a'); try done.
    + intros b p b' _ _ Hb Hp.
      apply (add_subordinate_parent_unit_at juju_status g m k app b p b'); auto.
    + intros b b' _ Hp.
      apply (add_subordinate_parent_unit_at juju_status g m k app b parent b'); auto.
      left. by exists parent_info, us, u, unit_info.
Qed.

Lemma add_subordinate_parent_has_node x node app i parent i' :
  add_subordinate_parent juju_status g app i parent = Ok i' →
  has_node x node i → has_node x node i'.
Proof.
  intros (app_nodes & parent_nodes & Happ & _ & Hi')%add_subordinate_parent_apps
    (nodes & Hx & Hnode).
  unfold has_node. rewrite Hi'. destruct (decide (app = x)) as [->|Hne].
  - rewrite lookup_insert_eq. rewrite Happ in Hx. simplify_eq.
    eexists; split; [done|]. apply elem_of_app. by left.
  - rewrite lookup_insert_ne by done. by exists nodes.
Qed.

Lemma add_subordinate_app_has_node x node i a i' :
  add_subordinate_app juju_status g i a = Ok i' →
  has_node x node i → has_node x node i'.
Proof.
  destruct a as [app info]. intros H Hx. unfold add_subordinate_app in H.
  apply (foldM_invariant (add_subordinate_parent juju_status g app) (has_node x node)
           (default [] (subordinate_to info)) i i'); [|done..].
  intros b p b' _ Hb Hp. by apply (add_subordinate_parent_has_node x node app b p b').
Qed.

Lemma subordinates_extend node i1 i2 app app_info parents parent :
  (app, app_info) ∈ applications juju_status →
  subordinate_to app_info = Some parents → parent ∈ parents →
  has_node parent node i1 →
  _add_subordinates_to_index i1 juju_status g = Ok i2 →
  has_node app node i2.
Proof.
  intros Happ Hparents Hparent Hnode.
  apply (foldM_establish (add_subordinate_app juju_status g)
           (has_node parent node) (has_node app node) (app, app_info)); try done.
  - intros a y a' _ Ha Hstep. by apply (add_subordinate_app_has_node _ _ a y a').
  - intros a y a' _ _ Ha Hstep. by apply (add_subordinate_app_has_node _ _ a y a').
  - intros a a' Ha Hstep. unfold add_subordinate_app in Hstep.
    rewrite Hparents in Hstep. simpl in Hstep.
    apply (foldM_establish (add_subordinate_parent juju_status g app)
             (has_node parent node) (has_node app node) parent parents a a'); try done.
    + intros b p b' _ Hb Hp. by apply (add_subordinate_parent_has_node _ _ app b p b').
    + intros b p b' _ _ Hb Hp. by apply (add_subordinate_parent_has_node _ _ app b p b').
    + intros b b' (nodes & Hb & Hin)
        (app_nodes & parent_nodes & Ha' & Hp' & Hb')%add_subordinate_parent_apps.
      unfold has_node. rewrite Hb', lookup_insert_eq. rewrite Hb in Hp'. simplify_eq.
      eexists; split; [done|]. apply elem_of_app. by right.
Qed.

Lemma subordinates_keep_entry i1 i2 app app_info nodes :
  dict_wf (applications juju_status) →
  (app, app_info) ∈ applications juju_status →
  subordinate_to app_info = None →
  _add_subordinates_to_index i1 juju_status g = Ok i2 →
  idx_get "apps" i1 !! app = Some nodes → idx_get "apps" i2 !! app = Some nodes.
Proof.
  intros Hwf Happ Hnone H Hentry.
  apply (foldM_invariant (add_subordinate_app juju_status g)
           (λ i, idx_get "apps" i !! app = Some nodes)
           (applications juju_status) i1 i2); [|done..].
  intros a [app' info'] a' Hy Ha Hstep. unfold add_subordinate_app in Hstep.
  destruct (decide (app' = app)) as [->|Hne].
  - rewrite (dict_wf_unique _ _ _ _ Hwf Hy Happ), Hnone in Hstep.
    simpl in Hstep. by simplify_eq.
  - apply (foldM_invariant (add_subordinate_parent juju_status g app')
             (λ i, idx_get "apps" i !! app = Some nodes)
             (default [] (subordinate_to info')) a a'); [|done..].
    intros b p b' _ Hb (? & ? & _ & _ & Hb')%add_subordinate_parent_apps.
    by rewrite Hb', lookup_insert_ne.
Qed.

End Passes.

(** ** Subordinate resolution *)

(** C1 (as amended).  On a document that the indexer accepts, with a
    parent [P] whose unit [pu] is on machine [m] and hosts [su], a name
    that starts with [S/], and with [S] subordinate to [P]: the [apps]
    entry of [S] contains the node [g:m]; and when every occurrence of
    the names [pu] and [su] in the document is on machine [m], the
    [units] entries of [su] and of [pu] are both that one node. *)
Theorem subordinate_resolution
    (juju_status : StatusDocument) (g : string) (index : Index)
    (P S pu su m : string) (parent_info app_info : AppInfo)
    (us : dict UnitInfo) (unit_info : UnitInfo) (parents : list string) :
  index_status juju_status g = Ok index →
  dict_wf (applications juju_status) →
  (P, parent_info) ∈ applications juju_status →
  units parent_info = Some us →
  (pu, unit_info) ∈ us →
  machine unit_info = Some m →
  su ∈ sub_keys unit_info →
  Py.startswith su (S +:+ "/") = true →
  (S, app_info) ∈ applications juju_status →
  subordinate_to app_info = Some parents →
  P ∈ parents →
  has_node S (node_of g m) index ∧
  (placed_on juju_status m pu = true → placed_on juju_status m su = true →
   idx_get "units" index !! su = Some [node_of g m] ∧
   idx_get "units" index !! pu = Some [node_of g m]).
Proof.
  intros (i1 & i2 & H1 & H2 & ->)%index_status_inv Hwf HP Hus Hpu Hm Hsu Hpre HS Hpar HPin.
  split.
  - unfold has_node. rewrite add_machines_other by done.
    apply (subordinates_extend juju_status g _ i1 i2 S app_info parents P); try done.
    destruct (principals_apps_entry juju_status g ∅ i1 P parent_info Hwf HP H1)
      as (nodes & Hnodes & _ & Hin).
    exists nodes. split; [done|]. by apply (Hin us pu unit_info m).
  - intros Hplaced_pu Hplaced_su. rewrite !add_machines_other by done. split.
    + apply (subordinates_set_unit_at juju_status g m su i1 i2 S app_info parents P
               parent_info us pu unit_info); try done.
      by apply dict_wf_get.
    + apply (subordinates_keep_unit_at juju_status g m pu i1 i2); try done.
      by apply (principals_unit_at juju_status g m pu ∅ i1 P parent_info us unit_info).
Qed.

Lemma subordinate_resolution_witness :
  ∃ index, index_status Examples.doc_ps "g" = Ok index ∧
           has_node "S" "g:3" index ∧
           idx_get "units" index !! "S/0" = Some ["g:3"] ∧
           idx_get "units" index !! "p/0" = Some ["g:3"].
Proof.
  eexists. split; [reflexivity|].
  split.
  - refine (proj1 (subordinate_resolution Examples.doc_ps "g" _ "P" "S" "p/0" "S/0" "3"
                     Examples.app_P Examples.app_S [("p/0", Examples.unit_p0)]
                     Examples.unit_p0 ["P"] _ _ _ _ _ _ _ _ _ _ _)).
    all: first [reflexivity | by compute_done | apply list_elem_of_here
               | apply list_elem_of_further, list_elem_of_here].
  - refine (proj2 (subordinate_resolution Examples.doc_ps "g" _ "P" "S" "p/0" "S/0" "3"
                     Examples.app_P Examples.app_S [("p/0", Examples.unit_p0)]
                     Examples.unit_p0 ["P"] _ _ _ _ _ _ _ _ _ _ _) _ _).
    all: first [reflexivity | by compute_done | apply list_elem_of_here
               | apply list_elem_of_further, list_elem_of_here].
Defined.

(** C1 (as stated) fails: with a second unit of [P] on machine 4 that
    also lists [S/0], the [units] entry of [S/0] is the node of that
    later unit, not the node of [p/0]. *)
Lemma subordinate_resolution_last_host_wins :
  ∃ index, index_status Examples.doc_two_hosts "g" = Ok index ∧
           idx_get "units" index !! "p/0" = Some ["g:3"] ∧
           idx_get "units" index !! "S/0" = Some ["g:4"].
Proof. eexists. split; [reflexivity|]. split; by vm_compute. Qed.

(** ** Applications with no presence *)

(** C8 (as amended).  On a document that the indexer accepts, an
    application with neither a [units] mapping nor a [subordinate-to]
    list is a key of the [apps] category, mapped to the empty list of
    nodes; and neither the principal pass nor the subordinate pass raises
    on that application. *)
Theorem application_without_presence
    (juju_status : StatusDocument) (g : string) (index : Index)
    (app : string) (app_info : AppInfo) :
  index_status juju_status g = Ok index →
  dict_wf (applications juju_status) →
  (app, app_info) ∈ applications juju_status →
  units app_info = None →
  subordinate_to app_info = None →
  idx_get "apps" index !! app = Some [] ∧
  (∀ i, add_principal_app g i (app, app_info) = Ok (idx_set "apps" app [] i)) ∧
  (∀ i, add_subordinate_app juju_status g i (app, app_info) = Ok i).
Proof.
  intros (i1 & i2 & H1 & H2 & ->)%index_status_inv Hwf Happ Hunits Hsub. split_and!.
  - rewrite add_machines_other by done.
    apply (subordinates_keep_entry juju_status g i1 i2 app app_info); try done.
    destruct (principals_apps_entry juju_status g ∅ i1 app app_info Hwf Happ H1)
      as (nodes & Hnodes & Hnone & _).
    by rewrite Hnodes, (Hnone Hunits).
  - intros i. unfold add_principal_app. by rewrite Hunits.
  - intros i. unfold add_subordinate_app. by rewrite Hsub.
Qed.

Lemma application_without_presence_witness :
  ∃ index, index_status Examples.doc_lonely "g" = Ok index ∧
           idx_get "apps" index !! "A" = Some [].
Proof.
  eexists. split; [reflexivity|].
  refine (proj1 (application_without_presence Examples.doc_lonely "g" _ "A"
                   Examples.app_lonely _ _ _ _ _)).
  - reflexivity.
  - by compute_done.
  - apply list_elem_of_here.
  - reflexivity.
  - reflexivity.
Defined.

(** C8 (as stated) fails: the name of such an application is a key of
    the [apps] category. *)
Lemma application_without_presence_is_a_key :
  ∃ index, index_status Examples.doc_lonely "g" = Ok index ∧
           "A" ∈ dom (idx_get "apps" index).
Proof.
  eexists. split; [reflexivity|]. apply elem_of_dom. exists []. by vm_compute.
Qed.

(** ** Fetching the status, and assembling the node list *)

Section Assembler.
Variable re_match : string → string → result bool.
Variable exec_primary_cmd : string → CmdResult.
Variable json_loads : string → result StatusDocument.

Lemma get_nodes_model_unfiltered filters nodes model :
  existsb Py.truthy filters.*2 = false →
  get_nodes_model re_match exec_primary_cmd json_loads filters nodes model
  = _get_model_info exec_primary_cmd json_loads model ≫= λ _, Ok nodes.
Proof. intros H. unfold get_nodes_model. by rewrite H. Qed.

Lemma filters_of_empty opts :
  _parse_option_string (opt_apps opts) = [] →
  _parse_option_string (opt_units opts) = [] →
  _parse_option_string (opt_machines opts) = [] →
  existsb Py.truthy (filters_of opts).*2 = false.
Proof. unfold filters_of. by intros -> -> ->. Qed.

Lemma unfiltered_models_add_nothing filters models nodes :
  existsb Py.truthy filters.*2 = false →
  foldM (get_nodes_model re_match exec_primary_cmd json_loads filters) ∅ models
  = Ok nodes →
  nodes = ∅.
Proof.
  intros Hempty. apply (foldM_invariant _ (λ a, a = ∅)); [|done].
  intros a model a' _ -> Ha. rewrite get_nodes_model_unfiltered in Ha by done.
  apply bind_ok in Ha as (? & _ & Ha). by simplify_eq.
Qed.

Lemma unfiltered_models_return filters models :
  existsb Py.truthy filters.*2 = false →
  (∀ model, model ∈ models →
     is_ok (_get_model_info exec_primary_cmd json_loads model) = true) →
  foldM (get_nodes_model re_match exec_primary_cmd json_loads filters) ∅ models = Ok ∅.
Proof.
  intros Hempty Hok.
  destruct (foldM _ ∅ models) as [nodes|e] eqn:Hfold.
  - by rewrite (unfiltered_models_add_nothing _ _ _ Hempty Hfold).
  - assert (is_ok (foldM (get_nodes_model re_match exec_primary_cmd json_loads filters)
                     ∅ models) = true) as Htot.
    { apply foldM_total. intros a model Hmodel.
      rewrite get_nodes_model_unfiltered by done.
      specialize (Hok model Hmodel). by destruct (_get_model_info _ _ model). }
    by rewrite Hfold in Htot.
Qed.

End Assembler.

(** C2.  When the term lists of [apps], [units] and [machines] are all
    empty, a grouping adds no node to the running set, whatever its
    index holds; so [get_nodes] can only return the empty list, and it
    does return it when the status of every requested grouping can be
    indexed. *)
Theorem empty_filters_select_nothing
    (re_match : string → string → result bool)
    (exec_primary_cmd : string → CmdResult)
    (json_loads : string → result StatusDocument)
    (opts : Options) :
  _parse_option_string (opt_apps opts) = [] →
  _parse_option_string (opt_units opts) = [] →
  _parse_option_string (opt_machines opts) = [] →
  (∀ nodes model,
     get_nodes_model re_match exec_primary_cmd json_loads (filters_of opts) nodes model
     = _get_model_info exec_primary_cmd json_loads model ≫= λ _, Ok nodes) ∧
  (∀ l, get_nodes re_match exec_primary_cmd json_loads opts = Ok l → l = []) ∧
  ((∀ model, model ∈ requested_models opts →
      is_ok (_get_model_info exec_primary_cmd json_loads model) = true) →
   get_nodes re_match exec_primary_cmd json_loads opts = Ok []).
Proof.
  intros Happs Hunits Hmachines.
  pose proof (filters_of_empty opts Happs Hunits Hmachines) as Hempty.
  split_and!.
  - intros. by apply get_nodes_model_unfiltered.
  - intros l. rewrite get_nodes_unfold. intros (nodes & Hnodes & Hl)%bind_ok.
    apply unfiltered_models_add_nothing in Hnodes as ->; [|done].
    rewrite elements_empty in Hl. by simplify_eq.
  - intros Hok. rewrite get_nodes_unfold.
    rewrite unfiltered_models_return by done. simpl. by rewrite elements_empty.
Qed.

Lemma empty_filters_select_nothing_witness :
  Examples.run Examples.doc_ab
    {| opt_apps := None; opt_units := Some ""; opt_models := Some "model1";
       opt_machines := None |} = Ok [].
Proof.
  refine (proj2 (proj2 (empty_filters_select_nothing (re_match Examples.rejects)
            (λ _, {| status := 0; output := "{}" |}) (λ _, Ok Examples.doc_ab)
            {| opt_apps := None; opt_units := Some ""; opt_models := Some "model1";
               opt_machines := None |} _ _ _)) _).
  - reflexivity.
  - reflexivity.
  - reflexivity.
  - intros model ->%list_elem_of_singleton. reflexivity.
Defined.

(** C6.  A status command that exits with 0 gives the parse of its
    normalised output.  One that exits with another code makes the fetch
    raise an exception whose message starts with the command; the
    exception leaves [_get_model_info] and the loop body of [get_nodes]
    before any index exists, and [get_nodes] does not return when that
    grouping is among the requested ones. *)
Theorem status_failure_is_fatal
    (re_match : string → string → result bool)
    (exec_primary_cmd : string → CmdResult)
    (json_loads : string → result StatusDocument)
    (opts : Options) (model_name : string) :
  let res := exec_primary_cmd (status_cmd model_name) in
  let e := Exception (status_cmd model_name +:+ " did not return usable output") in
  (status res = 0 →
   _execute_juju_status exec_primary_cmd json_loads model_name
   = json_loads (_cleanup_juju_output (output res))) ∧
  (status res ≠ 0 →
   _execute_juju_status exec_primary_cmd json_loads model_name = Raise e ∧
   _get_model_info exec_primary_cmd json_loads model_name = Raise e ∧
   (∀ filters nodes,
      get_nodes_model re_match exec_primary_cmd json_loads filters nodes model_name
      = Raise e) ∧
   (model_name ∈ requested_models opts →
    is_ok (get_nodes re_match exec_primary_cmd json_loads opts) = false)).
Proof.
  intros res e. split.
  - intros Hzero. unfold _execute_juju_status. fold res.
    by rewrite (bool_decide_eq_true_2 _ Hzero).
  - intros Hfail.
    assert (_execute_juju_status exec_primary_cmd json_loads model_name = Raise e) as Hexec.
    { unfold _execute_juju_status. fold res. by rewrite (bool_decide_eq_false_2 _ Hfail). }
    assert (_get_model_info exec_primary_cmd json_loads model_name = Raise e) as Hinfo.
    { unfold _get_model_info. by rewrite Hexec. }
    assert (∀ filters nodes,
      get_nodes_model re_match exec_primary_cmd json_loads filters nodes model_name
      = Raise e) as Hmodel.
    { intros. unfold get_nodes_model. by rewrite Hinfo. }
    split_and!; [done..|].
    intros Hin. rewrite get_nodes_unfold.
    assert (is_ok (foldM (get_nodes_model re_match exec_primary_cmd json_loads
                            (filters_of opts)) ∅ (requested_models opts)) = false)
      as Hraise.
    { apply (foldM_raises_at _ model_name); [done|]. intros nodes. by rewrite Hmodel. }
    by destruct (foldM _ ∅ (requested_models opts)).
Qed.

Lemma status_failure_is_fatal_witness :
  _execute_juju_status (λ _, {| status := 0; output := "{}" |})
    (λ _, Ok Examples.doc_5) "m" = Ok Examples.doc_5 ∧
  _get_model_info (λ _, {| status := 1; output := "" |})
    (λ _, Ok Examples.doc_5) "m"
  = Raise (Exception "juju status -m m --format json did not return usable output") ∧
  is_ok (get_nodes (re_match Examples.rejects) (λ _, {| status := 1; output := "" |})
           (λ _, Ok Examples.doc_5)
           {| opt_apps := None; opt_units := None; opt_models := Some "m";
              opt_machines := Some "5" |}) = false.
Proof.
  split_and!.
  - refine (proj1 (status_failure_is_fatal (re_match Examples.rejects)
              (λ _, {| status := 0; output := "{}" |}) (λ _, Ok Examples.doc_5)
              {| opt_apps := None; opt_units := None; opt_models := Some "m";
                 opt_machines := Some "5" |} "m") _).
    reflexivity.
  - refine (proj1 (proj2 (proj2 (status_failure_is_fatal (re_match Examples.rejects)
              (λ _, {| status := 1; output := "" |}) (λ _, Ok Examples.doc_5)
              {| opt_apps := None; opt_units := None; opt_models := Some "m";
                 opt_machines := Some "5" |} "m") _))).
    simpl. lia.
  - refine (proj2 (proj2 (proj2 (proj2 (status_failure_is_fatal (re_match Examples.rejects)
              (λ _, {| status := 1; output := "" |}) (λ _, Ok Examples.doc_5)
              {| opt_apps := None; opt_units := None; opt_models := Some "m";
                 opt_machines := Some "5" |} "m") _))) _).
    + simpl. lia.
    + apply list_elem_of_here.
Defined.

(** ** The matcher and what a pattern matches *)

Lemma str_app_nil_l s : "" +:+ s = s.
Proof. done. Qed.

Lemma str_app_cons c s1 s2 : String c s1 +:+ s2 = String c (s1 +:+ s2).
Proof. done. Qed.

Lemma str_app_nil_r s : s +:+ "" = s.
Proof. induction s as [|c s IH]; [done|]. by rewrite str_app_cons, IH. Qed.

Lemma str_app_assoc s1 s2 s3 : (s1 +:+ s2) +:+ s3 = s1 +:+ (s2 +:+ s3).
Proof. induction s1 as [|c s1 IH]; [done|]. by rewrite !str_app_cons, IH. Qed.

Lemma str_length_app s1 s2 :
  String.length (s1 +:+ s2) = (String.length s1 + String.length s2)%nat.
Proof. induction s1 as [|c s1 IH]; [done|]. rewrite str_app_cons. simpl. by rewrite IH. Qed.

Lemma last_char_app prev w1 w2 :
  Re.last_char prev (w1 +:+ w2) = Re.last_char (Re.last_char prev w1) w2.
Proof.
  revert prev. induction w1 as [|c w1 IH]; intros prev; [done|].
  rewrite str_app_cons. simpl. apply IH.
Qed.

Section MatcherSound.
Context {R : Type} (multiline : bool).

Lemma step_char_sound (p : ascii → bool) r prev s caps (k : Re.cont (R := R)) (x : R) :
  (∀ c rest, p c = true → Re.Matches multiline r prev (String c "") rest) →
  Re.step_char p s caps k = Some x → Re.found multiline r prev s k x.
Proof.
  intros Hr. destruct s as [|c s]; simpl; [done|].
  destruct (p c) eqn:Hp; [|done]. intros Hk.
  exists (String c ""), s, caps. split_and!; [done|by apply Hr|done].
Qed.

Lemma star_loop_sound r :
  (∀ prev s caps (k : Re.cont (R := R)) x,
     Re.m multiline r prev s caps k = Some x → Re.found multiline r prev s k x) →
  ∀ n prev s caps (k : Re.cont (R := R)) x,
    Re.star_loop (Re.m multiline r) k n prev s caps = Some x →
    Re.found multiline (Re.Star r) prev s k x.
Proof.
  intros Hbody n. induction n as [|n IH]; intros prev s caps k x; simpl.
  { intros Hk. exists "", s, caps. split_and!; [done|constructor|done]. }
  destruct (Re.m multiline r prev s caps _) as [y|] eqn:Hm.
  - intros [= ->]. apply Hbody in Hm as (w1 & rest1 & caps1 & -> & Hw1 & Hk1).
    case_decide; [|done].
    apply IH in Hk1 as (w2 & rest & caps2 & -> & Hw2 & Hk2).
    exists (w1 +:+ w2), rest, caps2. split_and!.
    + by rewrite str_app_assoc.
    + by constructor.
    + by rewrite last_char_app.
  - intros Hk. exists "", s, caps. split_and!; [done|constructor|done].
Qed.

Lemma m_sound r prev s caps (k : Re.cont (R := R)) (x : R) :
  Re.m multiline r prev s caps k = Some x → Re.found multiline r prev s k x.
Proof.
  revert prev s caps k x.
  induction r as [|c| |neg items| | |r1 IH1 r2 IH2|r1 IH1 r2 IH2|r IH|n r IH];
    intros prev s caps k x; simpl.
  - intros Hk. exists "", s, caps. split_and!; [done|constructor|done].
  - apply step_char_sound. intros c' rest ->%bool_decide_eq_true. constructor.
  - apply step_char_sound. intros c' rest Hc%negb_true_iff%bool_decide_eq_false.
    by constructor.
  - apply step_char_sound. intros c' rest Hc. by constructor.
  - destruct (Re.at_bol multiline prev) eqn:Hbol; [|done].
    intros Hk. exists "", s, caps. split_and!; [done|by constructor|done].
  - destruct (Re.at_eol multiline s) eqn:Heol; [|done].
    intros Hk. exists "", s, caps. split_and!; [done|by constructor|done].
  - intros (w1 & rest1 & caps1 & -> & Hw1 & Hk1)%IH1.
    apply IH2 in Hk1 as (w2 & rest & caps2 & -> & Hw2 & Hk2).
    exists (w1 +:+ w2), rest, caps2. split_and!.
    + by rewrite str_app_assoc.
    + by constructor.
    + by rewrite last_char_app.
  - destruct (Re.m multiline r1 prev s caps k) as [y|] eqn:Hm1.
    + intros [= ->]. apply IH1 in Hm1 as (w & rest & caps' & -> & Hw & Hk).
      exists w, rest, caps'. split_and!; [done|by apply Re.M_AltL|done].
    + intros (w & rest & caps' & -> & Hw & Hk)%IH2.
      exists w, rest, caps'. split_and!; [done|by apply Re.M_AltR|done].
  - by apply star_loop_sound.
  - intros (w & rest & caps' & -> & Hw & Hk)%IH.
    eexists w, rest, _. split_and!; [done|by constructor|exact Hk].
Qed.

Lemma m_complete r prev w rest :
  Re.Matches multiline r prev w rest →
  ∀ caps (k : Re.cont (R := R)),
    Re.accepts k (Re.last_char prev w) rest →
    is_Some (Re.m multiline r prev (w +:+ rest) caps k) ∧
    match r with
    | Re.Star r' =>
        ∀ n, (String.length (w +:+ rest) ≤ n)%nat →
             is_Some (Re.star_loop (Re.m multiline r') k n prev (w +:+ rest) caps)
    | _ => True
    end.
Proof.
  induction 1 as [prev rest|c prev rest|c prev rest Hc|neg items c prev rest Hc
                 |prev rest Hbol|prev rest Heol
                 |r1 r2 prev w1 w2 rest _ IH1 _ IH2
                 |r1 r2 prev w rest _ IH|r1 r2 prev w rest _ IH
                 |r prev rest|r prev w1 w2 rest _ IH1 _ IH2
                 |n r prev w rest _ IH]; intros caps k Hk; simpl.
  - split; [apply Hk|done].
  - split; [|done]. rewrite bool_decide_eq_true_2 by done. apply Hk.
  - split; [|done]. rewrite bool_decide_eq_false_2 by done. apply Hk.
  - split; [|done]. rewrite Hc. apply Hk.
  - split; [|done]. rewrite Hbol. apply Hk.
  - split; [|done]. rewrite str_app_nil_l, Heol. apply Hk.
  - split; [|done]. rewrite str_app_assoc. apply IH1.
    intros caps'. apply IH2. by rewrite <- last_char_app.
  - split; [|done].
    destruct (Re.m multiline r1 prev (w +:+ rest) caps k) eqn:Hm; [done|].
    destruct (IH caps k Hk) as [Hsome _]. rewrite Hm in Hsome. by destruct Hsome.
  - split; [|done].
    destruct (Re.m multiline r1 prev (w +:+ rest) caps k) eqn:Hm; [done|].
    apply IH, Hk.
  - assert (∀ n, is_Some (Re.star_loop (Re.m multiline r) k n prev ("" +:+ rest) caps))
      as Hn.
    { intros [|n]; simpl; [apply Hk|]. destruct (Re.m multiline r prev _ caps _); [done|apply Hk]. }
    split; [apply Hn|intros n _; apply Hn].
  - rewrite last_char_app in Hk.
    assert (∀ n, (String.length ((w1 +:+ w2) +:+ rest) ≤ n)%nat →
                 is_Some (Re.star_loop (Re.m multiline r) k n prev
                            ((w1 +:+ w2) +:+ rest) caps)) as Hn.
    { intros n Hlen. destruct w1 as [|c w1].
      { rewrite str_app_nil_l in *. by apply (IH2 caps k Hk). }
      rewrite str_app_assoc in *. rewrite str_app_cons in Hlen. simpl in Hlen.
      rewrite (str_length_app w1) in Hlen.
      destruct n as [|n]; [lia|]. simpl.
      destruct (Re.m multiline r prev _ caps _) eqn:Hm; [done|].
      exfalso.
      match type of Hm with
      | Re.m _ _ _ _ _ ?k' = None => destruct (IH1 caps k') as [Hsome _]
      end.
      - intros caps'. rewrite decide_True.
        + apply (IH2 caps' k Hk). lia.
        + simpl. rewrite (str_length_app w1). lia.
      - apply not_eq_None_Some in Hsome. apply Hsome. exact Hm. }
    split; [by apply Hn|done].
  - split; [|done]. apply IH. intros caps'. apply Hk.
Qed.

End MatcherSound.

(** [re.match] succeeds exactly when the pattern matches a prefix of the
    text, read from its first character. *)
Lemma matches_spec multiline r s :
  Re.matches multiline r s = true
  ↔ ∃ w rest, s = w +:+ rest ∧ Re.Matches multiline r None w rest.
Proof.
  unfold Re.matches, Re.match_at. rewrite bool_decide_eq_true. split.
  - intros [x Hx]. apply m_sound in Hx as (w & rest & _ & -> & Hw & _). eauto.
  - intros (w & rest & -> & Hw).
    refine (proj1 (m_complete multiline r None w rest Hw ∅ _ _)).
    intros caps. by eexists.
Qed.

(** On a pattern of the fragment the matcher of the profile answers as
    the matcher of the fragment does, whatever it answers elsewhere. *)
Lemma re_match_fragment other pattern s r :
  Re.compile pattern = Some r →
  re_match other pattern s = Ok (Re.matches false r s).
Proof. unfold re_match. by intros ->. Qed.

Lemma re_match_spec other pattern s r :
  Re.compile pattern = Some r →
  re_match other pattern s = Ok true
  ↔ ∃ w rest, s = w +:+ rest ∧ Re.Matches false r None w rest.
Proof.
  intros Hr. rewrite (re_match_fragment other pattern s r Hr), <- matches_spec.
  split; [by intros [= ->]|by intros ->].
Qed.

Section PatternFilter.
Variable matcher : string → string → result bool.

Lemma filter_by_pattern_total key patterns (model_info : Index) :
  (∀ pattern param, pattern ∈ patterns → is_ok (matcher pattern param) = true) →
  is_ok (_filter_by_pattern matcher key patterns model_info) = true.
Proof.
  intros Hok. unfold _filter_by_pattern. apply foldM_total.
  intros acc pattern Hpattern. apply foldM_total.
  intros acc' [param value] _.
  specialize (Hok pattern param Hpattern). by destruct (matcher pattern param).
Qed.

End PatternFilter.



(** ** The normaliser *)

Lemma cleanup_pattern_compiles :
  Re.compile "(^[^{]*)(.*)" = Some cleanup_pattern ∧
  Re.template "\2" = Some cleanup_repl.
Proof. split; reflexivity. Qed.

Lemma take_drop_while p s : take_while p s +:+ drop_while p s = s.
Proof.
  induction s as [|c s IH]; [done|]. simpl. destruct (p c); [|done].
  by rewrite str_app_cons, IH.
Qed.

Lemma take_consumed w rest : Re.take (Re.consumed (w +:+ rest) rest) (w +:+ rest) = w.
Proof.
  unfold Re.consumed. rewrite str_length_app.
  replace (String.length w + String.length rest - String.length rest)%nat
    with (String.length w) by lia.
  induction w as [|c w IH]; simpl; [by destruct rest|]. by rewrite IH.
Qed.

Lemma consumed_app w rest : Re.consumed (w +:+ rest) rest = String.length w.
Proof. unfold Re.consumed. rewrite str_length_app. lia. Qed.

(** A greedy [*] over one character at a time takes the longest run,
    when the rest of the pattern accepts there. *)
Lemma star_char_greedy {R} (p : ascii → bool)
    (body : option ascii → string → Re.captures → Re.cont (R := R) → option R)
    (k : Re.cont (R := R)) (x : R) :
  (∀ prev s caps k', body prev s caps k' = Re.step_char p s caps k') →
  ∀ n prev s caps,
    (String.length s ≤ n)%nat →
    k (Re.last_char prev (take_while p s)) (drop_while p s) caps = Some x →
    Re.star_loop body k n prev s caps = Some x.
Proof.
  intros Hbody n. induction n as [|n IH]; intros prev s caps Hlen Hk.
  { destruct s; [done|simpl in Hlen; lia]. }
  simpl. rewrite Hbody. destruct s as [|c s]; simpl in *; [done|].
  destruct (p c); [|done].
  rewrite decide_True by lia. rewrite (IH (Some c) s caps); [done|lia|done].
Qed.

Lemma take_consumed_while p s :
  Re.take (Re.consumed s (drop_while p s)) s = take_while p s.
Proof.
  rewrite <- (take_drop_while p s) at 1 3. apply take_consumed.
Qed.

Lemma consumed_while2 p q s :
  Re.consumed s (drop_while q (drop_while p s))
  = (String.length (take_while p s)
     + String.length (take_while q (drop_while p s)))%nat.
Proof.
  rewrite <- (take_drop_while p s) at 1.
  rewrite <- (take_drop_while q (drop_while p s)) at 1.
  rewrite <- str_app_assoc, consumed_app. apply str_length_app.
Qed.

(** One attempt of the pattern of the normaliser at the start of a line. *)
Lemma cleanup_match_at prev s :
  Re.at_bol true prev = true →
  Re.match_at true cleanup_pattern prev s false
  = Some (<[2%nat := take_while not_newline (drop_while not_brace s)]>
            (<[1%nat := take_while not_brace s]> ∅),
          (String.length (take_while not_brace s)
           + String.length (take_while not_newline (drop_while not_brace s)))%nat).
Proof.
  intros Hbol. unfold Re.match_at, cleanup_pattern. simpl. rewrite Hbol.
  apply (star_char_greedy not_brace); [done|done|]. simpl.
  apply (star_char_greedy not_newline); [done|done|]. simpl.
  by rewrite take_consumed_while, take_consumed_while, consumed_while2.
Qed.

Lemma cleanup_match_off_line prev s adv :
  Re.at_bol true prev = false →
  Re.match_at true cleanup_pattern prev s adv = None.
Proof. intros Hbol. unfold Re.match_at, cleanup_pattern. simpl. by rewrite Hbol. Qed.

Lemma cleanup_match_at_end prev :
  Re.match_at true cleanup_pattern prev "" true = None.
Proof.
  unfold Re.match_at, cleanup_pattern. simpl. by destruct (Re.at_bol true prev).
Qed.

Lemma sub_loop_skip multiline r tpl prev w rest :
  Re.sub_loop multiline r tpl prev (w +:+ rest) (String.length w)
  = Re.sub_loop multiline r tpl (Re.last_char prev w) rest 0.
Proof.
  revert prev. induction w as [|c w IH]; intros prev; [done|].
  rewrite str_app_cons. simpl. apply IH.
Qed.

Lemma sub_loop_here multiline r tpl prev c s :
  Re.sub_loop multiline r tpl prev (String c s) 0
  = let '(out, n) := Re.sub_here multiline r tpl prev (String c s) in
    out +:+ match n with
            | O => String c (Re.sub_loop multiline r tpl (Some c) s 0)
            | S k => Re.sub_loop multiline r tpl (Some c) s k
            end.
Proof. done. Qed.

Lemma sub_loop_inside multiline r tpl prev c s k :
  Re.sub_loop multiline r tpl prev (String c s) (S k)
  = Re.sub_loop multiline r tpl (Some c) s k.
Proof. done. Qed.

Lemma scan_dropping_drop s : scan Dropping s = scan Dropping (drop_while not_brace s).
Proof.
  induction s as [|c s IH]; [done|]. simpl.
  unfold not_brace, Re.in_class. simpl.
  destruct (bool_decide (c = "{"%char)) eqn:Hc; simpl; [by rewrite Hc|done].
Qed.

Lemma drop_while_brace s :
  drop_while not_brace s = "" ∨ ∃ s', drop_while not_brace s = String "{" s'.
Proof.
  induction s as [|c s IH]; [by left|]. simpl.
  unfold not_brace, Re.in_class. simpl.
  destruct (bool_decide (c = "{"%char)) eqn:Hc; simpl; [|done].
  right. apply bool_decide_eq_true in Hc as ->. by exists s.
Qed.

Lemma scan_keeping_line s :
  scan Keeping s
  = take_while not_newline s +:+ scan Keeping (drop_while not_newline s).
Proof.
  induction s as [|c s IH]; [done|]. simpl. unfold not_newline.
  destruct (bool_decide (c = Re.newline)) eqn:Hc; simpl; [by rewrite Hc|].
  by rewrite str_app_cons, IH.
Qed.

Lemma free_take_while s : free_of Re.newline (take_while not_newline s) = true.
Proof.
  induction s as [|c s IH]; [done|]. simpl. unfold not_newline at 1.
  destruct (bool_decide (c = Re.newline)) eqn:Hc; simpl; [done|]. by rewrite Hc.
Qed.

Lemma last_char_off_line prev c w :
  free_of Re.newline (String c w) = true →
  Re.at_bol true (Re.last_char prev (String c w)) = false.
Proof.
  revert prev c. induction w as [|c' w IH]; intros prev c; simpl.
  - rewrite andb_true_r. by intros ->%negb_true_iff.
  - intros [_ H]%andb_true_iff. by apply (IH (Some c) c').
Qed.

(** The text of a line start on which the pattern matches nothing is
    empty. *)
Lemma cleanup_match_progress c s :
  ∃ k, (String.length (take_while not_brace (String c s))
        + String.length (take_while not_newline (drop_while not_brace (String c s))))%nat
       = S k.
Proof.
  simpl. destruct (not_brace c) eqn:Hc; simpl; [by eexists|].
  assert (not_newline c = true) as ->; [|by eexists].
  unfold not_brace, Re.in_class in Hc. simpl in Hc. rewrite orb_false_r in Hc.
  apply negb_false_iff, bool_decide_eq_true in Hc as ->. done.
Qed.

(** The substitution of the normaliser is the scan. *)
Lemma cleanup_loop_scan n : ∀ s prev,
  (String.length s ≤ n)%nat →
  Re.sub_loop true cleanup_pattern cleanup_repl prev s 0
  = scan (if Re.at_bol true prev then Dropping else Keeping) s.
Proof.
  induction n as [|n IH]; intros s prev Hlen.
  { destruct s; [|simpl in Hlen; lia]. simpl. unfold Re.sub_here.
    destruct (Re.at_bol true prev) eqn:Hbol.
    - rewrite cleanup_match_at by done. simpl. by rewrite cleanup_match_at_end.
    - by rewrite cleanup_match_off_line. }
  destruct (Re.at_bol true prev) eqn:Hbol.
  - destruct s as [|c s].
    { simpl. unfold Re.sub_here. rewrite cleanup_match_at by done. simpl.
      by rewrite cleanup_match_at_end. }
    set (text := String c s) in *.
    set (pre := take_while not_brace text).
    set (line := take_while not_newline (drop_while not_brace text)).
    set (rest := drop_while not_newline (drop_while not_brace text)).
    assert (text = (pre +:+ line) +:+ rest) as Htext.
    { unfold pre, line, rest. by rewrite str_app_assoc, !take_drop_while. }
    destruct (cleanup_match_progress c s) as [k Hk]. fold text pre line in Hk.
    assert (Re.sub_loop true cleanup_pattern cleanup_repl prev text 0
            = line +:+ Re.sub_loop true cleanup_pattern cleanup_repl prev text (S k))
      as ->.
    { unfold text. rewrite sub_loop_here, sub_loop_inside. unfold Re.sub_here.
      rewrite cleanup_match_at by done. fold text. fold pre. fold line.
      rewrite Hk. unfold cleanup_repl, Re.expand.
      rewrite lookup_insert_eq. simpl. by rewrite !str_app_nil_r. }
    rewrite <- Hk, <- str_length_app. rewrite Htext at 1. rewrite sub_loop_skip.
    rewrite IH.
    + rewrite scan_dropping_drop.
      destruct (drop_while_brace text) as [Hnil|[s1 Hs1]].
      * unfold line, rest. rewrite Hnil. simpl. by destruct (Re.at_bol _ _).
      * assert (line = String "{" (take_while not_newline s1)) as Hline.
        { unfold line. by rewrite Hs1. }
        assert (rest = drop_while not_newline s1) as Hrest.
        { unfold rest. by rewrite Hs1. }
        rewrite last_char_app, Hline, last_char_off_line.
        -- rewrite Hs1. simpl. rewrite str_app_cons. f_equal.
           rewrite Hrest. symmetry. apply scan_keeping_line.
        -- rewrite <- Hline. unfold line. apply free_take_while.
    + assert (String.length text = (String.length (pre +:+ line) + String.length rest)%nat)
        as Hl by (by rewrite Htext at 1; rewrite str_length_app).
      rewrite str_length_app, Hk in Hl. lia.
  - destruct s as [|c s]; simpl.
    { unfold Re.sub_here. by rewrite cleanup_match_off_line. }
    unfold Re.sub_here. rewrite cleanup_match_off_line by done.
    rewrite str_app_nil_l. f_equal. simpl in Hlen. rewrite IH by lia. done.
Qed.

Lemma cleanup_is_scan output : _cleanup_juju_output output = scan Dropping output.
Proof.
  unfold _cleanup_juju_output, Re.sub.
  by rewrite (cleanup_loop_scan (String.length output)).
Qed.

Lemma scan_idempotent st s : scan st (scan st s) = scan st s.
Proof.
  revert st. induction s as [|c s IH]; intros st; [done|].
  destruct st; simpl.
  - destruct (bool_decide (c = "{"%char)) eqn:Hc; simpl; [|apply IH].
    rewrite Hc. f_equal. apply IH.
  - f_equal. apply IH.
Qed.

Lemma scan_length st s : (String.length (scan st s) ≤ String.length s)%nat.
Proof.
  revert st. induction s as [|c s IH]; intros st; [done|].
  destruct st; simpl.
  - destruct (bool_decide (c = "{"%char)); simpl.
    + specialize (IH Keeping). lia.
    + specialize (IH Dropping). lia.
  - specialize (IH (if bool_decide (c = Re.newline) then Dropping else Keeping)). lia.
Qed.

Lemma scan_fixed_iff st s : scan st s = s ↔ clean_from st s = true.
Proof.
  revert st. induction s as [|c s IH]; intros st; [done|].
  destruct st; simpl.
  - destruct (bool_decide (c = "{"%char)); simpl.
    + rewrite <- IH. split; [by intros [= ->]|by intros ->].
    + split; [|done]. intros H. pose proof (scan_length Dropping s) as Hlen.
      rewrite H in Hlen. simpl in Hlen. lia.
  - rewrite <- IH. split; [by intros [= ->]|by intros ->].
Qed.

Lemma scan_clean st s : clean_from st (scan st s) = true.
Proof. apply scan_fixed_iff, scan_idempotent. Qed.

(** C5.  The normaliser is idempotent: normalising its own output
    changes nothing.  Its outputs are the texts in which every line
    starts with "{", and these are exactly the texts it returns
    unchanged. *)
Theorem cleanup_idempotent (output : string) :
  _cleanup_juju_output (_cleanup_juju_output output) = _cleanup_juju_output output ∧
  clean (_cleanup_juju_output output) = true ∧
  (clean output = true ↔ _cleanup_juju_output output = output).
Proof.
  rewrite !cleanup_is_scan. split_and!.
  - apply scan_idempotent.
  - apply scan_clean.
  - symmetry. apply scan_fixed_iff.
Qed.

Lemma cleanup_idempotent_witness :
  clean "{}" = true ∧ _cleanup_juju_output "{}" = "{}".
Proof.
  split; [reflexivity|].
  apply (proj1 (proj2 (proj2 (cleanup_idempotent "{}")))). reflexivity.
Defined.

Lemma scan_dropping_prefix pre s :
  free_of "{" pre = true → scan Dropping (pre +:+ s) = scan Dropping s.
Proof.
  induction pre as [|c pre IH]; [done|]. simpl.
  intros [Hc%negb_true_iff Hpre]%andb_true_iff. rewrite Hc. by apply IH.
Qed.

Lemma scan_keeping_line_only body :
  free_of Re.newline body = true → scan Keeping body = body.
Proof.
  induction body as [|c body IH]; [done|]. simpl.
  intros [Hc%negb_true_iff Hbody]%andb_true_iff. rewrite Hc. f_equal. by apply IH.
Qed.

(** What C4 says holds for a payload of one line: the text before its
    first "{" is dropped, leading lines included, and the payload is
    returned as it is. *)
Lemma cleanup_single_line pre body :
  free_of "{" pre = true → free_of Re.newline body = true →
  _cleanup_juju_output (pre +:+ String "{" body) = String "{" body.
Proof.
  intros Hpre Hbody. rewrite cleanup_is_scan, scan_dropping_prefix by done.
  simpl. f_equal. by apply scan_keeping_line_only.
Qed.

(** C4 fails on the code.  On a payload of two lines the normaliser
    also drops what precedes the first "{" of the second line, so the
    text it returns is not the text from the first "{" on. *)
Theorem cleanup_cuts_later_lines :
  _cleanup_juju_output Examples.payload_two_lines = Examples.payload_cut ∧
  Examples.payload_cut ≠ Examples.payload_two_lines.
Proof. split; [by vm_compute|]. by vm_compute. Qed.

(** ** The documents that the indexer accepts *)

Lemma item_key_error {A} key (v : option A) : raises_key_error (item key v).
Proof. intros e ->%item_raise. eauto. Qed.

Lemma bind_key_error {A B} (m : result A) (f : A → result B) :
  raises_key_error m → (∀ a, raises_key_error (f a)) → raises_key_error (m ≫= f).
Proof.
  intros Hm Hf e [H|(a & _ & H)]%bind_raise; [by apply Hm|by apply (Hf a)].
Qed.

Lemma foldM_key_error {A B} (f : B → A → result B) b l :
  (∀ a x, raises_key_error (f a x)) → raises_key_error (foldM f b l).
Proof. intros Hf e (a & x & _ & H)%foldM_raise. by apply (Hf a x). Qed.

Lemma ok_key_error {A} (a : A) : raises_key_error (Ok a).
Proof. by intros e. Qed.

Lemma index_status_key_error juju_status model_name :
  raises_key_error (index_status juju_status model_name).
Proof.
  unfold index_status.
  apply bind_key_error.
  - apply foldM_key_error. intros index [app app_info]. unfold add_principal_app.
    apply bind_key_error; [|intros [??]; apply ok_key_error].
    apply foldM_key_error. intros [??] [unit unit_info]. unfold add_principal_unit.
    apply bind_key_error; [apply item_key_error|intros; apply ok_key_error].
  - intros index. apply bind_key_error; [|intros; apply ok_key_error].
    apply foldM_key_error. intros index' [app app_info]. unfold add_subordinate_app.
    apply foldM_key_error. intros index'' parent. unfold add_subordinate_parent.
    repeat (apply bind_key_error; [apply item_key_error|intros ?]).
    apply foldM_key_error. intros ? [unit unit_info]. unfold add_subordinate_unit.
    apply bind_key_error; [apply item_key_error|intros; apply ok_key_error].
Qed.

Lemma add_subordinate_parent_ok juju_status model_name app index parent index' :
  add_subordinate_parent juju_status model_name app index parent = Ok index' →
  parent_ok juju_status parent = true.
Proof.
  unfold add_subordinate_parent, parent_ok. intros H.
  apply bind_ok in H as (app_nodes & _ & H).
  apply bind_ok in H as (parent_nodes & _ & H).
  apply bind_ok in H as (parent_info & ->%item_ok & H).
  apply bind_ok in H as (us & ->%item_ok & _).
  by apply bool_decide_eq_true.
Qed.

Lemma index_status_parents_ok juju_status model_name index :
  index_status juju_status model_name = Ok index → parents_ok juju_status = true.
Proof.
  intros (i1 & i2 & _ & H & _)%index_status_inv.
  unfold parents_ok. apply forallb_forall. intros a Ha%list_elem_of_In.
  revert a Ha. apply Forall_forall.
  apply (foldM_ok_step _ _ _ _ i2) with (2 := H).
  intros b [app app_info] b' _ Happ. simpl.
  apply forallb_forall. intros parent Hp%list_elem_of_In.
  revert parent Hp. apply Forall_forall.
  apply (foldM_ok_step _ _ _ _ b') with (2 := Happ).
  intros c parent c' _ Hp. by eapply add_subordinate_parent_ok.
Qed.

(** C10.  Indexing returns only for documents in which every name of a
    [subordinate-to] list is an application with a [units] key: on every
    other document it raises a lookup error. *)
Theorem index_status_requires_parents juju_status model_name :
  parents_ok juju_status = false →
  ∃ k, index_status juju_status model_name = Raise (KeyError k).
Proof.
  intros Hno. destruct (index_status juju_status model_name) as [index|e] eqn:H.
  - apply index_status_parents_ok in H. congruence.
  - destruct (index_status_key_error _ _ _ H) as [k ->]. eauto.
Qed.

Lemma index_status_requires_parents_witness :
  parents_ok Examples.doc_chain = false ∧
  ∃ k, index_status Examples.doc_chain "g" = Raise (KeyError k).
Proof.
  split; [reflexivity|].
  apply (index_status_requires_parents Examples.doc_chain "g"). reflexivity.
Defined.

Example index_status_chain :
  index_status Examples.doc_chain "g" = Raise (KeyError "units").
Proof. reflexivity. Qed.

Section Acceptance.
Variable juju_status : StatusDocument.
Variable g : string.

Lemma unit_has_machine u unit_info :
  units_have_machines juju_status = true →
  (u, unit_info) ∈ all_units juju_status →
  ∃ m, machine unit_info = Some m.
Proof.
  unfold units_have_machines. rewrite forallb_forall.
  intros H Hu%list_elem_of_In. by apply H, bool_decide_eq_true in Hu.
Qed.

Lemma principals_return index :
  units_have_machines juju_status = true →
  ∃ i1, _add_principals_to_index index juju_status g = Ok i1.
Proof.
  intros Hmachines.
  destruct (foldM_returns (add_principal_app g) (λ _, True)
              (applications juju_status) index I) as (i1 & H1 & _); [|by exists i1].
  intros a [app app_info] Happ _. unfold add_principal_app.
  destruct (foldM_returns (add_principal_unit g) (λ _, True)
              (default [] (units app_info)) (a, []) I) as ([i ns] & H & _).
  - intros [i ns] [u ui] Hu _.
    destruct (unit_has_machine u ui Hmachines) as [m Hm].
    { apply elem_of_all_units.
      destruct (units app_info) as [us|] eqn:Hus; [|by apply elem_of_nil in Hu].
      by exists app, app_info, us. }
    unfold add_principal_unit. rewrite Hm. simpl. eauto.
  - rewrite H. simpl. eauto.
Qed.

Lemma principals_need_machines index i1 :
  _add_principals_to_index index juju_status g = Ok i1 →
  units_have_machines juju_status = true.
Proof.
  intros H. unfold units_have_machines. apply forallb_forall.
  intros [u ui] (app & app_info & us & Happ & Hus & Hu)%list_elem_of_In%elem_of_all_units.
  simpl. apply bool_decide_eq_true.
  assert (Forall (λ a : string * AppInfo,
            ∀ u ui, (u, ui) ∈ default [] (units a.2) → is_Some (machine ui))
            (applications juju_status)) as Hall.
  { apply (foldM_ok_step _ _ _ _ i1) with (2 := H).
    intros a [app' info'] a' _ (i & ns & Hunits & _)%add_principal_app_inv. simpl.
    intros u' ui' Hu'.
    assert (Forall (λ e : string * UnitInfo, is_Some (machine e.2))
              (default [] (units info'))) as Hus'.
    { apply (foldM_ok_step _ _ _ _ (i, ns)) with (2 := Hunits).
      intros [??] [??] [??] _ (m & Hm & _)%add_principal_unit_inv. simpl. eauto. }
    by apply (proj1 (Forall_forall _ _) Hus' (u', ui')). }
  apply (proj1 (Forall_forall _ _) Hall (app, app_info) Happ u ui). simpl.
  by rewrite Hus.
Qed.

Lemma principals_apps_keys index i1 app app_info :
  (app, app_info) ∈ applications juju_status →
  _add_principals_to_index index juju_status g = Ok i1 →
  is_Some (idx_get "apps" i1 !! app).
Proof.
  intros Happ.
  apply (foldM_establish (add_principal_app g) (λ _, True)
           (λ i, is_Some (idx_get "apps" i !! app)) (app, app_info)); try done.
  - intros a [app' info'] a' _ _ Ha (nodes & Ha' & _)%add_principal_app_apps.
    rewrite Ha'. destruct (decide (app' = app)) as [->|Hne].
    + by rewrite lookup_insert_eq.
    + by rewrite lookup_insert_ne.
  - intros a a' _ (nodes & Ha' & _)%add_principal_app_apps.
    by rewrite Ha', lookup_insert_eq.
Qed.

Lemma subordinates_return i1 :
  parents_ok juju_status = true →
  units_have_machines juju_status = true →
  apps_recorded juju_status i1 →
  ∃ i2, _add_subordinates_to_index i1 juju_status g = Ok i2.
Proof.
  intros Hparents Hmachines Hrec.
  destruct (foldM_returns (add_subordinate_app juju_status g)
              (apps_recorded juju_status)
              (applications juju_status) i1 Hrec) as (i2 & H2 & _); [|by exists i2].
  intros a [app app_info] Happ Ha. unfold add_subordinate_app.
  apply (foldM_returns (add_subordinate_parent juju_status g app)
           (apps_recorded juju_status)); [done|].
  intros b parent Hparent Hb.
  assert (parent_ok juju_status parent = true) as Hok.
  { unfold parents_ok in Hparents. rewrite forallb_forall in Hparents.
    apply list_elem_of_In in Happ. specialize (Hparents _ Happ). simpl in Hparents.
    rewrite forallb_forall in Hparents. by apply Hparents, list_elem_of_In. }
  unfold parent_ok in Hok.
  destruct (dict_get parent (applications juju_status)) as [parent_info|] eqn:Hget;
    [|done].
  apply bool_decide_eq_true in Hok as [us Hus].
  destruct (Hb app app_info Happ) as [app_nodes Happ_nodes].
  destruct (Hb parent parent_info (dict_get_elem_of _ _ _ Hget))
    as [parent_nodes Hparent_nodes].
  unfold add_subordinate_parent.
  rewrite Happ_nodes. simpl. rewrite Hparent_nodes. simpl.
  rewrite Hget. simpl. rewrite Hus. simpl.
  set (b0 := idx_set "apps" app (app_nodes ++ parent_nodes) b).
  destruct (foldM_returns (add_subordinate_unit g app) (λ _, True) us b0 I)
    as (b' & Hb' & _).
  - intros c [u ui] Hu _.
    destruct (unit_has_machine u ui Hmachines) as [m Hm].
    { apply elem_of_all_units. exists parent, parent_info, us.
      split_and!; [by apply dict_get_elem_of|done..]. }
    unfold add_subordinate_unit. rewrite Hm. simpl. eauto.
  - exists b'. split; [done|].
    intros app' info' Happ'.
    rewrite (subordinate_units_other "apps" g app us b0 b') by done.
    unfold b0. rewrite idx_get_set.
    destruct (decide (app = app')) as [->|Hne].
    + by rewrite lookup_insert_eq.
    + rewrite lookup_insert_ne by done. by apply (Hb app' info').
Qed.

(** The indexer returns an index exactly on the documents in which every
    unit has a machine and every name of a [subordinate-to] list is an
    application with a [units] key. *)
Lemma index_status_returns_iff :
  is_ok (index_status juju_status g) = true
  ↔ parents_ok juju_status = true ∧ units_have_machines juju_status = true.
Proof.
  split.
  - destruct (index_status juju_status g) as [index|] eqn:H; [|done]. intros _.
    split; [by apply (index_status_parents_ok _ _ _ H)|].
    apply index_status_inv in H as (i1 & _ & H1 & _).
    by apply (principals_need_machines ∅ i1).
  - intros [Hparents Hmachines]. unfold index_status.
    destruct (principals_return ∅ Hmachines) as [i1 H1]. rewrite H1. simpl.
    destruct (subordinates_return i1 Hparents Hmachines) as [i2 H2].
    { intros app app_info Happ. by apply (principals_apps_keys ∅ i1 app app_info). }
    by rewrite H2.
Qed.

End Acceptance.

(** * Further properties of the profile *)

(** ** Every entry of the index comes from the document *)

Lemma entry_ok_apps juju_status g name nodes :
  entry_ok juju_status g "apps" name nodes
  ↔ name ∈ dict_keys (applications juju_status) ∧
    ∀ n, n ∈ nodes → ∃ m, n = node_of g m ∧ m ∈ unit_machines juju_status.
Proof. unfold entry_ok. by rewrite decide_True. Qed.

Lemma entry_ok_units juju_status g name nodes :
  entry_ok juju_status g "units" name nodes
  ↔ ∃ unit_info m,
      (name, unit_info) ∈ all_units juju_status ++ hosted_units juju_status ∧
      machine unit_info = Some m ∧ nodes = [node_of g m].
Proof. unfold entry_ok. by rewrite decide_False, decide_True. Qed.

Lemma entry_ok_machines juju_status g name nodes :
  entry_ok juju_status g "machines" name nodes
  ↔ name ∈ indexed_machines juju_status ∧ nodes = [node_of g name].
Proof. unfold entry_ok. by rewrite decide_False, decide_False, decide_True. Qed.

Lemma sound_empty juju_status g : sound_index juju_status g ∅.
Proof. intros key name nodes. unfold idx_get. by rewrite lookup_empty. Qed.

Lemma idx_set_sound juju_status g key name nodes index :
  sound_index juju_status g index →
  entry_ok juju_status g key name nodes →
  sound_index juju_status g (idx_set key name nodes index).
Proof.
  intros Hsound Hentry key' name' nodes'.
  destruct (decide (key = key')) as [<-|Hkey].
  - rewrite idx_get_set. destruct (decide (name = name')) as [<-|Hname].
    + rewrite lookup_insert_eq. by intros [= <-].
    + rewrite lookup_insert_ne by done. apply Hsound.
  - rewrite idx_get_set_ne by done. apply Hsound.
Qed.

Lemma unit_machine_elem juju_status u unit_info m :
  (u, unit_info) ∈ all_units juju_status → machine unit_info = Some m →
  m ∈ unit_machines juju_status.
Proof.
  intros Hu Hm. unfold unit_machines. apply list_elem_of_omap. by exists (u, unit_info).
Qed.

Lemma units_elem_all juju_status app app_info u unit_info :
  (app, app_info) ∈ applications juju_status →
  (u, unit_info) ∈ default [] (units app_info) →
  (u, unit_info) ∈ all_units juju_status.
Proof.
  intros Happ Hu. apply elem_of_all_units.
  destruct (units app_info) as [us|] eqn:Hus; [|by apply elem_of_nil in Hu].
  by exists app, app_info, us.
Qed.

Lemma foldl_invariant {A B} (f : B → A → B) (I : B → Prop) l b :
  (∀ a x, x ∈ l → I a → I (f a x)) → I b → I (foldl f b l).
Proof.
  revert b. induction l as [|x l IH]; intros b Hstep Hb; [done|]. simpl.
  apply IH.
  - intros a y Hy. apply Hstep. by apply list_elem_of_further.
  - apply Hstep; [apply list_elem_of_here|done].
Qed.

Section Soundness.
Variable juju_status : StatusDocument.
Variable g : string.

Lemma add_principal_unit_sound acc u unit_info acc' :
  (u, unit_info) ∈ all_units juju_status →
  sound_acc juju_status g acc →
  add_principal_unit g acc (u, unit_info) = Ok acc' →
  sound_acc juju_status g acc'.
Proof.
  destruct acc as [index nodes], acc' as [index' nodes'].
  intros Hu [Hindex Hnodes] (m & Hm & -> & ->)%add_principal_unit_inv.
  pose proof (unit_machine_elem _ _ _ _ Hu Hm) as Hin.
  split; simpl.
  - apply idx_set_sound; [apply idx_set_sound; [done|]|].
    + apply entry_ok_units. exists unit_info, m.
      split_and!; [apply elem_of_app; by left|done..].
    + apply entry_ok_machines. split; [|done].
      unfold indexed_machines. apply elem_of_app. by left.
  - intros n [Hn|Hn%list_elem_of_singleton]%elem_of_app; [by apply Hnodes|].
    by exists m.
Qed.

Lemma add_principal_app_sound index app app_info index' :
  (app, app_info) ∈ applications juju_status →
  sound_index juju_status g index →
  add_principal_app g index (app, app_info) = Ok index' →
  sound_index juju_status g index'.
Proof.
  intros Happ Hindex (index1 & nodes & H & ->)%add_principal_app_inv.
  assert (sound_acc juju_status g (index1, nodes)) as [Hindex1 Hnodes].
  { apply (foldM_invariant (add_principal_unit g) (sound_acc juju_status g)
             (default [] (units app_info)) (index, [])); [| |done].
    - intros acc [u ui] acc' Hu Hacc Hstep.
      apply (add_principal_unit_sound acc u ui acc'); [|done..].
      by apply (units_elem_all _ app app_info).
    - split; [done|]. by intros n ?%elem_of_nil. }
  apply idx_set_sound; [done|]. apply entry_ok_apps. split; [|done].
  by apply (list_elem_of_fmap_2 fst _ (app, app_info)).
Qed.

Lemma principals_sound index index' :
  sound_index juju_status g index →
  _add_principals_to_index index juju_status g = Ok index' →
  sound_index juju_status g index'.
Proof.
  intros Hindex.
  apply (foldM_invariant (add_principal_app g) (sound_index juju_status g)); [|done].
  intros a [app app_info] a' Happ Ha Hstep.
  by apply (add_principal_app_sound a app app_info a').
Qed.

Lemma hosted_units_elem app app_info parent parent_info us u unit_info sk :
  (app, app_info) ∈ applications juju_status →
  parent ∈ default [] (subordinate_to app_info) →
  dict_get parent (applications juju_status) = Some parent_info →
  units parent_info = Some us →
  (u, unit_info) ∈ us →
  sk ∈ sub_keys unit_info →
  Py.startswith sk (app +:+ "/") = true →
  (sk, unit_info) ∈ hosted_units juju_status.
Proof.
  intros Happ Hparent Hget Hus Hu Hsk Hpre. unfold hosted_units.
  apply list_elem_of_bind. exists (app, app_info). split; [|done].
  apply list_elem_of_bind. exists parent. split; [|done].
  apply list_elem_of_bind. exists (u, unit_info). split.
  - apply list_elem_of_bind. exists sk. split; [apply list_elem_of_here|].
    apply list_elem_of_In, filter_In. split; [by apply list_elem_of_In|done].
  - unfold units_of. rewrite Hget. simpl. by rewrite Hus.
Qed.

Lemma add_subordinate_parent_sound index app app_info parent index' :
  (app, app_info) ∈ applications juju_status →
  parent ∈ default [] (subordinate_to app_info) →
  sound_index juju_status g index →
  add_subordinate_parent juju_status g app index parent = Ok index' →
  sound_index juju_status g index'.
Proof.
  intros Happ Hparent Hindex
    (app_nodes & parent_nodes & parent_info & us & Ha & Hp & Hget & Hus & H)
    %add_subordinate_parent_inv.
  apply (foldM_invariant (add_subordinate_unit g app) (sound_index juju_status g) us
           (idx_set "apps" app (app_nodes ++ parent_nodes) index)); [| |done].
  - intros a [u ui] a' Hu Hsound (m & Hm & ->)%add_subordinate_unit_inv.
    apply foldl_invariant; [|done].
    intros b [sk sv] Hsk Hb. unfold add_subordinate_key.
    destruct (Py.startswith sk (app +:+ "/")) eqn:Hpre; [|done].
    apply idx_set_sound; [done|]. apply entry_ok_units. exists ui, m.
    split_and!; [|done..]. apply elem_of_app. right.
    apply (hosted_units_elem app app_info parent parent_info us u ui sk); try done.
    unfold sub_keys, dict_keys. by apply (list_elem_of_fmap_2 fst _ (sk, sv)).
  - apply idx_set_sound; [done|].
    apply Hindex, entry_ok_apps in Ha as [Hkey Ha].
    apply Hindex, entry_ok_apps in Hp as [_ Hp].
    apply entry_ok_apps. split; [done|].
    intros n [?|?]%elem_of_app; [by apply Ha|by apply Hp].
Qed.

Lemma subordinates_sound index index' :
  sound_index juju_status g index →
  _add_subordinates_to_index index juju_status g = Ok index' →
  sound_index juju_status g index'.
Proof.
  intros Hindex.
  apply (foldM_invariant (add_subordinate_app juju_status g)
           (sound_index juju_status g)); [|done].
  intros a [app app_info] a' Happ Ha Hstep. unfold add_subordinate_app in Hstep.
  apply (foldM_invariant (add_subordinate_parent juju_status g app)
           (sound_index juju_status g) (default [] (subordinate_to app_info)) a a');
    [|done..].
  intros b parent b' Hparent Hb Hp.
  by apply (add_subordinate_parent_sound b app app_info parent b').
Qed.

Lemma machines_sound index :
  sound_index juju_status g index →
  sound_index juju_status g (_add_machines_to_index index juju_status g).
Proof.
  intros Hindex. unfold _add_machines_to_index. apply foldl_invariant; [|done].
  intros a m Hm Ha. apply idx_set_sound; [done|]. apply entry_ok_machines.
  split; [|done]. unfold indexed_machines. apply elem_of_app. by right.
Qed.

Lemma index_status_sound index :
  index_status juju_status g = Ok index → sound_index juju_status g index.
Proof.
  intros (i1 & i2 & H1 & H2 & ->)%index_status_inv.
  apply machines_sound, (subordinates_sound i1 i2); [|done].
  apply (principals_sound ∅ i1); [apply sound_empty|done].
Qed.

End Soundness.

(** ** The passes only add entries *)

Lemma grows_refl index : grows index index.
Proof. by intros key name. Qed.

Lemma grows_trans i1 i2 i3 : grows i1 i2 → grows i2 i3 → grows i1 i3.
Proof. intros H12 H23 key name H. by apply H23, H12. Qed.

Lemma idx_set_grows key name nodes index : grows index (idx_set key name nodes index).
Proof.
  intros key' name' H. destruct (decide (key = key')) as [<-|Hkey].
  - rewrite idx_get_set. destruct (decide (name = name')) as [<-|Hname].
    + by rewrite lookup_insert_eq.
    + by rewrite lookup_insert_ne.
  - by rewrite idx_get_set_ne.
Qed.

Lemma idx_set_recorded key name nodes index :
  is_Some (idx_get key (idx_set key name nodes index) !! name).
Proof. by rewrite idx_get_set, lookup_insert_eq. Qed.

Lemma foldM_grows {A} (f : Index → A → result Index) l index index' :
  (∀ a x a', x ∈ l → f a x = Ok a' → grows a a') →
  foldM f index l = Ok index' → grows index index'.
Proof.
  intros Hstep.
  apply (foldM_invariant f (grows index)); [|apply grows_refl].
  intros a x a' Hx Ha Hf. apply (grows_trans _ a); [done|]. by apply (Hstep a x a').
Qed.

Lemma add_principal_unit_grows g acc u acc' :
  add_principal_unit g acc u = Ok acc' → grows acc.1 acc'.1.
Proof.
  destruct acc as [i ns], acc' as [i' ns'], u as [u ui].
  intros (m & _ & _ & ->)%add_principal_unit_inv. simpl.
  apply (grows_trans _ (idx_set "units" u [node_of g m] i)); apply idx_set_grows.
Qed.

Lemma principal_units_grow g us acc acc' :
  foldM (add_principal_unit g) acc us = Ok acc' → grows acc.1 acc'.1.
Proof.
  apply (foldM_invariant (add_principal_unit g) (λ a, grows acc.1 a.1));
    [|apply grows_refl].
  intros a x a' _ Ha Hstep. apply (grows_trans _ a.1); [done|].
  by apply (add_principal_unit_grows g a x a').
Qed.

Lemma add_principal_app_grows g index a index' :
  add_principal_app g index a = Ok index' → grows index index'.
Proof.
  destruct a as [app app_info].
  intros (index1 & nodes & H & ->)%add_principal_app_inv.
  apply (grows_trans _ index1); [|apply idx_set_grows].
  by apply principal_units_grow in H.
Qed.

Lemma principals_grow juju_status g index index' :
  _add_principals_to_index index juju_status g = Ok index' → grows index index'.
Proof. apply foldM_grows. intros a x a' _. apply add_principal_app_grows. Qed.

Lemma add_subordinate_unit_grows g app index u index' :
  add_subordinate_unit g app index u = Ok index' → grows index index'.
Proof.
  destruct u as [u ui]. intros (m & _ & ->)%add_subordinate_unit_inv.
  apply (foldl_invariant _ (grows index)); [|apply grows_refl].
  intros a [sk sv] _ Ha. unfold add_subordinate_key.
  destruct (Py.startswith sk (app +:+ "/")); [|done].
  apply (grows_trans _ a); [done|apply idx_set_grows].
Qed.

Lemma add_subordinate_parent_grows juju_status g app index parent index' :
  add_subordinate_parent juju_status g app index parent = Ok index' →
  grows index index'.
Proof.
  intros (app_nodes & parent_nodes & parent_info & us & _ & _ & _ & _ & H)
    %add_subordinate_parent_inv.
  apply (grows_trans _ (idx_set "apps" app (app_nodes ++ parent_nodes) index));
    [apply idx_set_grows|].
  apply (foldM_grows _ _ _ _ (λ a x a' _, add_subordinate_unit_grows g app a x a') H).
Qed.

Lemma add_subordinate_app_grows juju_status g index a index' :
  add_subordinate_app juju_status g index a = Ok index' → grows index index'.
Proof.
  destruct a as [app app_info]. unfold add_subordinate_app.
  apply foldM_grows. intros b p b' _. apply add_subordinate_parent_grows.
Qed.

Lemma subordinates_grow juju_status g index index' :
  _add_subordinates_to_index index juju_status g = Ok index' → grows index index'.
Proof. apply foldM_grows. intros a x a' _. apply add_subordinate_app_grows. Qed.

Lemma machines_grow juju_status g index :
  grows index (_add_machines_to_index index juju_status g).
Proof.
  unfold _add_machines_to_index.
  apply (foldl_invariant _ (grows index)); [|apply grows_refl].
  intros a m _ Ha. apply (grows_trans _ a); [done|apply idx_set_grows].
Qed.

(** ** Every unit and every hosted subordinate is recorded *)

Section Completeness.
Variable juju_status : StatusDocument.
Variable g : string.

Lemma principals_record_unit i0 i1 u unit_info :
  (u, unit_info) ∈ all_units juju_status →
  _add_principals_to_index i0 juju_status g = Ok i1 →
  is_Some (idx_get "units" i1 !! u) ∧
  ∃ m, machine unit_info = Some m ∧ is_Some (idx_get "machines" i1 !! m).
Proof.
  intros (app & app_info & us & Happ & Hus & Hu)%elem_of_all_units.
  set (Q := λ i : Index,
    is_Some (idx_get "units" i !! u) ∧
    ∃ m, machine unit_info = Some m ∧ is_Some (idx_get "machines" i !! m)).
  assert (∀ a a', grows a a' → Q a → Q a') as Hkeep.
  { intros a a' Hgrow [Hunit (m & Hm & Hmachine)]. split; [by apply Hgrow|].
    exists m. split; [done|by apply Hgrow]. }
  apply (foldM_establish (add_principal_app g) (λ _, True) Q (app, app_info));
    try done.
  - intros a y a' _ _ Ha Hstep. apply (Hkeep a); [|done].
    by apply (add_principal_app_grows g a y a').
  - intros a a' _ (index1 & nodes & H & ->)%add_principal_app_inv.
    apply (Hkeep index1); [apply idx_set_grows|]. rewrite Hus in H. simpl in H.
    apply (foldM_establish (add_principal_unit g) (λ _, True) (λ acc, Q acc.1)
             (u, unit_info) us (a, []) (index1, nodes)); try done.
    + intros b y b' _ _ Hb Hstep. apply (Hkeep b.1); [|done].
      by apply (add_principal_unit_grows g b y b').
    + intros [b ns] [b' ns'] _ (m & Hm & _ & ->)%add_principal_unit_inv. simpl.
      split.
      * apply idx_set_grows, idx_set_recorded.
      * exists m. split; [done|apply idx_set_recorded].
Qed.

Lemma elem_of_hosted_units k unit_info :
  (k, unit_info) ∈ hosted_units juju_status
  ↔ ∃ app app_info parent parent_info us u,
      (app, app_info) ∈ applications juju_status ∧
      parent ∈ default [] (subordinate_to app_info) ∧
      dict_get parent (applications juju_status) = Some parent_info ∧
      units parent_info = Some us ∧ (u, unit_info) ∈ us ∧
      k ∈ sub_keys unit_info ∧ Py.startswith k (app +:+ "/") = true.
Proof.
  split.
  - unfold hosted_units.
    intros ([app app_info] & Hk & Happ)%list_elem_of_bind.
    apply list_elem_of_bind in Hk as (parent & Hk & Hparent).
    apply list_elem_of_bind in Hk as ([u ui] & Hk & Hu).
    apply list_elem_of_bind in Hk as (sk & Hk & Hsk).
    apply list_elem_of_singleton in Hk. simplify_eq.
    apply list_elem_of_In, filter_In in Hsk as [Hsk%list_elem_of_In Hpre].
    unfold units_of in Hu. simpl in *.
    destruct (dict_get parent (applications juju_status)) as [parent_info|] eqn:Hget;
      [|by apply elem_of_nil in Hu].
    simpl in Hu. destruct (units parent_info) as [us|] eqn:Hus;
      [|by apply elem_of_nil in Hu].
    by exists app, app_info, parent, parent_info, us, u.
  - intros (app & app_info & parent & parent_info & us & u & ? & ? & ? & ? & ? & ? & ?).
    by apply (hosted_units_elem juju_status app app_info parent parent_info us u).
Qed.

Lemma subordinates_record_hosted i1 i2 k unit_info :
  (k, unit_info) ∈ hosted_units juju_status →
  _add_subordinates_to_index i1 juju_status g = Ok i2 →
  is_Some (idx_get "units" i2 !! k).
Proof.
  intros (app & app_info & parent & parent_info & us & u & Happ & Hparent & Hget & Hus
          & Hu & Hk & Hpre)%elem_of_hosted_units.
  set (Q := λ i : Index, is_Some (idx_get "units" i !! k)).
  apply (foldM_establish (add_subordinate_app juju_status g) (λ _, True) Q
           (app, app_info)); try done.
  - intros a y a' _ _ Ha Hstep.
    by apply (add_subordinate_app_grows juju_status g a y a' Hstep).
  - intros a a' _ Hstep. unfold add_subordinate_app in Hstep.
    apply (foldM_establish (add_subordinate_parent juju_status g app) (λ _, True) Q
             parent (default [] (subordinate_to app_info)) a a'); try done.
    + intros b y b' _ _ Hb Hp.
      by apply (add_subordinate_parent_grows juju_status g app b y b' Hp).
    + intros b b' _ (app_nodes & parent_nodes & parent_info' & us' & _ & _ & Hget' & Hus'
                     & H)%add_subordinate_parent_inv.
      rewrite Hget in Hget'. simplify_eq.
      apply (foldM_establish (add_subordinate_unit g app) (λ _, True) Q (u, unit_info)
               us (idx_set "apps" app (app_nodes ++ parent_nodes) b) b'); try done.
      * intros c y c' _ _ Hc Hstep'.
        by apply (add_subordinate_unit_grows g app c y c' Hstep').
      * intros c c' _ (m & _ & ->)%add_subordinate_unit_inv. unfold Q.
        rewrite add_subordinate_keys_units.
        unfold sub_keys in Hk. by rewrite (bool_decide_eq_true_2 _ Hk), Hpre.
Qed.

Lemma hosted_unit_is_a_unit k unit_info :
  (k, unit_info) ∈ hosted_units juju_status →
  ∃ u, (u, unit_info) ∈ all_units juju_status.
Proof.
  intros (app & app_info & parent & parent_info & us & u & _ & _ & Hget & Hus & Hu & _)
    %elem_of_hosted_units.
  exists u. apply elem_of_all_units. exists parent, parent_info, us.
  split_and!; [by apply dict_get_elem_of|done..].
Qed.

End Completeness.

(** ** The three categories of an index, exactly *)

(** X1.  The keys of the [apps] category of an index are exactly the
    names of the applications of the document, whether or not an
    application has units. *)
Theorem apps_category_keys (juju_status : StatusDocument) (g : string) (index : Index) :
  index_status juju_status g = Ok index →
  dom (idx_get "apps" index) = list_to_set (dict_keys (applications juju_status)).
Proof.
  intros Hindex. apply set_eq. intros a.
  rewrite elem_of_dom, elem_of_list_to_set. split.
  - intros [nodes Hnodes].
    by apply (index_status_sound _ _ _ Hindex), entry_ok_apps in Hnodes as [Hkey _].
  - intros ([a' app_info] & -> & Ha)%list_elem_of_fmap.
    apply index_status_inv in Hindex as (i1 & i2 & H1 & H2 & ->).
    apply machines_grow, (subordinates_grow _ _ _ _ H2).
    by apply (principals_apps_keys juju_status g ∅ i1 a' app_info).
Qed.

Lemma apps_category_keys_witness :
  ∃ index, index_status Examples.doc_lonely "g" = Ok index ∧
           dom (idx_get "apps" index) = {[ "A" ]}.
Proof.
  eexists. split; [reflexivity|].
  rewrite (apps_category_keys Examples.doc_lonely "g" _ eq_refl). reflexivity.
Defined.

(** X2.  The [machines] category of an index holds exactly the machines
    of the units and the machines of the [machines] section of the
    document, each mapped to the one node of that machine. *)
Theorem machines_category_exact
    (juju_status : StatusDocument) (g m : string) (index : Index) :
  index_status juju_status g = Ok index →
  idx_get "machines" index !! m
  = if bool_decide (m ∈ indexed_machines juju_status)
    then Some [node_of g m] else None.
Proof.
  intros Hindex. pose proof (index_status_sound _ _ _ Hindex) as Hsound.
  case_bool_decide as Hm.
  - assert (is_Some (idx_get "machines" index !! m)) as [nodes Hnodes].
    { apply index_status_inv in Hindex as (i1 & i2 & H1 & H2 & ->).
      apply elem_of_app in Hm as [Hm|Hm].
      - apply list_elem_of_omap in Hm as ([u ui] & Hu & Hui). simpl in Hui.
        apply machines_grow, (subordinates_grow _ _ _ _ H2).
        destruct (principals_record_unit juju_status g ∅ i1 u ui Hu H1)
          as [_ (m' & Hm' & Hrec)].
        rewrite Hui in Hm'. by simplify_eq.
      - by rewrite add_machines_lookup. }
    rewrite Hnodes. f_equal. by apply Hsound, entry_ok_machines in Hnodes as [_ ->].
  - destruct (idx_get "machines" index !! m) as [nodes|] eqn:Hnodes; [|done].
    by apply Hsound, entry_ok_machines in Hnodes as [? _].
Qed.

Lemma machines_category_exact_witness :
  ∃ index, index_status Examples.doc_ps "g" = Ok index ∧
           idx_get "machines" index !! "3" = Some ["g:3"] ∧
           idx_get "machines" index !! "4" = None.
Proof.
  eexists. split; [reflexivity|]. split.
  - rewrite (machines_category_exact Examples.doc_ps "g" "3" _ eq_refl). reflexivity.
  - rewrite (machines_category_exact Examples.doc_ps "g" "4" _ eq_refl). reflexivity.
Defined.

(** X3.  The keys of the [units] category of an index are exactly the
    names of the units of the document and the subordinate units that a
    parent unit hosts; every entry is the one node of the machine of a
    unit of that name, or of a unit that hosts it. *)
Theorem units_category_exact
    (juju_status : StatusDocument) (g k : string) (index : Index) :
  index_status juju_status g = Ok index →
  (is_Some (idx_get "units" index !! k)
   ↔ k ∈ dict_keys (all_units juju_status ++ hosted_units juju_status)) ∧
  (∀ nodes, idx_get "units" index !! k = Some nodes →
     ∃ unit_info m,
       (k, unit_info) ∈ all_units juju_status ++ hosted_units juju_status ∧
       machine unit_info = Some m ∧ nodes = [node_of g m]).
Proof.
  intros Hindex. pose proof (index_status_sound _ _ _ Hindex) as Hsound. split.
  - split.
    + intros [nodes (ui & m & Hk & _)%Hsound%entry_ok_units].
      by apply (list_elem_of_fmap_2 fst _ (k, ui)).
    + intros ([k' ui] & -> & Hk)%list_elem_of_fmap. simpl.
      apply index_status_inv in Hindex as (i1 & i2 & H1 & H2 & ->).
      apply machines_grow. apply elem_of_app in Hk as [Hk|Hk].
      * apply (subordinates_grow _ _ _ _ H2).
        by apply (principals_record_unit juju_status g ∅ i1 k' ui).
      * by apply (subordinates_record_hosted juju_status g i1 i2 k' ui).
  - intros nodes Hnodes. by apply Hsound, entry_ok_units in Hnodes.
Qed.

Lemma units_category_exact_witness :
  ∃ index, index_status Examples.doc_ps "g" = Ok index ∧
           is_Some (idx_get "units" index !! "S/0").
Proof.
  eexists. split; [reflexivity|].
  apply (proj1 (units_category_exact Examples.doc_ps "g" "S/0" _ eq_refl)).
  by compute_done.
Defined.

Lemma idx_set_categories key name nodes (index : Index) :
  key ∈ ["apps"; "units"; "machines"] →
  categories_ok index → categories_ok (idx_set key name nodes index).
Proof.
  intros Hkey Hindex key'. unfold idx_set.
  destruct (decide (key = key')) as [<-|Hne]; [done|].
  rewrite lookup_insert_ne by done. apply Hindex.
Qed.

Lemma index_status_categories juju_status g index :
  index_status juju_status g = Ok index → categories_ok index.
Proof.
  assert ("apps" ∈ ["apps"; "units"; "machines"]) as Happs
    by apply list_elem_of_here.
  assert ("units" ∈ ["apps"; "units"; "machines"]) as Hunits
    by apply list_elem_of_further, list_elem_of_here.
  assert ("machines" ∈ ["apps"; "units"; "machines"]) as Hmachines
    by (do 2 apply list_elem_of_further; apply list_elem_of_here).
  intros (i1 & i2 & H1 & H2 & ->)%index_status_inv.
  assert (categories_ok i1) as Hi1.
  { apply (foldM_invariant (add_principal_app g) categories_ok
             (applications juju_status) ∅ i1); [| |done].
    - intros a [app app_info] a' _ Ha (index1 & nodes & H & ->)%add_principal_app_inv.
      apply idx_set_categories; [done|].
      apply (foldM_invariant (add_principal_unit g) (λ acc, categories_ok acc.1)
               (default [] (units app_info)) (a, []) (index1, nodes)); [|done..].
      intros [i ns] [u ui] [i' ns'] _ Hi (m & Hm & -> & ->)%add_principal_unit_inv.
      simpl in *. by do 2 (apply idx_set_categories; [done|]).
    - intros key. rewrite lookup_empty. by intros [? ?]. }
  assert (categories_ok i2) as Hi2.
  { apply (foldM_invariant (add_subordinate_app juju_status g) categories_ok
             (applications juju_status) i1 i2); [|done..].
    intros a [app app_info] a' _ Ha Hstep. unfold add_subordinate_app in Hstep.
    apply (foldM_invariant (add_subordinate_parent juju_status g app) categories_ok
             (default [] (subordinate_to app_info)) a a'); [|done..].
    intros b parent b' _ Hb
      (app_nodes & parent_nodes & parent_info & us & _ & _ & _ & _ & H)
      %add_subordinate_parent_inv.
    apply (foldM_invariant (add_subordinate_unit g app) categories_ok us
             (idx_set "apps" app (app_nodes ++ parent_nodes) b)); [| |done].
    - intros c [u ui] c' _ Hc (m & Hm & ->)%add_subordinate_unit_inv.
      apply foldl_invariant; [|done].
      intros d [sk sv] _ Hd. unfold add_subordinate_key.
      destruct (Py.startswith sk (app +:+ "/")); [|done].
      by apply idx_set_categories.
    - by apply idx_set_categories. }
  unfold _add_machines_to_index. apply foldl_invariant; [|done].
  intros a m _ Ha. by apply idx_set_categories.
Qed.

(** X4.  An index has no category but [apps], [units] and [machines],
    it has no entry under another category, and every node of every
    entry is [g:m] for a machine [m] of a unit or of the [machines]
    section of the document: the indexer invents no node. *)
Theorem index_nodes_come_from_the_document
    (juju_status : StatusDocument) (g : string) (index : Index) :
  index_status juju_status g = Ok index →
  (∀ key, is_Some (index !! key) → key ∈ ["apps"; "units"; "machines"]) ∧
  (∀ key name nodes,
     idx_get key index !! name = Some nodes →
     key ∈ ["apps"; "units"; "machines"] ∧
     ∀ n, n ∈ nodes → ∃ m, n = node_of g m ∧ m ∈ indexed_machines juju_status).
Proof.
  intros Hindex. split; [by apply (index_status_categories juju_status g)|].
  intros key name nodes Hnodes. split.
  - apply (index_status_categories juju_status g index Hindex).
    unfold idx_get in Hnodes. destruct (index !! key); [done|].
    simpl in Hnodes. by rewrite lookup_empty in Hnodes.
  - intros n Hn.
    apply (index_status_sound _ _ _ Hindex) in Hnodes. unfold entry_ok in Hnodes.
    unfold indexed_machines.
    repeat case_decide; [| | |done]; subst key.
    + destruct Hnodes as [_ Hnodes].
      destruct (Hnodes n Hn) as (m & -> & Hm). exists m. split; [done|].
      apply elem_of_app. by left.
    + destruct Hnodes as (ui & m & Hk & Hm & ->).
      apply list_elem_of_singleton in Hn as ->. exists m. split; [done|].
      apply elem_of_app. left.
      apply elem_of_app in Hk as [Hk|Hk].
      * by apply (unit_machine_elem _ name ui).
      * destruct (hosted_unit_is_a_unit _ _ _ Hk) as [u Hu].
        by apply (unit_machine_elem _ u ui).
    + destruct Hnodes as [Hname ->].
      apply list_elem_of_singleton in Hn as ->. by exists name.
Qed.

Lemma index_nodes_come_from_the_document_witness :
  ∃ index, index_status Examples.doc_ab "model1" = Ok index ∧
           ∃ m, "model1:1" = node_of "model1" m ∧
                m ∈ indexed_machines Examples.doc_ab.
Proof.
  eexists. split; [reflexivity|].
  refine (proj2 (proj2 (index_nodes_come_from_the_document Examples.doc_ab "model1"
                          _ eq_refl) "apps" "B" ["model1:1"] _) "model1:1" _).
  - reflexivity.
  - apply list_elem_of_here.
Defined.

(** ** The [apps] entries, exactly *)

Lemma foldM_app {A B} (f : B → A → result B) b l1 l2 :
  foldM f b (l1 ++ l2) = foldM f b l1 ≫= λ b', foldM f b' l2.
Proof.
  revert b. induction l1 as [|x l1 IH]; intros b; simpl; [done|].
  destruct (f b x); simpl; [apply IH|done].
Qed.

Lemma principal_units_nodes_exact g us acc acc' :
  foldM (add_principal_unit g) acc us = Ok acc' →
  acc'.2 = acc.2 ++ unit_nodes g us.
Proof.
  revert acc. induction us as [|[u ui] us IH]; intros [i ns] H.
  - simpl in H. simplify_eq. simpl. by rewrite app_nil_r.
  - apply foldM_cons_ok in H as ([i1 ns1] & H1 & H).
    apply add_principal_unit_inv in H1 as (m & Hm & -> & _).
    rewrite (IH _ H). unfold unit_nodes. simpl. rewrite Hm. simpl.
    by rewrite <- app_assoc.
Qed.

Lemma unit_nodes_length juju_status g app app_info :
  units_have_machines juju_status = true →
  (app, app_info) ∈ applications juju_status →
  length (unit_nodes g (default [] (units app_info)))
  = length (default [] (units app_info)).
Proof.
  intros Hmachines Happ.
  assert (∀ u ui, (u, ui) ∈ default [] (units app_info) → is_Some (machine ui)) as Hall.
  { intros u ui Hu. apply (unit_has_machine juju_status u ui Hmachines).
    by apply (units_elem_all _ app app_info). }
  induction (default [] (units app_info)) as [|[u ui] us IH]; [done|].
  unfold unit_nodes. simpl.
  destruct (Hall u ui (list_elem_of_here _ _)) as [m ->]. simpl. f_equal.
  apply IH. intros u' ui' Hu'. apply (Hall u' ui'). by apply list_elem_of_further.
Qed.

Section AppsEntries.
Variable juju_status : StatusDocument.
Variable g : string.
Hypothesis Hwf : dict_wf (applications juju_status).

Lemma principals_apps_exact i0 i1 app app_info :
  (app, app_info) ∈ applications juju_status →
  _add_principals_to_index i0 juju_status g = Ok i1 →
  idx_get "apps" i1 !! app = Some (unit_nodes g (default [] (units app_info))).
Proof.
  intros Happ.
  set (Q := λ i : Index,
    idx_get "apps" i !! app = Some (unit_nodes g (default [] (units app_info)))).
  assert (∀ i i', add_principal_app g i (app, app_info) = Ok i' → Q i') as Hest.
  { intros i i' (index1 & nodes & H & ->)%add_principal_app_inv. unfold Q.
    rewrite idx_get_set, lookup_insert_eq.
    apply principal_units_nodes_exact in H. simpl in H. by rewrite H. }
  apply (foldM_establish (add_principal_app g) (λ _, True) Q (app, app_info));
    try done; [|by eauto].
  intros i [app' info'] i' Hy _ Hq Hstep.
  destruct (decide (app' = app)) as [->|Hne].
  - rewrite (dict_wf_unique _ _ _ _ Hwf Hy Happ) in Hstep. by eapply Hest.
  - apply add_principal_app_apps in Hstep as (nodes' & Hi' & _).
    unfold Q. by rewrite Hi', lookup_insert_ne.
Qed.

(** The loop of an application leaves the [apps] entries of the other
    applications as they are. *)
Lemma add_subordinate_app_other x i app app_info i' :
  app ≠ x →
  add_subordinate_app juju_status g i (app, app_info) = Ok i' →
  idx_get "apps" i' !! x = idx_get "apps" i !! x.
Proof.
  intros Hne H. unfold add_subordinate_app in H.
  apply (foldM_invariant (add_subordinate_parent juju_status g app)
           (λ a, idx_get "apps" a !! x = idx_get "apps" i !! x)
           (default [] (subordinate_to app_info)) i i'); [|done..].
  intros b p b' _ Hb (? & ? & _ & _ & Hb')%add_subordinate_parent_apps.
  by rewrite Hb', lookup_insert_ne.
Qed.

Lemma subordinate_apps_keep x l i i' :
  (∀ app app_info, (app, app_info) ∈ l →
     app ≠ x ∨ subordinate_to app_info = None) →
  foldM (add_subordinate_app juju_status g) i l = Ok i' →
  idx_get "apps" i' !! x = idx_get "apps" i !! x.
Proof.
  intros Hl.
  apply (foldM_invariant (add_subordinate_app juju_status g)
           (λ a, idx_get "apps" a !! x = idx_get "apps" i !! x)); [|done].
  intros a [app app_info] a' Hy Ha Hstep.
  destruct (Hl app app_info Hy) as [Hne|Hnone].
  - by rewrite (add_subordinate_app_other x a app app_info a').
  - unfold add_subordinate_app in Hstep. rewrite Hnone in Hstep. simpl in Hstep.
    by simplify_eq.
Qed.

(** The loop over the parents of [app] appends the entries of the
    parents to the entry of [app]. *)
Lemma subordinate_parents_extend (L : string → list string) app parents :
  ∀ i i' nodes,
    foldM (add_subordinate_parent juju_status g app) i parents = Ok i' →
    idx_get "apps" i !! app = Some nodes →
    (∀ p, p ∈ parents → p ≠ app ∧ idx_get "apps" i !! p = Some (L p)) →
    idx_get "apps" i' !! app = Some (nodes ++ (parents ≫= L)).
Proof.
  induction parents as [|p parents IH]; intros i i' nodes H Happ Hparents.
  - simpl in H. simplify_eq. by rewrite app_nil_r.
  - apply foldM_cons_ok in H as (i1 & H1 & H).
    apply add_subordinate_parent_apps in H1
      as (app_nodes & parent_nodes & Ha & Hp & Hi1).
    destruct (Hparents p (list_elem_of_here _ _)) as [Hne HL].
    rewrite Happ in Ha. rewrite HL in Hp. simplify_eq.
    rewrite (IH i1 i' (app_nodes ++ L p) H).
    + by rewrite <- app_assoc.
    + by rewrite Hi1, lookup_insert_eq.
    + intros q Hq. destruct (Hparents q (list_elem_of_further _ _ _ Hq)) as [Hq1 Hq2].
      split; [done|]. by rewrite Hi1, lookup_insert_ne.
Qed.

End AppsEntries.

(** X5.  The [apps] entry of an application that is not a subordinate is
    the list of the nodes of its units, in the order of the document,
    one node for each unit: two units on one machine give the node
    twice. *)
Theorem principal_apps_entry
    (juju_status : StatusDocument) (g : string) (index : Index)
    (app : string) (app_info : AppInfo) :
  index_status juju_status g = Ok index →
  dict_wf (applications juju_status) →
  (app, app_info) ∈ applications juju_status →
  subordinate_to app_info = None →
  idx_get "apps" index !! app = Some (unit_nodes g (default [] (units app_info))) ∧
  length (unit_nodes g (default [] (units app_info)))
  = length (default [] (units app_info)).
Proof.
  intros Hindex Hwf Happ Hnone. split.
  - apply index_status_inv in Hindex as (i1 & i2 & H1 & H2 & ->).
    rewrite add_machines_other by done.
    apply (subordinates_keep_entry juju_status g i1 i2 app app_info); try done.
    by apply (principals_apps_exact juju_status g Hwf ∅ i1).
  - apply (unit_nodes_length juju_status g app); [|done].
    apply (index_status_returns_iff juju_status g). by rewrite Hindex.
Qed.

Lemma principal_apps_entry_witness :
  ∃ index, index_status Examples.doc_ps "g" = Ok index ∧
           idx_get "apps" index !! "P" = Some ["g:3"].
Proof.
  eexists. split; [reflexivity|].
  refine (proj1 (principal_apps_entry Examples.doc_ps "g" _ "P" Examples.app_P
                   eq_refl _ _ _)).
  - by compute_done.
  - apply list_elem_of_here.
  - reflexivity.
Defined.

(** X6.  The [apps] entry of a subordinate whose parents are not
    themselves subordinates is the list of the nodes of its own units
    followed by the nodes of the units of its parents, parent after
    parent in the order of its [subordinate-to] list. *)
Theorem subordinate_apps_entry
    (juju_status : StatusDocument) (g : string) (index : Index)
    (app : string) (app_info : AppInfo) (parents : list string) :
  index_status juju_status g = Ok index →
  dict_wf (applications juju_status) →
  (app, app_info) ∈ applications juju_status →
  subordinate_to app_info = Some parents →
  principal_parents juju_status parents = true →
  idx_get "apps" index !! app
  = Some (unit_nodes g (default [] (units app_info))
          ++ parents_nodes juju_status g parents).
Proof.
  intros (i1 & i2 & H1 & H2 & ->)%index_status_inv Hwf Happ Hparents Hprincipal.
  rewrite add_machines_other by done.
  assert (∀ p, p ∈ parents →
            ∃ parent_info, (p, parent_info) ∈ applications juju_status ∧
              subordinate_to parent_info = None ∧
              units_of juju_status p = default [] (units parent_info)) as Hparent.
  { intros p Hp. unfold principal_parents in Hprincipal.
    rewrite forallb_forall in Hprincipal.
    apply list_elem_of_In, Hprincipal in Hp. unfold units_of.
    destruct (dict_get p (applications juju_status)) as [parent_info|] eqn:Hget; [|done].
    exists parent_info. split_and!; [by apply dict_get_elem_of|by apply bool_decide_eq_true in Hp|done]. }
  assert (∀ p, p ∈ parents → p ≠ app) as Hne.
  { intros p Hp ->. destruct (Hparent app Hp) as (parent_info & Hin & Hnone & _).
    rewrite (dict_wf_unique _ _ _ _ Hwf Hin Happ) in Hnone. congruence. }
  destruct (list_elem_of_split _ _ Happ) as (l1 & l2 & Hsplit).
  unfold _add_subordinates_to_index in H2. rewrite Hsplit in H2.
  rewrite foldM_app in H2. apply bind_ok in H2 as (ia & Ha & H2).
  apply foldM_cons_ok in H2 as (ib & Hb & H2).
  assert (NoDup (l1.*1 ++ app :: l2.*1)) as Hnodup.
  { unfold dict_wf, dict_keys in Hwf. rewrite Hsplit in Hwf.
    by rewrite fmap_app in Hwf. }
  apply NoDup_app in Hnodup as (_ & Hl1 & [Hl2 _]%NoDup_cons).
  assert (∀ l x ia' ib',
            (∀ a ai, (a, ai) ∈ l → (a, ai) ∈ applications juju_status ∧ a ≠ app) →
            x = app ∨ x ∈ parents →
            foldM (add_subordinate_app juju_status g) ia' l = Ok ib' →
            idx_get "apps" ib' !! x = idx_get "apps" ia' !! x) as Hkeep.
  { intros l x ia' ib' Hl Hx. apply (subordinate_apps_keep juju_status g).
    intros a ai Hai. destruct (Hl a ai Hai) as [Hin Hai'].
    destruct Hx as [->|Hx]; [by left|].
    destruct (decide (a = x)) as [->|?]; [|by left]. right.
    destruct (Hparent x Hx) as (parent_info & Hin' & Hnone & _).
    by rewrite (dict_wf_unique _ _ _ _ Hwf Hin Hin'). }
  assert (∀ a ai, (a, ai) ∈ l1 → (a, ai) ∈ applications juju_status ∧ a ≠ app) as Hin1.
  { intros a ai Hai. split.
    - rewrite Hsplit. apply elem_of_app. by left.
    - intros ->. apply (Hl1 app); [|apply list_elem_of_here].
      by apply (list_elem_of_fmap_2 fst _ (app, ai)). }
  assert (∀ a ai, (a, ai) ∈ l2 → (a, ai) ∈ applications juju_status ∧ a ≠ app) as Hin2.
  { intros a ai Hai. split.
    - rewrite Hsplit. apply elem_of_app. right. by apply list_elem_of_further.
    - intros ->. apply Hl2. by apply (list_elem_of_fmap_2 fst _ (app, ai)). }
  rewrite (Hkeep l2 app ib i2 Hin2 (or_introl eq_refl) H2).
  unfold add_subordinate_app in Hb. rewrite Hparents in Hb. simpl in Hb.
  apply (subordinate_parents_extend juju_status g
           (λ p, unit_nodes g (units_of juju_status p)) app parents ia ib); [done| |].
  - rewrite (Hkeep l1 app i1 ia Hin1 (or_introl eq_refl) Ha).
    by apply (principals_apps_exact juju_status g Hwf ∅ i1).
  - intros p Hp. split; [by apply Hne|].
    rewrite (Hkeep l1 p i1 ia Hin1 (or_intror Hp) Ha).
    destruct (Hparent p Hp) as (parent_info & Hin & _ & ->).
    by apply (principals_apps_exact juju_status g Hwf ∅ i1).
Qed.

Lemma subordinate_apps_entry_witness :
  ∃ index, index_status Examples.doc_two_hosts "g" = Ok index ∧
           idx_get "apps" index !! "S" = Some ["g:3"; "g:4"].
Proof.
  eexists. split; [reflexivity|].
  refine (subordinate_apps_entry Examples.doc_two_hosts "g" _ "S" Examples.app_S ["P"]
            eq_refl _ _ _ _).
  - by compute_done.
  - apply list_elem_of_further, list_elem_of_here.
  - reflexivity.
  - reflexivity.
Defined.

(** ** What [get_nodes] returns *)

Lemma truthy_false {A} (l : list A) : Py.truthy l = false → l = [].
Proof. by destruct l. Qed.

Lemma sound_entry_node juju_status g key name n nodes index :
  sound_index juju_status g index →
  idx_get key index !! name = Some nodes → n ∈ nodes →
  ∃ m, n = node_of g m ∧ m ∈ indexed_machines juju_status.
Proof.
  intros Hsound Hnodes Hn. apply Hsound in Hnodes. unfold entry_ok in Hnodes.
  unfold indexed_machines.
  repeat case_decide; [| | |done]; subst key.
  - destruct Hnodes as [_ Hnodes].
    destruct (Hnodes n Hn) as (m & -> & Hm). exists m. split; [done|].
    apply elem_of_app. by left.
  - destruct Hnodes as (ui & m & Hk & Hm & ->).
    apply list_elem_of_singleton in Hn as ->. exists m. split; [done|].
    apply elem_of_app. left.
    apply elem_of_app in Hk as [Hk|Hk].
    + by apply (unit_machine_elem _ name ui).
    + destruct (hosted_unit_is_a_unit _ _ _ Hk) as [u Hu].
      by apply (unit_machine_elem _ u ui).
  - destruct Hnodes as [Hname ->].
    apply list_elem_of_singleton in Hn as ->. by exists name.
Qed.

Section Selection.
Variable re_match : string → string → result bool.
Variable exec_primary_cmd : string → CmdResult.
Variable json_loads : string → result StatusDocument.

Lemma get_nodes_model_selects opts nodes model nodes' :
  get_nodes_model re_match exec_primary_cmd json_loads (filters_of opts) nodes model
  = Ok nodes' →
  ∃ index, _get_model_info exec_primary_cmd json_loads model = Ok index ∧
    ∀ n, n ∈ nodes' ↔ n ∈ nodes ∨ selects re_match opts index n.
Proof.
  unfold get_nodes_model. intros (index & Hinfo & H)%bind_ok.
  exists index. split; [done|]. intros n.
  destruct (negb _) eqn:Hany.
  - simplify_eq. apply negb_true_iff in Hany. unfold filters_of in Hany. simpl in Hany.
    apply orb_false_iff in Hany as [Ha Hany].
    apply orb_false_iff in Hany as [Hu Hany].
    apply orb_false_iff in Hany as [Hm _].
    apply truthy_false in Ha, Hu, Hm.
    split; [by left|]. intros [?|Hsel]; [done|].
    unfold selects in Hsel. rewrite Ha, Hu, Hm in Hsel.
    destruct Hsel as [(? & ? & ? & []%elem_of_nil & _)
                     |[(? & ? & []%elem_of_nil & _)|(? & ? & []%elem_of_nil & _)]].
  - unfold filters_of in H.
    apply foldM_cons_ok in H as (n1 & H1 & H).
    apply foldM_cons_ok in H as (n2 & H2 & H).
    apply foldM_cons_ok in H as (n3 & H3 & H).
    simpl in H. simplify_eq.
    unfold filter_category in H1, H2, H3.
    rewrite bool_decide_eq_true_2 in H1 by apply list_elem_of_here.
    rewrite bool_decide_eq_false_2 in H2 by (by intros ?%list_elem_of_singleton).
    rewrite bool_decide_eq_false_2 in H3 by (by intros ?%list_elem_of_singleton).
    apply bind_ok in H1 as (s1 & Hs1 & H1). simpl in H2, H3. simplify_eq.
    rewrite !elem_of_union, (filter_by_pattern_spec _ _ _ _ _ _ Hs1),
      !filter_by_fixed_spec.
    unfold selects. tauto.
Qed.

(** The nodes gathered over the models. *)
Lemma models_select opts models acc nodes n :
  foldM (get_nodes_model re_match exec_primary_cmd json_loads (filters_of opts))
    acc models = Ok nodes →
  n ∈ nodes
  ↔ n ∈ acc ∨ ∃ model index,
      model ∈ models ∧
      _get_model_info exec_primary_cmd json_loads model = Ok index ∧
      selects re_match opts index n.
Proof.
  revert acc. induction models as [|model models IH]; intros acc H.
  - simpl in H. simplify_eq. split; [by left|].
    intros [?|(? & ? & []%elem_of_nil & _)]. done.
  - apply foldM_cons_ok in H as (a1 & H1 & H).
    apply get_nodes_model_selects in H1 as (index & Hinfo & H1).
    rewrite (IH _ H), H1. split.
    + intros [[?|?]|(model' & index' & ? & ? & ?)].
      * by left.
      * right. exists model, index. split_and!; [apply list_elem_of_here|done..].
      * right. exists model', index'. split_and!; [by apply list_elem_of_further|done..].
    + intros [?|(model' & index' & [->|?]%elem_of_cons & Hi & ?)].
      * left. by left.
      * left. right. rewrite Hinfo in Hi. by simplify_eq.
      * right. by exists model', index'.
Qed.

Lemma get_nodes_model_returns opts nodes model :
  (∀ pattern param, pattern ∈ _parse_option_string (opt_apps opts) →
     is_ok (re_match pattern param) = true) →
  is_ok (get_nodes_model re_match exec_primary_cmd json_loads (filters_of opts)
           nodes model)
  = is_ok (_get_model_info exec_primary_cmd json_loads model).
Proof.
  intros Hok. unfold get_nodes_model.
  destruct (_get_model_info _ _ model) as [index|]; [|done]. simpl.
  destruct (negb _); [done|]. unfold filters_of. simpl.
  pose proof (filter_by_pattern_total re_match "apps" _ index Hok) as Hp.
  by destruct (_filter_by_pattern _ _ _ index).
Qed.

End Selection.

(** X7.  The list that [get_nodes] returns has no node twice, and a node
    is in it exactly when, in the index of one of the requested models,
    a term of [apps] matches as a pattern the name of an [apps] entry
    that holds the node, or a term of [units] or [machines] is the name
    of an entry of that category that holds it.  The nodes of the models
    are put together; no model takes a node of another away. *)
Theorem get_nodes_selected
    (re_match : string → string → result bool)
    (exec_primary_cmd : string → CmdResult)
    (json_loads : string → result StatusDocument)
    (opts : Options) (l : list string) :
  get_nodes re_match exec_primary_cmd json_loads opts = Ok l →
  NoDup l ∧
  ∀ n, n ∈ l
       ↔ ∃ model index,
           model ∈ requested_models opts ∧
           _get_model_info exec_primary_cmd json_loads model = Ok index ∧
           selects re_match opts index n.
Proof.
  rewrite get_nodes_unfold. intros (nodes & Hnodes & Hl)%bind_ok. simplify_eq.
  split; [apply NoDup_elements|]. intros n.
  rewrite elem_of_elements, (models_select _ _ _ _ _ _ _ _ Hnodes).
  split; [|by right]. intros [[]%not_elem_of_empty|?]. done.
Qed.

Lemma get_nodes_selected_witness :
  ∃ model index,
    model ∈ ["model1"] ∧
    _get_model_info (λ _, {| status := 0; output := "{}" |})
      (λ _, Ok Examples.doc_ab) model = Ok index ∧
    selects (re_match Examples.rejects)
      {| opt_apps := Some "B"; opt_units := None; opt_models := Some "model1";
         opt_machines := None |} index "model1:1".
Proof.
  refine (proj1 (proj2 (get_nodes_selected (re_match Examples.rejects)
            (λ _, {| status := 0; output := "{}" |}) (λ _, Ok Examples.doc_ab)
            {| opt_apps := Some "B"; opt_units := None; opt_models := Some "model1";
               opt_machines := None |} ["model1:1"] _) "model1:1") _).
  - by vm_compute.
  - apply list_elem_of_here.
Defined.

(** X8.  Every node that [get_nodes] returns is [model:machine] for a
    requested model and a machine that the status of that model gives to
    a unit or lists in its [machines] section. *)
Theorem get_nodes_names_machines
    (re_match : string → string → result bool)
    (exec_primary_cmd : string → CmdResult)
    (json_loads : string → result StatusDocument)
    (opts : Options) (l : list string) (n : string) :
  get_nodes re_match exec_primary_cmd json_loads opts = Ok l →
  n ∈ l →
  ∃ model juju_status m,
    model ∈ requested_models opts ∧
    _execute_juju_status exec_primary_cmd json_loads model = Ok juju_status ∧
    m ∈ indexed_machines juju_status ∧
    n = node_of model m.
Proof.
  rewrite get_nodes_unfold. intros (nodes & Hnodes & Hl)%bind_ok Hn. simplify_eq.
  apply elem_of_elements in Hn.
  apply (models_select _ _ _ _ _ _ _ _ Hnodes) in Hn
    as [[]%not_elem_of_empty|(model & index & Hmodel & Hinfo & Hsel)].
  unfold _get_model_info in Hinfo.
  apply bind_ok in Hinfo as (juju_status & Hexec & Hindex).
  apply index_status_sound in Hindex.
  assert (∃ m, n = node_of model m ∧ m ∈ indexed_machines juju_status) as (m & -> & Hm).
  { destruct Hsel as [(? & name & value & _ & Hv & _ & Hin)
                     |[(name & value & _ & Hv & Hin)|(name & value & _ & Hv & Hin)]].
    - by apply (sound_entry_node _ _ "apps" name n value index).
    - by apply (sound_entry_node _ _ "units" name n value index).
    - by apply (sound_entry_node _ _ "machines" name n value index). }
  by exists model, juju_status, m.
Qed.

Lemma get_nodes_names_machines_witness :
  ∃ model juju_status m,
    model ∈ ["model1"] ∧
    _execute_juju_status (λ _, {| status := 0; output := "{}" |})
      (λ _, Ok Examples.doc_ab) model = Ok juju_status ∧
    m ∈ indexed_machines juju_status ∧
    "model1:1" = node_of model m.
Proof.
  refine (get_nodes_names_machines (re_match Examples.rejects)
            (λ _, {| status := 0; output := "{}" |}) (λ _, Ok Examples.doc_ab)
            {| opt_apps := None; opt_units := Some "a/0,B/0"; opt_models := Some "model1";
               opt_machines := None |} ["model1:1"] "model1:1" _ _).
  - by vm_compute.
  - apply list_elem_of_here.
Defined.

(** X9.  When the matcher accepts every term of [apps] as a pattern,
    [get_nodes] returns a list exactly when the status of every
    requested model can be fetched and indexed. *)
Theorem get_nodes_returns_iff
    (re_match : string → string → result bool)
    (exec_primary_cmd : string → CmdResult)
    (json_loads : string → result StatusDocument)
    (opts : Options) :
  (∀ pattern param, pattern ∈ _parse_option_string (opt_apps opts) →
     is_ok (re_match pattern param) = true) →
  is_ok (get_nodes re_match exec_primary_cmd json_loads opts) = true
  ↔ ∀ model, model ∈ requested_models opts →
      is_ok (_get_model_info exec_primary_cmd json_loads model) = true.
Proof.
  intros Hok. rewrite get_nodes_unfold. split.
  - destruct (foldM _ ∅ (requested_models opts)) as [nodes|] eqn:Hnodes; [|done].
    intros _. apply Forall_forall.
    apply (foldM_ok_step _ _ _ _ nodes) with (2 := Hnodes).
    intros a model a' _ Ha.
    rewrite <- (get_nodes_model_returns re_match _ _ opts a model Hok). by rewrite Ha.
  - intros Hall.
    assert (is_ok (foldM (get_nodes_model re_match exec_primary_cmd json_loads
                            (filters_of opts)) ∅ (requested_models opts)) = true) as Hfold.
    { apply foldM_total. intros a model Hmodel.
      rewrite get_nodes_model_returns by done. by apply Hall. }
    by destruct (foldM _ ∅ (requested_models opts)).
Qed.

Lemma get_nodes_returns_iff_witness :
  is_ok (get_nodes (re_match Examples.rejects) (λ _, {| status := 0; output := "{}" |})
           (λ _, Ok Examples.doc_ab)
           {| opt_apps := None; opt_units := Some "a/0"; opt_models := Some "m1,m2";
              opt_machines := None |}) = true.
Proof.
  refine (proj2 (get_nodes_returns_iff (re_match Examples.rejects)
            (λ _, {| status := 0; output := "{}" |}) (λ _, Ok Examples.doc_ab)
            {| opt_apps := None; opt_units := Some "a/0"; opt_models := Some "m1,m2";
               opt_machines := None |} _) _).
  - intros pattern param []%elem_of_nil.
  - intros model _. reflexivity.
Defined.

(** X10.  When the matcher raises on no term of [apps], the exception of
    the first requested model whose status cannot be fetched or indexed
    is the exception of [get_nodes]: the nodes selected in the models
    before it are lost, whatever the models after it hold.  (Without
    the condition the exception can be the one of the matcher, raised
    in the filter of a model before it.) *)
Theorem get_nodes_first_failure
    (re_match : string → string → result bool)
    (exec_primary_cmd : string → CmdResult)
    (json_loads : string → result StatusDocument)
    (opts : Options) (before after : list string) (model : string) (e : exn) :
  requested_models opts = before ++ model :: after →
  (∀ pattern param, pattern ∈ _parse_option_string (opt_apps opts) →
     is_ok (re_match pattern param) = true) →
  (∀ model', model' ∈ before →
     is_ok (_get_model_info exec_primary_cmd json_loads model') = true) →
  _get_model_info exec_primary_cmd json_loads model = Raise e →
  get_nodes re_match exec_primary_cmd json_loads opts = Raise e.
Proof.
  intros Hmodels Hok Hbefore Hinfo. rewrite get_nodes_unfold, Hmodels, foldM_app.
  assert (is_ok (foldM (get_nodes_model re_match exec_primary_cmd json_loads
                          (filters_of opts)) ∅ before) = true) as Hfold.
  { apply foldM_total. intros a model' Hmodel'.
    rewrite get_nodes_model_returns by done. by apply Hbefore. }
  destruct (foldM _ ∅ before) as [nodes|]; [|done]. simpl.
  unfold get_nodes_model. by rewrite Hinfo.
Qed.

Lemma get_nodes_first_failure_witness :
  get_nodes (re_match Examples.rejects)
    (λ c, {| status := if bool_decide (c = status_cmd "m2") then 1 else 0;
             output := "{}" |})
    (λ _, Ok Examples.doc_ab)
    {| opt_apps := None; opt_units := Some "a/0"; opt_models := Some "m1,m2,m3";
       opt_machines := None |}
  = Raise (Exception "juju status -m m2 --format json did not return usable output").
Proof.
  refine (get_nodes_first_failure (re_match Examples.rejects) _ _ _ ["m1"] ["m3"] "m2" _ _ _ _ _).
  - reflexivity.
  - intros pattern param []%elem_of_nil.
  - intros model' ->%list_elem_of_singleton. reflexivity.
  - reflexivity.
Defined.

(** ** When a model can be indexed *)




(** ** Edge cases of the filters *)

(** X13.  A pattern that the matcher rejects makes the pattern filter
    raise only when the category has an entry: on a category without
    entries the matcher is never called and the filter returns the
    empty set. *)
Theorem filter_by_pattern_rejected
    (re_match : string → string → result bool)
    (key : string) (before after : list string) (pattern : string)
    (index : Index) (e : exn) :
  (∀ p param, p ∈ before → is_ok (re_match p param) = true) →
  (∀ param, re_match pattern param = Raise e) →
  _filter_by_pattern re_match key (before ++ pattern :: after) index
  = if decide (idx_get key index = ∅) then Ok ∅ else Raise e.
Proof.
  intros Hbefore Hpattern. unfold _filter_by_pattern.
  case_decide as Hempty.
  - rewrite Hempty, map_to_list_empty. generalize (∅ : gset string).
    induction (before ++ pattern :: after) as [|p ps IH]; intros acc; [done|].
    simpl. apply IH.
  - rewrite foldM_app.
    pose proof (filter_by_pattern_total re_match key before index Hbefore) as Hok.
    unfold _filter_by_pattern in Hok.
    destruct (foldM _ ∅ before) as [nodes|]; [|done]. simpl.
    destruct (map_to_list (idx_get key index)) as [|[param value] entries] eqn:Hentries.
    { by apply map_to_list_empty_iff in Hentries. }
    simpl. by rewrite Hpattern.
Qed.

Lemma filter_by_pattern_rejected_witness :
  _filter_by_pattern (re_match Examples.rejects) "apps" ["^web"; "("] Examples.idx_web = Raise (ReError "(") ∧
  _filter_by_pattern (re_match Examples.rejects) "units" ["^web"; "("] Examples.idx_web = Ok ∅.
Proof.
  split.
  - refine (filter_by_pattern_rejected (re_match Examples.rejects) "apps" ["^web"] [] "(" Examples.idx_web
              (ReError "(") _ _).
    + intros p param ->%list_elem_of_singleton. reflexivity.
    + intros param. reflexivity.
  - refine (filter_by_pattern_rejected (re_match Examples.rejects) "units" ["^web"] [] "(" Examples.idx_web
              (ReError "(") _ _).
    + intros p param ->%list_elem_of_singleton. reflexivity.
    + intros param. reflexivity.
Defined.

Lemma re_match_empty_pattern other s : re_match other "" s = Ok true.
Proof.
  apply (re_match_spec other "" s Re.Eps); [reflexivity|].
  exists "", s. split; [done|]. constructor.
Qed.

(** X14.  An empty term among the terms of [apps] (as an option ending
    in a comma leaves one) is the pattern that matches every name: the
    list that [get_nodes] returns then holds every node of every
    application of every requested model. *)
Theorem empty_apps_term_selects_all
    (other : string → string → result bool)
    (exec_primary_cmd : string → CmdResult)
    (json_loads : string → result StatusDocument)
    (opts : Options) (l : list string) (model app n : string)
    (index : Index) (nodes : list string) :
  "" ∈ _parse_option_string (opt_apps opts) →
  get_nodes (re_match other) exec_primary_cmd json_loads opts = Ok l →
  model ∈ requested_models opts →
  _get_model_info exec_primary_cmd json_loads model = Ok index →
  idx_get "apps" index !! app = Some nodes →
  n ∈ nodes →
  n ∈ l.
Proof.
  intros Hterm Hl Hmodel Hinfo Happ Hn. rewrite get_nodes_unfold in Hl.
  apply bind_ok in Hl as (ns & Hns & Hl). simplify_eq.
  apply elem_of_elements, (models_select _ _ _ _ _ _ _ _ Hns). right.
  exists model, index. split_and!; [done..|]. left.
  exists "", app, nodes. split_and!; [done..|apply re_match_empty_pattern|done].
Qed.

Lemma empty_apps_term_selects_all_witness :
  "model1:1" ∈ ["model1:1"].
Proof.
  refine (empty_apps_term_selects_all Examples.rejects
            (λ _, {| status := 0; output := "{}" |}) (λ _, Ok Examples.doc_ab)
            {| opt_apps := Some "zz,"; opt_units := None; opt_models := Some "model1";
               opt_machines := None |} ["model1:1"] "model1" "A" "model1:1" _
            ["model1:1"] _ _ _ eq_refl _ _).
  - apply list_elem_of_further, list_elem_of_here.
  - by vm_compute.
  - apply list_elem_of_here.
  - reflexivity.
  - apply list_elem_of_here.
Defined.

(** X15.  The exact filter is the union of the entries that the terms
    name: a term that names no entry of the category adds nothing, and
    no term adds the entry of another name. *)
Theorem filter_by_fixed_closed_form (key : string) (terms : list string)
    (model_info : Index) :
  _filter_by_fixed key terms model_info
  = list_to_set (term ← terms; default [] (idx_get key model_info !! term)).
Proof.
  apply set_eq. intros n.
  rewrite filter_by_fixed_spec, elem_of_list_to_set, list_elem_of_bind. split.
  - intros (term & value & Hterm & Hvalue & Hn). exists term. by rewrite Hvalue.
  - intros (term & Hn & Hterm).
    destruct (idx_get key model_info !! term) as [value|] eqn:Hvalue.
    + by exists term, value.
    + by apply elem_of_nil in Hn.
Qed.

Section Order.
Variable re_match : string → string → result bool.
Variable exec_primary_cmd : string → CmdResult.
Variable json_loads : string → result StatusDocument.

Lemma selects_same_terms opts1 opts2 index n :
  (∀ x, x ∈ _parse_option_string (opt_apps opts1)
        ↔ x ∈ _parse_option_string (opt_apps opts2)) →
  (∀ x, x ∈ _parse_option_string (opt_units opts1)
        ↔ x ∈ _parse_option_string (opt_units opts2)) →
  (∀ x, x ∈ _parse_option_string (opt_machines opts1)
        ↔ x ∈ _parse_option_string (opt_machines opts2)) →
  selects re_match opts1 index n → selects re_match opts2 index n.
Proof.
  intros Ha Hu Hm [(p & param & v & Hp & ?)|[(x & v & Hx & ?)|(x & v & Hx & ?)]].
  - left. exists p, param, v. split; [by apply Ha|done].
  - right. left. exists x, v. split; [by apply Hu|done].
  - right. right. exists x, v. split; [by apply Hm|done].
Qed.

End Order.

(** X16.  The order of the names of an option and their repetition do
    not matter: two calls whose options name the same models and the
    same terms of each category return, when both return, the same
    nodes. *)
Theorem get_nodes_order_irrelevant
    (re_match : string → string → result bool)
    (exec_primary_cmd : string → CmdResult)
    (json_loads : string → result StatusDocument)
    (opts1 opts2 : Options) (l1 l2 : list string) :
  (∀ x, x ∈ requested_models opts1 ↔ x ∈ requested_models opts2) →
  (∀ x, x ∈ _parse_option_string (opt_apps opts1)
        ↔ x ∈ _parse_option_string (opt_apps opts2)) →
  (∀ x, x ∈ _parse_option_string (opt_units opts1)
        ↔ x ∈ _parse_option_string (opt_units opts2)) →
  (∀ x, x ∈ _parse_option_string (opt_machines opts1)
        ↔ x ∈ _parse_option_string (opt_machines opts2)) →
  get_nodes re_match exec_primary_cmd json_loads opts1 = Ok l1 →
  get_nodes re_match exec_primary_cmd json_loads opts2 = Ok l2 →
  l1 ≡ₚ l2.
Proof.
  intros Hmodels Ha Hu Hm. rewrite !get_nodes_unfold.
  intros (ns1 & H1 & ?)%bind_ok (ns2 & H2 & ?)%bind_ok. simplify_eq.
  assert (ns1 = ns2) as ->; [|done].
  apply set_eq. intros n.
  rewrite (models_select _ _ _ _ _ _ _ _ H1), (models_select _ _ _ _ _ _ _ _ H2).
  split.
  - intros [?|(model & index & Hmodel & Hinfo & Hsel)]; [by left|]. right.
    exists model, index. split_and!; [by apply Hmodels|done|].
    by apply (selects_same_terms re_match opts1 opts2).
  - intros [?|(model & index & Hmodel & Hinfo & Hsel)]; [by left|]. right.
    exists model, index. split_and!; [by apply Hmodels|done|].
    apply (selects_same_terms re_match opts2 opts1); [| | |done].
    + intros x. symmetry. apply Ha.
    + intros x. symmetry. apply Hu.
    + intros x. symmetry. apply Hm.
Qed.

Lemma get_nodes_order_irrelevant_witness :
  ["model1:1"] ≡ₚ ["model1:1"].
Proof.
  refine (get_nodes_order_irrelevant (re_match Examples.rejects)
            (λ _, {| status := 0; output := "{}" |}) (λ _, Ok Examples.doc_ab)
            {| opt_apps := None; opt_units := Some "a/0,B/0"; opt_models := Some "model1";
               opt_machines := None |}
            {| opt_apps := None; opt_units := Some "B/0,a/0,B/0";
               opt_models := Some "model1,model1"; opt_machines := None |}
            ["model1:1"] ["model1:1"] _ _ _ _ _ _).
  - intros x. split; intros Hx; vm_compute in Hx; vm_compute;
      repeat (apply elem_of_cons in Hx as [->|Hx];
              [first [apply list_elem_of_here
                     |apply list_elem_of_further, list_elem_of_here]|]);
      by apply elem_of_nil in Hx.
  - done.
  - intros x. split; intros Hx; vm_compute in Hx; vm_compute;
      repeat (apply elem_of_cons in Hx as [->|Hx];
              [first [apply list_elem_of_here
                     |apply list_elem_of_further, list_elem_of_here
                     |do 2 apply list_elem_of_further; apply list_elem_of_here]|]);
      by apply elem_of_nil in Hx.
  - done.
  - by vm_compute.
  - by vm_compute.
Defined.

(** ** The option parser, once more *)

Lemma split_not_nil sep s : Py.split sep s ≠ [].
Proof.
  destruct s as [|c s]; simpl; [done|].
  destruct (decide (c = sep)); [done|]. by destruct (Py.split sep s).
Qed.

Lemma split_length sep s : length (Py.split sep s) = S (count_char sep s).
Proof.
  induction s as [|c s IH]; simpl; [done|].
  destruct (decide (c = sep)) as [->|Hne].
  - rewrite bool_decide_eq_true_2 by done. simpl. by rewrite IH.
  - rewrite bool_decide_eq_false_2 by done.
    destruct (Py.split sep s); simpl in *; [done|by rewrite <- IH].
Qed.

Lemma split_free sep s : Forall (λ x, free_of sep x = true) (Py.split sep s).
Proof.
  induction s as [|c s IH]; simpl; [by repeat constructor|].
  destruct (decide (c = sep)) as [->|Hne]; [by constructor|].
  destruct (Py.split sep s) as [|w ws] eqn:Hsplit; [by apply split_not_nil in Hsplit|].
  inversion IH as [|?? Hw Hws]; subst. constructor; [|done].
  simpl. by rewrite bool_decide_eq_false_2, Hw.
Qed.

Lemma split_free_of sep x : free_of sep x = true → Py.split sep x = [x].
Proof.
  induction x as [|c x IH]; simpl; [done|].
  intros [Hc%negb_true_iff%bool_decide_eq_false Hx]%andb_true_iff.
  rewrite decide_False by done. by rewrite IH.
Qed.

Lemma split_app_sep sep x s :
  free_of sep x = true →
  Py.split sep (x +:+ String sep s) = x :: Py.split sep s.
Proof.
  induction x as [|c x IH]; simpl.
  - intros _. by rewrite decide_True.
  - intros [Hc%negb_true_iff%bool_decide_eq_false Hx]%andb_true_iff.
    rewrite decide_False by done. by rewrite IH.
Qed.

Lemma split_join sep l :
  l ≠ [] → Forall (λ x, free_of sep x = true) l →
  Py.split sep (join (String sep "") l) = l.
Proof.
  induction l as [|x l IH]; [done|]. intros _ Hall.
  inversion Hall as [|?? Hx Hl]; subst.
  destruct l as [|y l].
  - simpl. by apply split_free_of.
  - change (join (String sep "") (x :: y :: l))
      with (x +:+ String sep (join (String sep "") (y :: l))).
    rewrite split_app_sep by done. f_equal. by apply IH.
Qed.

Lemma lstrip_id s : Py.starts_with_space s = false → Py.lstrip s = s.
Proof. destruct s as [|c s]; simpl; [done|]. by intros ->. Qed.

Lemma rstrip_id s : Py.ends_with_space s = false → Py.rstrip s = s.
Proof.
  induction s as [|c s IH]; simpl; [done|].
  destruct s as [|c' s'].
  - simpl. by intros ->.
  - intros H. by rewrite (IH H).
Qed.

Lemma strip_id s : Py.trimmed s → Py.strip s = s.
Proof. intros [Hs He]. unfold Py.strip. by rewrite lstrip_id, rstrip_id. Qed.

Lemma lstrip_free c s : free_of c s = true → free_of c (Py.lstrip s) = true.
Proof.
  induction s as [|c' s IH]; simpl; [done|].
  intros H. destruct (Py.is_space c'); [|done].
  apply andb_true_iff in H as [_ H]. by apply IH.
Qed.

Lemma rstrip_free c s : free_of c s = true → free_of c (Py.rstrip s) = true.
Proof.
  induction s as [|c' s IH]; simpl; [done|].
  intros [Hc Hs]%andb_true_iff. specialize (IH Hs).
  destruct (Py.rstrip s) as [|c'' r].
  - destruct (Py.is_space c'); [done|]. simpl. by rewrite Hc.
  - simpl in *. by rewrite Hc, IH.
Qed.

Lemma join_not_empty sep l : l ≠ [] → l ≠ [""] → join (String sep "") l ≠ "".
Proof.
  destruct l as [|x [|y l]]; [done| |].
  - simpl. intros _ H ->. done.
  - intros _ _.
    change (join (String sep "") (x :: y :: l))
      with (x +:+ String sep (join (String sep "") (y :: l))).
    by destruct x.
Qed.

(** X17.  A non-empty option string with [k] commas gives a list of
    [k + 1] elements, none of which contains a comma: the elements are
    never merged and never split further. *)
Theorem parse_option_string_length (s : string) :
  s ≠ "" →
  length (_parse_option_string (Some s)) = S (count_char "," s) ∧
  Forall (λ x, free_of "," x = true) (_parse_option_string (Some s)).
Proof.
  destruct s as [|c s]; [done|]. intros _.
  change (_parse_option_string (Some (String c s)))
    with (Py.strip <$> Py.split "," (String c s)).
  split.
  - by rewrite length_fmap, split_length.
  - apply Forall_fmap. eapply Forall_impl; [apply split_free|].
    intros x Hx. simpl. unfold Py.strip. by apply rstrip_free, lstrip_free.
Qed.

Lemma parse_option_string_length_witness :
  length (_parse_option_string (Some " a, b ,,c")) = 4%nat.
Proof.
  refine (proj1 (parse_option_string_length " a, b ,,c" _)). done.
Defined.

(** X18.  Round trip: the parse of a list of names joined with commas
    is the list, when no name contains a comma or starts or ends with
    whitespace, and the list is neither empty nor the one empty name
    (which both join to the empty string, whose parse is the empty
    list). *)
Theorem parse_option_string_join (l : list string) :
  l ≠ [] → l ≠ [""] →
  Forall (λ x, free_of "," x = true) l →
  Forall Py.trimmed l →
  _parse_option_string (Some (join "," l)) = l.
Proof.
  intros Hnil Hone Hfree Htrim.
  pose proof (join_not_empty "," l Hnil Hone) as Hne.
  pose proof (split_join "," l Hnil Hfree) as Hsplit.
  destruct (join "," l) as [|c s] eqn:Hjoin; [done|].
  change (_parse_option_string (Some (String c s)))
    with (Py.strip <$> Py.split "," (String c s)).
  rewrite Hsplit. clear -Htrim.
  induction Htrim as [|x l Hx Hl IH]; [done|].
  rewrite fmap_cons. f_equal; [by apply strip_id|done].
Qed.

Lemma parse_option_string_join_witness :
  _parse_option_string (Some "web,db 1,") = ["web"; "db 1"; ""].
Proof.
  refine (parse_option_string_join ["web"; "db 1"; ""] _ _ _ _).
  - done.
  - done.
  - by repeat constructor.
  - by repeat constructor.
Defined.

(** ** The normaliser, once more *)

Lemma scan_sublist st s :
  sublist (list_ascii_of_string (scan st s)) (list_ascii_of_string s).
Proof.
  revert st. induction s as [|c s IH]; intros st; [constructor|].
  destruct st; simpl.
  - destruct (bool_decide (c = "{"%char)); simpl.
    + apply sublist_skip, IH.
    + apply sublist_cons, IH.
  - apply sublist_skip, IH.
Qed.

Lemma scan_braces st s : count_char "{" (scan st s) = count_char "{" s.
Proof.
  revert st. induction s as [|c s IH]; intros st; [done|].
  destruct st; simpl.
  - destruct (bool_decide (c = "{"%char)) eqn:Hc; simpl.
    + by rewrite Hc, IH.
    + apply IH.
  - by rewrite IH.
Qed.

Lemma scan_dropping_empty s : scan Dropping s = "" ↔ free_of "{" s = true.
Proof.
  induction s as [|c s IH]; simpl; [done|].
  destruct (bool_decide (c = "{"%char)); simpl; [done|]. apply IH.
Qed.

Lemma scan_keeping_app body s :
  free_of Re.newline body = true →
  scan Keeping (body +:+ String Re.newline s)
  = body +:+ String Re.newline (scan Dropping s).
Proof.
  induction body as [|c body IH]; simpl.
  - done.
  - intros [Hc%negb_true_iff Hbody]%andb_true_iff. rewrite Hc, str_app_cons.
    f_equal. by apply IH.
Qed.

(** X19.  The normaliser only deletes characters: its output is the
    input with some characters left out, in the same order, and it
    leaves out no "{". *)
Theorem cleanup_only_deletes (output : string) :
  sublist (list_ascii_of_string (_cleanup_juju_output output))
    (list_ascii_of_string output) ∧
  count_char "{" (_cleanup_juju_output output) = count_char "{" output.
Proof.
  rewrite cleanup_is_scan. split; [apply scan_sublist|apply scan_braces].
Qed.

(** X20.  The normalised output is empty exactly when the output of the
    command holds no "{": whatever the command printed, line ends
    included, is dropped. *)
Theorem cleanup_empty_iff (output : string) :
  _cleanup_juju_output output = "" ↔ free_of "{" output = true.
Proof. rewrite cleanup_is_scan. apply scan_dropping_empty. Qed.

(** X21.  The normaliser works line by line: of a text that has a "{"
    on one of its lines, what precedes the first "{" is dropped, the
    rest of that line is kept with its line end, and what follows the
    line end is normalised in the same way. *)
Theorem cleanup_line_by_line (pre body rest : string) :
  free_of "{" pre = true →
  free_of Re.newline body = true →
  _cleanup_juju_output (pre +:+ String "{" (body +:+ String Re.newline rest))
  = String "{" (body +:+ String Re.newline (_cleanup_juju_output rest)).
Proof.
  intros Hpre Hbody. rewrite !cleanup_is_scan, scan_dropping_prefix by done.
  simpl. f_equal. by apply scan_keeping_app.
Qed.

Lemma cleanup_line_by_line_witness :
  _cleanup_juju_output ("warning" +:+ String "{" ("a" +:+ String Re.newline " {b}"))
  = String "{" ("a" +:+ String Re.newline (_cleanup_juju_output " {b}")).
Proof.
  refine (cleanup_line_by_line "warning" "a" " {b}" _ _); reflexivity.
Defined.
